(** * Skenario: the replica CPU scheduler, the autoscaler tick and the
      movement queue, embedded from the Go sources and checked against the
      written specification.

    Layout.  The embedding comes first: [Go] holds the machine-level
    conventions (fixed-width integers, [time.Time], [time.Duration],
    [float64], decimal strings); [simulator] the kernel types the model
    package is written against; [model] embeds [requests_processing.go],
    [request_entity.go] and [fakes.go]; [kernel] is the driver's step on a
    processing stock; [ticktock] embeds [autoscaler_ticktock.go]; [cache]
    is the keyed heap of the Kubernetes client library and [newsimulator]
    the movement queue built on it.  Then come the notions the written
    specification uses ([processing_spec], [runs], [window_spec],
    [ticktock_spec], [queue_spec]), and finally, for each component, a
    module of facts and a module of claims. *)

From Stdlib Require Import ZArith Lia ZifyNat Floats DecimalString DecimalZ DecimalPos.
From Stdlib Require Import Sorted.
From stdpp Require Import base option list gmap strings.

Open Scope Z_scope.

(* ================================================================== *)
(** ** Go data conventions *)
(* ================================================================== *)

Module Go.

(** Two's-complement wrap-around of the fixed-width signed integers. *)
Definition wrap64 (z : Z) : Z := (z + 2 ^ 63) mod 2 ^ 64 - 2 ^ 63.
Definition wrap32 (z : Z) : Z := (z + 2 ^ 31) mod 2 ^ 32 - 2 ^ 31.

Definition minInt64 : Z := - 2 ^ 63.
Definition maxInt64 : Z := 2 ^ 63 - 1.

(** [time.Duration] is an [int64] count of nanoseconds. *)
Abbreviation Duration := Z (only parsing).
Definition Nanosecond : Duration := 1.
Definition Millisecond : Duration := 1000000.
Definition Second : Duration := 1000000000.

(** [time.Time]: an instant, as nanoseconds since the Unix epoch.  The
    library stores seconds in an [int64], so the instants it can hold
    reach far beyond the [int64] nanosecond range; they are unbounded
    here.  [Sub] saturates at the extreme durations, as documented;
    [UnixNano] is computed in [int64] and wraps outside its range. *)
Abbreviation Time := Z (only parsing).
Definition Time_Add (t : Time) (d : Duration) : Time := t + d.
Definition Time_Before (t u : Time) : bool := t <? u.
Definition Time_Sub (t u : Time) : Duration :=
  Z.max minInt64 (Z.min maxInt64 (t - u)).
Definition Time_UnixNano (t : Time) : Z := wrap64 t.

(** [float64(x)] of an [int64]: round to nearest, ties to even.  The
    primitive conversion takes 63 bits; 2^63, the magnitude of the least
    [int64], is twice 2^62, exactly. *)
Definition float64_of_magnitude (n : Z) : float :=
  if n <? 2 ^ 63 then PrimFloat.of_uint63 (Uint63.of_Z n)
  else (PrimFloat.of_uint63 (Uint63.of_Z (n / 2)) * 2)%float.

Definition float64_of_int64 (z : Z) : float :=
  if z <? 0 then PrimFloat.opp (float64_of_magnitude (- z))
  else float64_of_magnitude z.

(** [strconv.FormatInt(z, 10)]. *)
Definition FormatInt10 (z : Z) : string :=
  NilZero.string_of_int (Z.to_int z).

(** [strings.Contains(s, substr)]. *)
Fixpoint strings_Contains (s substr : string) : bool :=
  if String.prefix substr s then true
  else match s with
       | EmptyString => false
       | String _ s' => strings_Contains s' substr
       end.

End Go.

(* ================================================================== *)
(** ** package simulator *)
(* ================================================================== *)

Module simulator.
Import Go.

Abbreviation EntityName := string (only parsing).
Abbreviation EntityKind := string (only parsing).
Abbreviation StockName := string (only parsing).
Abbreviation MovementKind := string (only parsing).

(** Entities are shared references.  A plain entity made by
    [NewEntity(name, kind)] is identified by its allocation number; a
    [*requestEntity] is an address into the store of request records
    (package [model]), so that every stock holding the address sees the
    same mutable fields. *)
Inductive Entity : Type :=
| EntityPtr (id : nat) (name : EntityName) (kind : EntityKind)
| RequestPtr (a : nat).

#[global] Instance Entity_eq_dec : EqDecision Entity.
Proof. solve_decision. Defined.

Definition Entity_Kind (e : Entity) : EntityKind :=
  match e with
  | EntityPtr _ _ k => k
  | RequestPtr _ => "Request"
  end.

(** Modelled from the spec: the through-stock of package simulator, whose
    file is not among the sources.  Section 4.2: a named, kind-tagged
    container; [Add] refuses an entity of another kind; [Remove] yields
    the earliest entity first (FIFO) and the empty outcome on an empty
    stock; [Count] is the number of entities held.  A Go [nil] is [None]. *)
Record ThroughStock : Type := mkThroughStock {
  ts_name : StockName;
  ts_kind : EntityKind;
  ts_entities : list Entity
}.

Definition NewThroughStock (name : StockName) (kind : EntityKind) : ThroughStock :=
  mkThroughStock name kind [].

Definition ts_Count (s : ThroughStock) : Z := Z.of_nat (length (ts_entities s)).

Definition ts_EntitiesInStock (s : ThroughStock) : list (option Entity) :=
  map Some (ts_entities s).

Definition ts_Add (s : ThroughStock) (e : Entity) : ThroughStock + string :=
  if decide (Entity_Kind e = ts_kind s)
  then inl (mkThroughStock (ts_name s) (ts_kind s) (ts_entities s ++ [e]))
  else inr "stock was given an entity of another kind"%string.

Definition ts_Remove (s : ThroughStock) : option Entity * ThroughStock :=
  match ts_entities s with
  | [] => (None, s)
  | e :: rest => (Some e, mkThroughStock (ts_name s) (ts_kind s) rest)
  end.

(** The stocks a movement can name.  In Go these are interface values
    holding pointers; here each stock of the model has a tag. *)
Inductive StockRef : Type :=
| RequestsProcessingRef
| ProcessesOnCpuRef
| RequestsCompleteRef
| DesiredSourceRef
| DesiredSinkRef
| ClusterDesiredRef
| OtherStockRef (name : StockName).

#[global] Instance StockRef_eq_dec : EqDecision StockRef.
Proof. solve_decision. Defined.

(** [NewMovement(kind, occursAt, from, to)]. *)
Record Movement : Type := NewMovement {
  mv_Kind : MovementKind;
  mv_OccursAt : Time;
  mv_From : StockRef;
  mv_To : StockRef
}.

#[global] Instance Movement_eq_dec : EqDecision Movement.
Proof. solve_decision. Defined.

Record CPUUtilization : Type := mkCPUUtilization {
  cu_CPUUtilization : float;
  cu_CalculatedAt : Time
}.

End simulator.

(* ================================================================== *)
(** ** package model *)
(* ================================================================== *)

Module model.
Import Go simulator.

(** *** fakes.go: the environment the stocks are written against *)

Record FakeEnvironment : Type := mkFakeEnvironment {
  Movements : list Movement;
  TheTime : Time;
  TheHaltTime : Time;
  TheCPUUtilizations : list CPUUtilization
}.

Definition NewFakeEnvironment : FakeEnvironment :=
  mkFakeEnvironment [] 0 0 [].

Definition AddToSchedule (fe : FakeEnvironment) (movement : Movement)
  : FakeEnvironment * bool :=
  (mkFakeEnvironment (Movements fe ++ [movement]) (TheTime fe) (TheHaltTime fe)
     (TheCPUUtilizations fe), true).

Definition CurrentMovementTime (fe : FakeEnvironment) : Time := TheTime fe.

Definition HaltTime (fe : FakeEnvironment) : Time := TheHaltTime fe.

Definition CPUUtilizations (fe : FakeEnvironment) : list CPUUtilization :=
  TheCPUUtilizations fe.

Definition AppendCPUUtilization (fe : FakeEnvironment) (cpu : CPUUtilization)
  : FakeEnvironment :=
  mkFakeEnvironment (Movements fe) (TheTime fe) (TheHaltTime fe)
    (TheCPUUtilizations fe ++ [cpu]).

(** The kernel advancing the clock to the movement it executes. *)
Definition at_time (fe : FakeEnvironment) (now : Time) : FakeEnvironment :=
  mkFakeEnvironment (Movements fe) now (TheHaltTime fe) (TheCPUUtilizations fe).

(** *** request_entity.go

    The file holds an unresolved three-way merge; the side that declares
    [cpuSecondsRequired], [cpuSecondsConsumed] and [startTime], the fields
    the processing stock reads, is the one embedded. *)

Record requestEntity : Type := mkRequestEntity {
  number : Z;
  nextBackoff : Duration;
  attempts : Z;
  cpuSecondsRequired : Duration;
  cpuSecondsConsumed : Duration;
  startTime : option Time
}.

Definition cpuSecondsRemaining (re : requestEntity) : Duration :=
  wrap64 (cpuSecondsRequired re - cpuSecondsConsumed re).

(** [NewRequestEntity]: bumps the package counter [reqNumber] and returns
    the record a fresh pointer will hold. *)
Definition NewRequestEntity (reqNumber : Z) : Z * requestEntity :=
  let reqNumber := wrap64 (reqNumber + 1) in
  (reqNumber,
   mkRequestEntity reqNumber (100 * Millisecond) 0 (100 * Millisecond) 0 None).

Definition set_startTime (re : requestEntity) (t : option Time) : requestEntity :=
  mkRequestEntity (number re) (nextBackoff re) (attempts re)
    (cpuSecondsRequired re) (cpuSecondsConsumed re) t.

Definition set_cpuSecondsConsumed (re : requestEntity) (d : Duration) : requestEntity :=
  mkRequestEntity (number re) (nextBackoff re) (attempts re)
    (cpuSecondsRequired re) d (startTime re).

(** *** requests_processing.go: the sliding-window CPU usage log *)

Record cpuUsage : Type := mkCpuUsage {
  window : Duration;
  activeTimeSlices : list (Time * Time)
}.

Definition NewCpuUsage (window : Duration) : cpuUsage := mkCpuUsage window [].

Definition cpuUsage_active (c : cpuUsage) (from to : Time) : cpuUsage :=
  mkCpuUsage (window c) (activeTimeSlices c ++ [(from, to)]).

(** One iteration of the loop of [trim]: [continue] on a slice that ended
    before the cut-off, otherwise clamp the start and append. *)
Definition trim_body (cutoff : Time) (trimmed : list (Time * Time)) (t : Time * Time)
  : list (Time * Time) :=
  if Time_Before (snd t) cutoff then trimmed
  else
    let t := if Time_Before (fst t) cutoff then (cutoff, snd t) else t in
    trimmed ++ [t].

Definition cpuUsage_trim (c : cpuUsage) (now : Time) : cpuUsage :=
  let cutoff := Time_Add now (wrap64 (- window c)) in
  mkCpuUsage (window c) (fold_left (trim_body cutoff) (activeTimeSlices c) []).

(** The accumulation [activeNanos += a[1].Sub(a[0]).Nanoseconds()]. *)
Definition activeNanos_of (slices : list (Time * Time)) : Z :=
  fold_left (fun activeNanos a => wrap64 (activeNanos + Time_Sub (snd a) (fst a)))
    slices 0.

(** [usage] trims the log in place and returns the quotient. *)
Definition cpuUsage_usage (c : cpuUsage) (now : Time) : cpuUsage * float :=
  let c := cpuUsage_trim c now in
  (c, PrimFloat.div (float64_of_int64 (activeNanos_of (activeTimeSlices c)))
                    (float64_of_int64 (window c))).

(** *** requests_processing.go: the processing stock of one replica

    The sources hold two versions of the file.  The one embedded keeps the
    sliding-window log; the other differs only in not having it and in
    reading the clock where it is used.  The environment and the
    completion sink, which the Go struct holds by reference, are in
    [World] and in [StockRef]. *)

Record requestsProcessingStock : Type := mkRequestsProcessingStock {
  replicaNumber : Z;
  processesActive : ThroughStock;
  processesOnCpu : ThroughStock;
  processesTerminated : ThroughStock;
  rps_cpuUsage : cpuUsage;
  numRequestsSinceLast : Z;
  replicaMaxRPSCapacity : Z
}.

Definition NewRequestsProcessingStock (replicaNumber replicaMaxRPSCapacity : Z)
  : requestsProcessingStock :=
  mkRequestsProcessingStock replicaNumber
    (NewThroughStock "RequestsProcessing" "Request")
    (NewThroughStock "RequestsProcessing" "Request")
    (NewThroughStock "RequestsProcessing" "Request")
    (NewCpuUsage (15 * Second))
    0 replicaMaxRPSCapacity.

Definition KindStocked (rps : requestsProcessingStock) : EntityKind :=
  ts_kind (processesActive rps).

(** [Count]: the counts are slice lengths (below 2^63), so the [uint64] sum
    does not wrap. *)
Definition Count (rps : requestsProcessingStock) : Z :=
  ts_Count (processesActive rps) + ts_Count (processesOnCpu rps).

(** [EntitiesInStock]: [make] gives a slice of that many nil pointers, and
    each [append] adds after them. *)
Definition EntitiesInStock (rps : requestsProcessingStock) : list (option Entity) :=
  let entities :=
    replicate (Z.to_nat (ts_Count (processesActive rps) + ts_Count (processesOnCpu rps)))
      (@None Entity) in
  let entities := entities ++ ts_EntitiesInStock (processesActive rps) in
  let entities := entities ++ ts_EntitiesInStock (processesOnCpu rps) in
  entities.

Definition set_processesActive (rps : requestsProcessingStock) (s : ThroughStock) :=
  mkRequestsProcessingStock (replicaNumber rps) s (processesOnCpu rps)
    (processesTerminated rps) (rps_cpuUsage rps) (numRequestsSinceLast rps)
    (replicaMaxRPSCapacity rps).

Definition set_processesOnCpu (rps : requestsProcessingStock) (s : ThroughStock) :=
  mkRequestsProcessingStock (replicaNumber rps) (processesActive rps) s
    (processesTerminated rps) (rps_cpuUsage rps) (numRequestsSinceLast rps)
    (replicaMaxRPSCapacity rps).

Definition set_processesTerminated (rps : requestsProcessingStock) (s : ThroughStock) :=
  mkRequestsProcessingStock (replicaNumber rps) (processesActive rps)
    (processesOnCpu rps) s (rps_cpuUsage rps) (numRequestsSinceLast rps)
    (replicaMaxRPSCapacity rps).

Definition set_cpuUsage (rps : requestsProcessingStock) (c : cpuUsage) :=
  mkRequestsProcessingStock (replicaNumber rps) (processesActive rps)
    (processesOnCpu rps) (processesTerminated rps) c (numRequestsSinceLast rps)
    (replicaMaxRPSCapacity rps).

(** [RequestCount] reads the counter and resets it. *)
Definition RequestCount (rps : requestsProcessingStock) : Z * requestsProcessingStock :=
  (numRequestsSinceLast rps,
   mkRequestsProcessingStock (replicaNumber rps) (processesActive rps)
     (processesOnCpu rps) (processesTerminated rps) (rps_cpuUsage rps) 0
     (replicaMaxRPSCapacity rps)).

(** The mutable state one call of the stock touches: the request records
    behind the pointers, the environment, and the stock itself. *)
Record World : Type := mkWorld {
  store : gmap nat requestEntity;
  env : FakeEnvironment;
  rps : requestsProcessingStock
}.

Definition set_store (w : World) (st : gmap nat requestEntity) : World :=
  mkWorld st (env w) (rps w).
Definition set_env (w : World) (e : FakeEnvironment) : World :=
  mkWorld (store w) e (rps w).
Definition set_rps (w : World) (r : requestsProcessingStock) : World :=
  mkWorld (store w) (env w) r.

(** What a call leaves behind: the state and the returned [error] ([None]
    is [nil]), or a run-time panic (nil dereference, failed type
    assertion). *)
Inductive Outcome : Type :=
| Returned (w : World) (err : option string)
| Panicked.

(** [Remove]: drains the terminated lane only. *)
Definition Remove (w : World) : option Entity * World :=
  if 0 <? ts_Count (processesTerminated (rps w)) then
    let '(e, s) := ts_Remove (processesTerminated (rps w)) in
    (e, set_rps w (set_processesTerminated (rps w) s))
  else (None, w).

(** [Add], first block ("Enqueue or complete the request"): [inr] is the
    early [return err]. *)
Definition Add_enqueue_or_complete (w : World) (entity : Entity) (a : nat) (now : Time)
  : option (World + World * string) :=
  req ← store w !! a;
  if 0 <? cpuSecondsRemaining req then
    match ts_Add (processesActive (rps w)) entity with
    | inr err => Some (inr (w, err))
    | inl s => Some (inl (set_rps w (set_processesActive (rps w) s)))
    end
  else
    match ts_Add (processesTerminated (rps w)) entity with
    | inr err => Some (inr (w, err))
    | inl s =>
        let w := set_rps w (set_processesTerminated (rps w) s) in
        let '(e, _) :=
          AddToSchedule (env w)
            (NewMovement "complete_request" (Time_Add now Nanosecond)
               RequestsProcessingRef RequestsCompleteRef) in
        Some (inl (set_env w e))
    end.

(** [Add], second block ("Fill the CPU and schedule an interrupt"). *)
Definition Add_fill_cpu (w : World) (entity : Entity) (now : Time) : Outcome :=
  if (ts_Count (processesOnCpu (rps w)) =? 0) && (0 <? ts_Count (processesActive (rps w)))
  then
    match ts_Remove (processesActive (rps w)) with
    | (Some (RequestPtr a), s) =>
        let w := set_rps w (set_processesActive (rps w) s) in
        match store w !! a with
        | None => Panicked
        | Some req =>
            let interruptAfter := cpuSecondsRemaining req in
            let interruptAfter :=
              if 200 * Millisecond <? interruptAfter then 200 * Millisecond
              else interruptAfter in
            let interruptAt := Time_Add now interruptAfter in
            let w :=
              set_store w
                (<[a := set_cpuSecondsConsumed req
                          (wrap64 (cpuSecondsConsumed req + interruptAfter))]> (store w)) in
            let '(e, _) :=
              AddToSchedule (env w)
                (NewMovement "interrupt_process" interruptAt
                   ProcessesOnCpuRef RequestsProcessingRef) in
            let w := set_env w e in
            let w := set_rps w (set_cpuUsage (rps w)
                                  (cpuUsage_active (rps_cpuUsage (rps w)) now interruptAt)) in
            match ts_Add (processesOnCpu (rps w)) entity with
            | inl s => Returned (set_rps w (set_processesOnCpu (rps w) s)) None
            | inr err => Returned w (Some err)
            end
        end
    | _ => Panicked
    end
  else Returned w None.

(** [Add]. *)
Definition Add (w : World) (entity : Entity) : Outcome :=
  match entity with
  | RequestPtr a =>
      match store w !! a with
      | None => Panicked
      | Some req =>
          let now := CurrentMovementTime (env w) in
          let w :=
            match startTime req with
            | None => set_store w (<[a := set_startTime req (Some now)]> (store w))
            | Some _ => w
            end in
          match Add_enqueue_or_complete w entity a now with
          | None => Panicked
          | Some (inr (w, err)) => Returned w (Some err)
          | Some (inl w) => Add_fill_cpu w entity now
          end
      end
  | EntityPtr _ _ _ =>
      Returned w (Some "requests processing stock only supports request entities"%string)
  end.

End model.

(* ================================================================== *)
(** ** The kernel driving one replica *)
(* ================================================================== *)

Module kernel.
Import Go simulator model.

(** Modelled from the spec: the driver loop of the kernel, whose file is
    not among the sources.  Section 4.3, steps d to f: the clock advances
    to the movement's time, the entity is removed from the source stock
    and, unless that stock was empty, added to the destination stock.
    The three functions below are that step for the three movements that
    touch a processing stock. *)

(** A request arrives: a fresh pointer [a] holding [req] is added. *)
Definition arrive (w : World) (a : nat) (req : requestEntity) (now : Time) : Outcome :=
  Add (mkWorld (<[a := req]> (store w)) (at_time (env w) now) (rps w)) (RequestPtr a).

(** [interrupt_process]: from the on-CPU stock back to the processing stock. *)
Definition interrupt (w : World) (now : Time) : Outcome :=
  match ts_Remove (processesOnCpu (rps w)) with
  | (Some e, s) =>
      Add (mkWorld (store w) (at_time (env w) now) (set_processesOnCpu (rps w) s)) e
  | (None, _) => Returned (set_env w (at_time (env w) now)) None
  end.

(** [complete_request]: from the processing stock to the completion sink,
    which absorbs the entity. *)
Definition complete (w : World) (now : Time) : Outcome :=
  Returned (snd (Remove (set_env w (at_time (env w) now)))) None.

(** A request as the traffic source hands it over: nothing consumed yet,
    not started, a non-negative CPU requirement. *)
Definition new_request (req : requestEntity) : Prop :=
  cpuSecondsConsumed req = 0 ∧ startTime req = None ∧
  0 ≤ cpuSecondsRequired req ≤ maxInt64.

Inductive step (w w' : World) : Prop :=
| step_arrive a req now err :
    store w !! a = None → new_request req → TheTime (env w) ≤ now →
    arrive w a req now = Returned w' err → step w w'
| step_interrupt now err :
    TheTime (env w) ≤ now →
    interrupt w now = Returned w' err → step w w'
| step_complete now err :
    TheTime (env w) ≤ now →
    complete w now = Returned w' err → step w w'.

(** The states of a replica's processing stock that a run can reach from
    a freshly built stock. *)
Inductive reachable : World → Prop :=
| reachable_new fe replicaNumber replicaMaxRPSCapacity :
    reachable (mkWorld ∅ fe (NewRequestsProcessingStock replicaNumber replicaMaxRPSCapacity))
| reachable_step w w' : reachable w → step w w' → reachable w'.

(** A schedule of such movements, replayed from a given state.  [play]
    checks what [step] asks for and yields nothing when a check fails or
    the call panics. *)
Inductive event : Type :=
| Arrive (a : nat) (req : requestEntity) (now : Time)
| Interrupt (now : Time)
| Complete (now : Time).

Definition is_new_request (req : requestEntity) : bool :=
  (cpuSecondsConsumed req =? 0) && bool_decide (startTime req = None)
  && (0 <=? cpuSecondsRequired req) && (cpuSecondsRequired req <=? maxInt64).

Definition event_time (ev : event) : Time :=
  match ev with Arrive _ _ now | Interrupt now | Complete now => now end.

Definition play (w : World) (ev : event) : option World :=
  if TheTime (env w) <=? event_time ev then
    match ev with
    | Arrive a req now =>
        if bool_decide (store w !! a = None) && is_new_request req then
          match arrive w a req now with Returned w' _ => Some w' | Panicked => None end
        else None
    | Interrupt now =>
        match interrupt w now with Returned w' _ => Some w' | Panicked => None end
    | Complete now =>
        match complete w now with Returned w' _ => Some w' | Panicked => None end
    end
  else None.

Fixpoint run (w : World) (evs : list event) : option World :=
  match evs with
  | [] => Some w
  | ev :: evs => w' ← play w ev; run w' evs
  end.

End kernel.

(* ================================================================== *)
(** ** package model: autoscaler_ticktock.go *)
(* ================================================================== *)

Module ticktock.
Import Go simulator model.

(** The two fields of [replicaEntity] that the tick reads
    ([replica_entity.go] is not among the sources). *)
Record replicaEntity : Type := mkReplicaEntity {
  occupiedCPUCapacityMillisPerSecond : float;
  totalCPUCapacityMillisPerSecond : float
}.

(** Modelled from the spec: the cluster model (section 4.5), as far as the
    tick reads it: the Desired stock, whose count is the autoscaler's
    setpoint, and the replicas held by the Active stock. *)
Record ClusterModel : Type := mkClusterModel {
  cm_Desired : ThroughStock;
  cm_ActiveStock : list replicaEntity
}.

(** The stock's own fields; [env] and [cluster] are references to objects
    shared with the rest of the simulation and live in [TickWorld]. *)
Record autoscalerTicktockStock : Type := mkAutoscalerTicktockStock {
  autoscalerEntity : Entity;
  desiredSource : ThroughStock;
  desiredSink : ThroughStock
}.

Definition NewAutoscalerTicktockStock (scalerEntity : Entity) : autoscalerTicktockStock :=
  mkAutoscalerTicktockStock scalerEntity
    (NewThroughStock "DesiredSource" "Desired")
    (NewThroughStock "DesiredSink" "Desired").

Definition ticktock_Count (asts : autoscalerTicktockStock) : Z := 1.

Definition ticktock_Remove (asts : autoscalerTicktockStock) : Entity :=
  autoscalerEntity asts.

(** [calculateCPUUtilization], the loop: [countActiveReplicas] is a
    [float64] that starts at zero and grows by one per replica, so it
    holds a whole number, exact below 2^53; it is kept as that number and
    converted where it is divided. *)
Definition cpu_loop_body (acc : Z * float) (replica : replicaEntity) : Z * float :=
  let '(countActiveReplicas, totalCPUUtilization) := acc in
  (countActiveReplicas + 1,
   (totalCPUUtilization
    + occupiedCPUCapacityMillisPerSecond replica * 100
      / totalCPUCapacityMillisPerSecond replica)%float).

Definition calculateCPUUtilization (fe : FakeEnvironment) (cluster : ClusterModel)
  : FakeEnvironment :=
  let '(countActiveReplicas, totalCPUUtilization) :=
    fold_left cpu_loop_body (cm_ActiveStock cluster) (0, 0%float) in
  if 0 <? countActiveReplicas then
    AppendCPUUtilization fe
      (mkCPUUtilization
         (totalCPUUtilization / float64_of_int64 countActiveReplicas)%float
         (CurrentMovementTime fe))
  else fe.

Section collaborators.

(** The autoscaling policy behind [env.Plugin()] and the recording of the
    cluster's statistics are outside the sources: an opaque oracle
    (section 4.7).  [Scale] returns the desired replica count, an [int32],
    or an error. *)
Variable Plugin : Type.
Variable Scale : Plugin → Z → Plugin * (Z + string).
Variable RecordToAutoscaler : ClusterModel → Plugin → Time → ClusterModel * Plugin.

Record TickWorld : Type := mkTickWorld {
  t_env : FakeEnvironment;
  t_plugin : Plugin;
  t_cluster : ClusterModel;
  t_stock : autoscalerTicktockStock;
  t_allocated : nat
}.

Inductive TickOutcome : Type :=
| TickReturned (tw : TickWorld) (err : option string)
| TickPanicked (err : string).

(** The loop [for i := int32(0); i < delta; i++] with [n] rounds to go:
    [NewEntity] takes the next allocation number. *)
Fixpoint increase_loop (n : nat) (currentTime : Time) (tw : TickWorld)
  : TickWorld + TickWorld * string :=
  match n with
  | O => inl tw
  | S n =>
      let entity := EntityPtr (t_allocated tw) "Desired" "Desired" in
      let tw := mkTickWorld (t_env tw) (t_plugin tw) (t_cluster tw) (t_stock tw)
                  (S (t_allocated tw)) in
      match ts_Add (desiredSource (t_stock tw)) entity with
      | inr err => inr (tw, err)
      | inl s =>
          let stock := mkAutoscalerTicktockStock (autoscalerEntity (t_stock tw)) s
                         (desiredSink (t_stock tw)) in
          let '(fe, _) :=
            AddToSchedule (t_env tw)
              (NewMovement "increase_desired" (Time_Add currentTime (1 * Nanosecond))
                 DesiredSourceRef ClusterDesiredRef) in
          increase_loop n currentTime
            (mkTickWorld fe (t_plugin tw) (t_cluster tw) stock (t_allocated tw))
      end
  end.

(** The loop [for i := delta; i < 0; i++] with [n] rounds to go. *)
Fixpoint reduce_loop (n : nat) (currentTime : Time) (fe : FakeEnvironment)
  : FakeEnvironment :=
  match n with
  | O => fe
  | S n =>
      let '(fe, _) :=
        AddToSchedule fe
          (NewMovement "reduce_desired" (Time_Add currentTime (1 * Nanosecond))
             ClusterDesiredRef DesiredSinkRef) in
      reduce_loop n currentTime fe
  end.

(** [Add]: the tick. *)
Definition Add (tw : TickWorld) (entity : Entity) : TickOutcome :=
  if decide (autoscalerEntity (t_stock tw) ≠ entity) then
    TickReturned tw
      (Some "the entity is different from the entity given at creation time"%string)
  else
    let currentTime := CurrentMovementTime (t_env tw) in
    let '(cluster, plugin) :=
      RecordToAutoscaler (t_cluster tw) (t_plugin tw) currentTime in
    match Scale plugin (Time_UnixNano currentTime) with
    | (_, inr err) => TickPanicked err
    | (plugin, inl autoscalerDesired) =>
        let tw := mkTickWorld (t_env tw) plugin cluster (t_stock tw) (t_allocated tw) in
        let delta := wrap32 (autoscalerDesired - wrap32 (ts_Count (cm_Desired cluster))) in
        let scaled :=
          if 0 <? delta then increase_loop (Z.to_nat delta) currentTime tw
          else if delta <? 0 then
            inl (mkTickWorld (reduce_loop (Z.to_nat (- delta)) currentTime (t_env tw))
                   (t_plugin tw) (t_cluster tw) (t_stock tw) (t_allocated tw))
          else inl tw in
        match scaled with
        | inr (tw, err) => TickReturned tw (Some err)
        | inl tw =>
            TickReturned
              (mkTickWorld (calculateCPUUtilization (t_env tw) (t_cluster tw))
                 (t_plugin tw) (t_cluster tw) (t_stock tw) (t_allocated tw))
              None
        end
    end.

End collaborators.

Arguments mkTickWorld {Plugin}.
Arguments t_env {Plugin}.
Arguments t_plugin {Plugin}.
Arguments t_cluster {Plugin}.
Arguments t_stock {Plugin}.
Arguments t_allocated {Plugin}.
Arguments TickReturned {Plugin}.
Arguments TickPanicked {Plugin}.
Arguments increase_loop {Plugin}.
Arguments Add {Plugin}.

(** [fakes.go]: the plugin of the tests answers [scaleTo] and keeps the
    times it was asked at and the stats it was given. *)
Record FakePluginPartition : Type := mkFakePluginPartition {
  scaleTimes : list Z;
  scaleTo : Z
}.

Definition Fake_Scale (fp : FakePluginPartition) (time : Z)
  : FakePluginPartition * (Z + string) :=
  (mkFakePluginPartition (scaleTimes fp ++ [time]) (scaleTo fp), inl (scaleTo fp)).

(** A cluster whose recording leaves it as it is. *)
Definition Fake_RecordToAutoscaler (c : ClusterModel) (fp : FakePluginPartition)
  (now : Time) : ClusterModel * FakePluginPartition := (c, fp).

(** The mean, over the replicas, of the CPU utilization in percent. *)
Definition mean_percent (replicas : list replicaEntity) : float :=
  (fold_left PrimFloat.add
     (map (λ r, (occupiedCPUCapacityMillisPerSecond r * 100
                 / totalCPUCapacityMillisPerSecond r)%float) replicas)
     0%float
   / float64_of_int64 (Z.of_nat (length replicas)))%float.

(** The mean, over the replicas, of occupied over total capacity. *)
Definition mean_fraction (replicas : list replicaEntity) : float :=
  (fold_left PrimFloat.add
     (map (λ r, (occupiedCPUCapacityMillisPerSecond r
                 / totalCPUCapacityMillisPerSecond r)%float) replicas)
     0%float
   / float64_of_int64 (Z.of_nat (length replicas)))%float.

(** A tick at t = 2s + 1ns with the fake plugin answering [scaleTo], over a
    cluster with [desired] entities in Desired and [replicas] active. *)
Definition tick_world (scaleTo : Z) (desired : list Entity) (replicas : list replicaEntity)
  : TickWorld FakePluginPartition :=
  mkTickWorld
    (at_time NewFakeEnvironment (2 * Second + 1))
    (mkFakePluginPartition [] scaleTo)
    (mkClusterModel (mkThroughStock "ReplicasDesired" "Desired" desired) replicas)
    (NewAutoscalerTicktockStock (EntityPtr 0 "Autoscaler" "HPAAutoscaler"))
    (1 + length desired).

Definition fake_tick (tw : TickWorld FakePluginPartition)
  : TickOutcome FakePluginPartition :=
  Add Fake_Scale Fake_RecordToAutoscaler tw (autoscalerEntity (t_stock tw)).

Definition samples_of (o : TickOutcome FakePluginPartition) : list float :=
  match o with
  | TickReturned tw _ => map cu_CPUUtilization (TheCPUUtilizations (t_env tw))
  | TickPanicked _ => []
  end.

Definition half_busy : replicaEntity := mkReplicaEntity 50 100.

End ticktock.

(* ================================================================== *)
(** ** k8s.io/client-go/tools/cache: the keyed heap *)
(* ================================================================== *)

Module cache.

(** The movement queue is a thin wrapper around [cache.Heap] of the
    Kubernetes client library, itself built on [container/heap].  The
    library is not part of the repository; the definitions below follow
    its [heap.go]: items by key, a queue of keys kept in heap order by
    sifting, and a closed flag.  The position each item caches of its key
    in the queue is left out: it is always the index of the key. *)

Section heap.
Context {A : Type}.
Variable keyFunc : A → string * option string.
Variable lessFunc : A → A → bool.

Record heapData : Type := mkHeapData {
  items : gmap string A;
  queue : list string
}.

Record Heap : Type := mkHeap {
  data : heapData;
  closed : bool
}.

Definition NewHeap : Heap := mkHeap (mkHeapData ∅ []) false.

(** [heapData.Less], [Swap], [Push], [Pop]: the [heap.Interface]. *)
Definition Less (h : heapData) (i j : nat) : bool :=
  match queue h !! i, queue h !! j with
  | Some ki, Some kj =>
      match items h !! ki, items h !! kj with
      | Some itemi, Some itemj => lessFunc itemi itemj
      | _, _ => false
      end
  | _, _ => false
  end.

Definition Swap (h : heapData) (i j : nat) : heapData :=
  match queue h !! i, queue h !! j with
  | Some ki, Some kj => mkHeapData (items h) (<[j := ki]> (<[i := kj]> (queue h)))
  | _, _ => h
  end.

Definition data_Push (h : heapData) (key : string) (obj : A) : heapData :=
  mkHeapData (<[key := obj]> (items h)) (queue h ++ [key]).

Definition data_Pop (h : heapData) : option A * heapData :=
  match last (queue h) with
  | None => (None, h)
  | Some key =>
      let q := take (length (queue h) - 1) (queue h) in
      match items h !! key with
      | None => (None, mkHeapData (items h) q)
      | Some obj => (Some obj, mkHeapData (delete key (items h)) q)
      end
  end.

(** [container/heap]: [up] and [down].  Each round of [up] moves to the
    parent and each round of [down] to a child, so [fuel] above the index
    (for [up]) or the bound (for [down]) is never used up. *)
Fixpoint up (fuel : nat) (h : heapData) (j : nat) : heapData :=
  match fuel with
  | O => h
  | S fuel =>
      let i := ((j - 1) / 2)%nat in
      if (i =? j)%nat || negb (Less h j i) then h
      else up fuel (Swap h i j) i
  end.

Fixpoint down (fuel : nat) (h : heapData) (i n : nat) : heapData * nat :=
  match fuel with
  | O => (h, i)
  | S fuel =>
      let j1 := (2 * i + 1)%nat in
      if (n <=? j1)%nat then (h, i)
      else
        let j := if (j1 + 1 <? n)%nat && Less h (j1 + 1) j1 then (j1 + 1)%nat else j1 in
        if negb (Less h j i) then (h, i)
        else down fuel (Swap h i j) j n
  end.

Definition heap_Push (h : heapData) (key : string) (obj : A) : heapData :=
  let h := data_Push h key obj in
  up (length (queue h)) h (length (queue h) - 1).

Definition heap_Pop (h : heapData) : option A * heapData :=
  let n := (length (queue h) - 1)%nat in
  let h := Swap h 0 n in
  let '(h, _) := down (S n) h 0 n in
  data_Pop h.

Definition heap_Fix (h : heapData) (i : nat) : heapData :=
  let '(h', i') := down (S (length (queue h))) h i (length (queue h)) in
  if (i <? i')%nat then h' else up (S i) h' i.

(** [Heap.Add]: refuses a closed heap; updates an item whose key is
    present and restores the order around it; pushes a new one. *)
Definition Add (h : Heap) (obj : A) : Heap * option string :=
  match keyFunc obj with
  | (_, Some err) => (h, Some err)
  | (key, None) =>
      if closed h then (h, Some "heap is closed"%string)
      else
        match items (data h) !! key with
        | Some _ =>
            let d := mkHeapData (<[key := obj]> (items (data h))) (queue (data h)) in
            let index := default O (fst <$> list_find (λ k, k = key) (queue d)) in
            (mkHeap (heap_Fix d index) (closed h), None)
        | None => (mkHeap (heap_Push (data h) key obj) (closed h), None)
        end
  end.

(** [Heap.GetByKey]: the item, whether it exists, and no error. *)
Definition GetByKey (h : Heap) (key : string) : option A * bool * option string :=
  match items (data h) !! key with
  | Some obj => (Some obj, true, None)
  | None => (None, false, None)
  end.

(** [Heap.Pop]: on an empty queue it fails if the heap is closed and
    otherwise waits for an [Add] or a [Close]. *)
Inductive Popped : Type :=
| PopItem (obj : A) (h : Heap)
| PopError (err : string)
| PopWaits.

Definition Pop (h : Heap) : Popped :=
  match queue (data h) with
  | [] => if closed h then PopError "heap is closed" else PopWaits
  | _ :: _ =>
      match heap_Pop (data h) with
      | (None, _) => PopError "object was removed from heap data"
      | (Some obj, d) => PopItem obj (mkHeap d (closed h))
      end
  end.

Definition Close (h : Heap) : Heap := mkHeap (data h) true.

Definition IsClosed (h : Heap) : bool := closed h.

End heap.

Arguments heapData : clear implicits.
Arguments Heap : clear implicits.
Arguments Popped : clear implicits.

End cache.

(* ================================================================== *)
(** ** package newsimulator: movement_pq.go *)
(* ================================================================== *)

Module newsimulator.
Import Go simulator.

Definition occursAtToKey (movement : Movement) : string * option string :=
  (FormatInt10 (Time_UnixNano (mv_OccursAt movement)), None).

Definition leftMovementIsEarlier (left right : Movement) : bool :=
  Time_Before (mv_OccursAt left) (mv_OccursAt right).

Record movementPQ : Type := mkMovementPQ {
  heap : cache.Heap Movement
}.

Definition NewMovementPriorityQueue : movementPQ :=
  mkMovementPQ cache.NewHeap.

Definition EnqueueMovement (mpq : movementPQ) (movement : Movement)
  : movementPQ * option string :=
  match occursAtToKey movement with
  | (_, Some err) =>
      (mpq, Some ("could not create a heap key for Movement: " +:+ err))
  | (key, None) =>
      match cache.GetByKey (heap mpq) key with
      | (_, _, Some err) => (mpq, Some err)
      | (_, true, None) =>
          (mpq,
           Some "could not add Movement, there is already another movement scheduled at that time"%string)
      | (_, false, None) =>
          let '(h, err) := cache.Add occursAtToKey leftMovementIsEarlier (heap mpq) movement in
          (mkMovementPQ h, err)
      end
  end.

(** [DequeueMovement]: the next movement, an error, or closed; on an open
    empty queue the call does not return. *)
Inductive Dequeued : Type :=
| DequeuedMovement (movement : Movement) (mpq : movementPQ)
| DequeueError (err : string)
| DequeueClosed
| DequeueWaits.

Definition DequeueMovement (mpq : movementPQ) : Dequeued :=
  match cache.Pop leftMovementIsEarlier (heap mpq) with
  | cache.PopItem n h => DequeuedMovement n (mkMovementPQ h)
  | cache.PopError err =>
      if strings_Contains err "heap is closed" then DequeueClosed
      else DequeueError err
  | cache.PopWaits => DequeueWaits
  end.

Definition Close (mpq : movementPQ) : movementPQ :=
  mkMovementPQ (cache.Close (heap mpq)).

Definition IsClosed (mpq : movementPQ) : bool := cache.IsClosed (heap mpq).

(** The movements waiting in the queue, in queue order. *)
Definition pending (mpq : movementPQ) : list Movement :=
  omap (λ key, cache.items (cache.data (heap mpq)) !! key)
    (cache.queue (cache.data (heap mpq))).

End newsimulator.

(* ================================================================== *)
(** ** The processing stock, in the words of the specification *)
(* ================================================================== *)

Module processing_spec.
Import Go simulator model kernel.

(** The quantum of a request, in the words of the specification. *)
Definition quantum (req : requestEntity) : Duration :=
  Z.min (cpuSecondsRemaining req) (200 * Millisecond).

(** The record after the scheduler has charged one quantum to it. *)
Definition charged (req : requestEntity) : requestEntity :=
  set_cpuSecondsConsumed req (wrap64 (cpuSecondsConsumed req + quantum req)).

(** The CPU budget of one request record. *)
Definition within_budget (req : requestEntity) : Prop :=
  0 ≤ cpuSecondsConsumed req ∧
  cpuSecondsConsumed req ≤ cpuSecondsRequired req ∧
  cpuSecondsRequired req ≤ maxInt64.

Definition store_within_budget (st : gmap nat requestEntity) : Prop :=
  ∀ a req, st !! a = Some req → within_budget req.

(** The state after the first statements of [Add] on the request pointer
    [a]: the start time is set if it was not. *)
Definition started (w : World) (a : nat) : World :=
  match store w !! a with
  | Some req =>
      match startTime req with
      | None =>
          set_store w (<[a := set_startTime req (Some (CurrentMovementTime (env w)))]> (store w))
      | Some _ => w
      end
  | None => w
  end.

(** A sub-stock of the processing stock holds pointers to allocated
    request records, and stocks the kind "Request". *)
Definition holds_requests (st : gmap nat requestEntity) (s : ThroughStock) : Prop :=
  ts_kind s = "Request"%string ∧
  ∀ e, e ∈ ts_entities s → ∃ a, e = RequestPtr a ∧ is_Some (st !! a).

Definition sound (w : World) : Prop :=
  holds_requests (store w) (processesActive (rps w)) ∧
  holds_requests (store w) (processesOnCpu (rps w)) ∧
  holds_requests (store w) (processesTerminated (rps w)).

End processing_spec.

(* ================================================================== *)
(** ** Runs used as examples *)
(* ================================================================== *)

Module runs.
Import Go simulator model kernel.

(** A replica fresh from [NewRequestsProcessingStock], clock at zero. *)
Definition idle : World :=
  mkWorld ∅ NewFakeEnvironment (NewRequestsProcessingStock 1 100).

Definition after (evs : list event) : World := default idle (run idle evs).

(** The record [NewRequestEntity] makes when the counter stands at [n - 1]:
    100ms of CPU required. *)
Definition request (n : Z) : requestEntity := snd (NewRequestEntity (n - 1)).

(** Request 1 arrives at t = 0 and goes straight onto the CPU. *)
Definition first_arrived : World := after [Arrive 1 (request 1) 0].

(** Request 2 is about to be added at t = 50ms: the pointer is allocated
    and the clock advanced, as [arrive] does before it calls [Add]. *)
Definition second_arriving : World :=
  mkWorld (<[2%nat := request 2]> (store first_arrived))
    (at_time (env first_arrived) (50 * Millisecond)) (rps first_arrived).

(** Request 2 has arrived at t = 50ms and waits in [active]. *)
Definition second_arrived : World :=
  after [Arrive 1 (request 1) 0; Arrive 2 (request 2) (50 * Millisecond)].

(** The interrupt of request 1 has fired at t = 100ms, as scheduled. *)
Definition first_interrupted : World :=
  after [Arrive 1 (request 1) 0; Arrive 2 (request 2) (50 * Millisecond);
         Interrupt (100 * Millisecond)].

(** Request 1 alone: after its only interrupt, at t = 100ms, it waits in
    [terminated] for the completion movement. *)
Definition alone_finished : World :=
  after [Arrive 1 (request 1) 0; Interrupt (100 * Millisecond)].

(** One request of 16s of CPU, interrupted every 200ms as scheduled, up to
    and including the interrupt at t = 15s. *)
Definition long_request : requestEntity :=
  mkRequestEntity 1 (100 * Millisecond) 0 (16 * Second) 0 None.

Definition busy_schedule : list event :=
  Arrive 1 long_request 0
  :: map (λ k : nat, Interrupt (Z.of_nat k * (200 * Millisecond))) (seq 1 75).

Definition busy : World := after busy_schedule.

Definition in_stock (a : nat) (s : ThroughStock) : bool :=
  bool_decide (RequestPtr a ∈ ts_entities s).

(** Every entity the processing stock holds in a sub-stock. *)
Definition entities_held (r : requestsProcessingStock) : list Entity :=
  ts_entities (processesActive r) ++ ts_entities (processesOnCpu r)
  ++ ts_entities (processesTerminated r).

(** The log of a CPU that served [long_request] without a pause. *)
Definition busy_log : cpuUsage := rps_cpuUsage (rps busy).

End runs.

(* ================================================================== *)
(** ** The sliding window, in the words of the specification *)
(* ================================================================== *)

Module window_spec.
Import Go simulator model.

(** What [trim] keeps: the slices that do not end before the cut-off, a
    slice that straddles it starting at the cut-off instead. *)
Definition clamp_start (cutoff : Time) (t : Time * Time) : Time * Time :=
  if decide (fst t < cutoff) then (cutoff, snd t) else t.

Definition remaining_slices (cutoff : Time) (slices : list (Time * Time))
  : list (Time * Time) :=
  map (clamp_start cutoff) (filter (λ t, ¬ snd t < cutoff) slices).

(** The sum of [end - start] over the slices. *)
Definition total_length (slices : list (Time * Time)) : Z :=
  foldr (λ t acc, (snd t - fst t) + acc) 0 slices.

(** Slices that follow one another without overlap, none starting before
    [lo]: what a CPU that runs one quantum at a time logs. *)
Fixpoint consecutive (lo : Time) (slices : list (Time * Time)) : bool :=
  match slices with
  | [] => true
  | t :: rest => (lo <=? fst t) && (fst t <=? snd t) && consecutive (snd t) rest
  end.

Definition end_by (hi : Time) (slices : list (Time * Time)) : bool :=
  forallb (λ t, snd t <=? hi) slices.

End window_spec.

(* ================================================================== *)
(** ** The autoscaler tick, in the words of the specification *)
(* ================================================================== *)

Module ticktock_spec.
Import Go simulator model ticktock.

(** The movements a tick schedules. *)
Definition increase_desired (now : Time) : Movement :=
  NewMovement "increase_desired" (Time_Add now (1 * Nanosecond))
    DesiredSourceRef ClusterDesiredRef.

Definition reduce_desired (now : Time) : Movement :=
  NewMovement "reduce_desired" (Time_Add now (1 * Nanosecond))
    ClusterDesiredRef DesiredSinkRef.

(** The entities [NewEntity("Desired", "Desired")] makes in [n] calls when
    [from] entities have been allocated before. *)
Definition fresh_desired (from n : nat) : list Entity :=
  map (λ i, EntityPtr i "Desired" "Desired") (seq from n).

End ticktock_spec.

(* ================================================================== *)
(** ** The movement queue, in the words of the specification *)
(* ================================================================== *)

Module queue_spec.
Import Go simulator cache newsimulator.

Definition key_of (movement : Movement) : string := fst (occursAtToKey movement).

(** The movement at a position of the queue. *)
Definition at_index (d : heapData Movement) (j : nat) : option Movement :=
  queue d !! j ≫= λ key, items d !! key.

(** What the library maintains: the queue lists each key once, the keys
    listed are the keys of the items, and every item sits under its own
    key. *)
Definition well_formed (d : heapData Movement) : Prop :=
  NoDup (queue d) ∧
  (∀ key, key ∈ queue d ↔ is_Some (items d !! key)) ∧
  (∀ key movement, items d !! key = Some movement → key_of movement = key).

(** Every key of the queue has its item. *)
Definition all_present (d : heapData Movement) : Prop :=
  ∀ key, key ∈ queue d → is_Some (items d !! key).

(** A min-heap ordered by [OccursAt]: no movement occurs before the one at
    its parent position. *)
Definition heap_ordered (d : heapData Movement) : Prop :=
  ∀ j mj mp, (0 < j)%nat →
    at_index d j = Some mj → at_index d ((j - 1) / 2) = Some mp →
    mv_OccursAt mp ≤ mv_OccursAt mj.

(** The same, with the position [j] still to be sifted up: its own parent
    is not compared, its children are compared with its parent. *)
Definition ordered_except (d : heapData Movement) (j : nat) : Prop :=
  (∀ k mk mp, (0 < k)%nat → k ≠ j →
     at_index d k = Some mk → at_index d ((k - 1) / 2) = Some mp →
     mv_OccursAt mp ≤ mv_OccursAt mk) ∧
  (∀ k mk mg, (0 < j)%nat → (0 < k)%nat → ((k - 1) / 2)%nat = j →
     at_index d k = Some mk → at_index d ((j - 1) / 2) = Some mg →
     mv_OccursAt mg ≤ mv_OccursAt mk).

(** The heap order among the first [n] positions, and the same with the
    children of position [i] still to be compared with it. *)
Definition heap_ordered_below (d : heapData Movement) (n : nat) : Prop :=
  ∀ k mk mp, (0 < k)%nat → (k < n)%nat →
    at_index d k = Some mk → at_index d ((k - 1) / 2) = Some mp →
    mv_OccursAt mp ≤ mv_OccursAt mk.

Definition ordered_below (d : heapData Movement) (n i : nat) : Prop :=
  (∀ k mk mp, (0 < k)%nat → (k < n)%nat → ((k - 1) / 2)%nat ≠ i →
     at_index d k = Some mk → at_index d ((k - 1) / 2) = Some mp →
     mv_OccursAt mp ≤ mv_OccursAt mk) ∧
  (∀ k mk mg, (0 < i)%nat → (0 < k)%nat → (k < n)%nat → ((k - 1) / 2)%nat = i →
     at_index d k = Some mk → at_index d ((i - 1) / 2) = Some mg →
     mv_OccursAt mg ≤ mv_OccursAt mk).

(** A movement at instant [t], between two stocks of no importance. *)
Definition movement_at (t : Time) : Movement :=
  NewMovement "arrive_at_routing_stock" t (OtherStockRef "TrafficSource")
    (OtherStockRef "RequestsRouting").

(** The queue after enqueuing movements at the given instants, in turn. *)
Fixpoint enqueued (ts : list Time) (mpq : movementPQ) : movementPQ :=
  match ts with
  | [] => mpq
  | t :: ts => enqueued ts (fst (EnqueueMovement mpq (movement_at t)))
  end.

(** The queue states a run can produce. *)
Inductive queue_reachable : movementPQ → Prop :=
| reachable_queue_new : queue_reachable NewMovementPriorityQueue
| reachable_enqueue mpq movement mpq' err :
    queue_reachable mpq → EnqueueMovement mpq movement = (mpq', err) →
    queue_reachable mpq'
| reachable_dequeue mpq movement mpq' :
    queue_reachable mpq → DequeueMovement mpq = DequeuedMovement movement mpq' →
    queue_reachable mpq'
| reachable_close mpq : queue_reachable mpq → queue_reachable (Close mpq).

(** Another pending movement occurs at the same nanosecond. *)
Definition same_nanosecond_pending (mpq : movementPQ) (movement : Movement) : Prop :=
  ∃ other, other ∈ pending mpq ∧
    Time_UnixNano (mv_OccursAt other) = Time_UnixNano (mv_OccursAt movement).

End queue_spec.

(* ================================================================== *)
(** ** package model: the rest of the request entity and of the stock *)
(* ================================================================== *)

Module model_rest.
Import Go simulator model.

(** [int64(f)] of a [float64]: the fraction is discarded.  What Go yields
    for a value outside [int64], an infinity or a NaN depends on the
    machine; the least [int64], as on amd64, stands for it. *)
Definition int64_of_float64 (f : float) : Z :=
  match Prim2SF f with
  | S754_zero _ => 0
  | S754_finite s m e =>
      let v := if 0 <=? e then Z.pos m * 2 ^ e else Z.pos m / 2 ^ (- e) in
      let v := if s then - v else v in
      if (minInt64 <=? v) && (v <=? maxInt64) then v else minInt64
  | _ => minInt64
  end.

(** [requestEntity.Name]: [fmt.Sprintf("request-%d", re.number)]. *)
Definition requestEntity_Name (re : requestEntity) : EntityName :=
  "request-" +:+ FormatInt10 (number re).

Definition requestEntity_Kind (re : requestEntity) : EntityKind := "Request".

Section backoff.

(** The constant [backoffMultiplier] is declared outside the sources. *)
Variable backoffMultiplier : float.

(** [requestEntity.NextBackoff]: the backoff to wait and whether the
    request is out of attempts, with the record as the call leaves it. *)
Definition NextBackoff (re : requestEntity) : requestEntity * (Duration * bool) :=
  if attempts re <? 18 then
    let attempts' := wrap64 (attempts re + 1) in
    let thisBackoff := nextBackoff re in
    let nextBackoff' :=
      int64_of_float64 (float64_of_int64 (nextBackoff re) * backoffMultiplier)%float in
    (mkRequestEntity (number re) nextBackoff' attempts' (cpuSecondsRequired re)
       (cpuSecondsConsumed re) (startTime re),
     (thisBackoff, false))
  else (re, (nextBackoff re, true)).

(** The record after [n] calls of [NextBackoff]. *)
Fixpoint backed_off (n : nat) (re : requestEntity) : requestEntity :=
  match n with
  | O => re
  | S n => backed_off n (fst (NextBackoff re))
  end.

End backoff.

(** [requestsProcessingStock.Name]:
    [fmt.Sprintf("%s [%d]", rps.processesActive.Name(), rps.replicaNumber)]. *)
Definition Name (rps : requestsProcessingStock) : StockName :=
  ts_name (processesActive rps) +:+ " [" +:+ FormatInt10 (replicaNumber rps) +:+ "]".

End model_rest.

(* ================================================================== *)
(** ** Notions for the further properties *)
(* ================================================================== *)

Module further_spec.
Import Go simulator model kernel cache newsimulator.

(** The record of a request after [Add] has looked at the entity: the
    start time is set if the request is the one added and had none. *)
Definition admitted (now : Time) (entity : Entity) (b : nat) (rb : requestEntity)
  : requestEntity :=
  if decide (entity = RequestPtr b ∧ startTime rb = None)
  then set_startTime rb (Some now) else rb.

(** The movements [Add] hands to the environment at instant [now]. *)
Definition complete_request_at (now : Time) : Movement :=
  NewMovement "complete_request" (Time_Add now Nanosecond)
    RequestsProcessingRef RequestsCompleteRef.

Definition interrupt_process_at (t : Time) : Movement :=
  NewMovement "interrupt_process" t ProcessesOnCpuRef RequestsProcessingRef.

(** A slice of the usage log as the scheduler writes it: not negative, at
    most one quantum long, begun no later than [now]. *)
Definition quantum_slice (now : Time) (t : Time * Time) : Prop :=
  fst t ≤ snd t ∧ snd t ≤ fst t + 200 * Millisecond ∧ fst t ≤ now.

(** The fields of the stock and of the environment [Add] never writes. *)
Definition same_fields (w w' : World) : Prop :=
  TheTime (env w') = TheTime (env w) ∧
  TheCPUUtilizations (env w') = TheCPUUtilizations (env w) ∧
  replicaNumber (rps w') = replicaNumber (rps w) ∧
  numRequestsSinceLast (rps w') = numRequestsSinceLast (rps w) ∧
  replicaMaxRPSCapacity (rps w') = replicaMaxRPSCapacity (rps w) ∧
  ts_name (processesActive (rps w')) = ts_name (processesActive (rps w)) ∧
  window (rps_cpuUsage (rps w')) = window (rps_cpuUsage (rps w)).

(** A request record whose start time is set, to an instant not after
    [now]. *)
Definition start_recorded (now : Time) (rb : requestEntity) : Prop :=
  ∃ t, startTime rb = Some t ∧ t ≤ now.

(** What a movement may do to a request record: charge it at most one
    quantum, and set a start time that was not set. *)
Definition advanced (rb rb' : requestEntity) : Prop :=
  number rb' = number rb ∧ nextBackoff rb' = nextBackoff rb ∧
  attempts rb' = attempts rb ∧
  cpuSecondsRequired rb' = cpuSecondsRequired rb ∧
  cpuSecondsConsumed rb ≤ cpuSecondsConsumed rb' ≤ cpuSecondsConsumed rb + 200 * Millisecond ∧
  (∀ t, startTime rb = Some t → startTime rb' = Some t).

(** The usage log as the scheduler writes it: quantum slices, begun in
    the order in which they are listed. *)
Definition log_in_order (now : Time) (slices : list (Time * Time)) : Prop :=
  Forall (quantum_slice now) slices ∧ StronglySorted Z.le (slices.*1).

(** An entity that is a request with nothing left to compute. *)
Definition finished (st : gmap nat requestEntity) (e : Entity) : Prop :=
  ∃ a req, e = RequestPtr a ∧ st !! a = Some req ∧
           cpuSecondsConsumed req = cpuSecondsRequired req.

(** Handing movements to the queue one after the other, as they were
    scheduled; the queue's answers are dropped. *)
Fixpoint enqueue_all (ms : list Movement) (mpq : movementPQ) : movementPQ :=
  match ms with
  | [] => mpq
  | movement :: ms => enqueue_all ms (fst (EnqueueMovement mpq movement))
  end.

(** Dequeuing [n] times, as the driver loop does, for as long as the
    queue yields a movement. *)
Fixpoint drain (n : nat) (mpq : movementPQ) : list Movement :=
  match n with
  | O => []
  | S n =>
      match DequeueMovement mpq with
      | DequeuedMovement movement mpq' => movement :: drain n mpq'
      | _ => []
      end
  end.

End further_spec.

(* ================================================================== *)
(** ** Facts about the processing stock *)
(* ================================================================== *)

Module processing_facts.
Import Go simulator model kernel processing_spec.

Lemma wrap64_small z : minInt64 ≤ z ≤ maxInt64 → wrap64 z = z.
Proof.
  unfold wrap64, minInt64, maxInt64. intros Hz.
  rewrite Z.mod_small; lia.
Qed.

Lemma quantum_code req :
  (if 200 * Millisecond <? cpuSecondsRemaining req then 200 * Millisecond
   else cpuSecondsRemaining req) = quantum req.
Proof. unfold quantum. case_match; lia. Qed.

Lemma remaining_exact req :
  within_budget req →
  cpuSecondsRemaining req = cpuSecondsRequired req - cpuSecondsConsumed req.
Proof.
  intros (H0 & H1 & H2). unfold cpuSecondsRemaining.
  apply wrap64_small. unfold minInt64, maxInt64 in *. lia.
Qed.

Lemma charged_consumed req :
  within_budget req →
  cpuSecondsConsumed (charged req) = cpuSecondsConsumed req + quantum req.
Proof.
  intros Hb. pose proof (remaining_exact _ Hb) as Hr.
  destruct Hb as (H0 & H1 & H2). unfold charged, quantum. simpl.
  apply wrap64_small. rewrite Hr. unfold minInt64, maxInt64, Millisecond in *. lia.
Qed.

Lemma charged_within_budget req : within_budget req → within_budget (charged req).
Proof.
  intros Hb. pose proof (charged_consumed _ Hb) as Hc.
  pose proof (remaining_exact _ Hb) as Hr.
  destruct Hb as (H0 & H1 & H2). unfold within_budget.
  rewrite Hc. unfold quantum. rewrite Hr. simpl.
  unfold Millisecond. lia.
Qed.

Lemma started_within_budget req t :
  within_budget req → within_budget (set_startTime req t).
Proof. done. Qed.

Lemma store_within_budget_insert st a req :
  store_within_budget st → within_budget req →
  store_within_budget (<[a := req]> st).
Proof.
  intros Hst Hreq b r. rewrite lookup_insert.
  case_decide; [naive_solver | apply Hst].
Qed.

(** *** What the two blocks of [Add] do *)

Lemma ts_Count_0 s : ts_Count s = 0 ↔ ts_entities s = [].
Proof.
  unfold ts_Count. destruct (ts_entities s); simpl; split; intros; try done; lia.
Qed.

Lemma enqueue_or_complete_frame w entity a now r :
  Add_enqueue_or_complete w entity a now = Some r →
  let w1 := match r with inl w1 => w1 | inr (w1, _) => w1 end in
  store w1 = store w ∧
  processesOnCpu (rps w1) = processesOnCpu (rps w) ∧
  rps_cpuUsage (rps w1) = rps_cpuUsage (rps w) ∧
  TheTime (env w1) = TheTime (env w) ∧
  ts_kind (processesActive (rps w1)) = ts_kind (processesActive (rps w)) ∧
  ts_kind (processesTerminated (rps w1)) = ts_kind (processesTerminated (rps w)).
Proof.
  unfold Add_enqueue_or_complete, ts_Add. intros H.
  destruct (store w !! a) as [req|]; simpl in H; [|done].
  repeat case_match; simplify_eq/=; done.
Qed.

(** The second block either leaves everything as it is (CPU busy, or
    nothing waiting), or pops the head of [active], charges it one quantum,
    schedules the interrupt, logs the slice and puts [entity] (the argument
    of [Add]) into the on-CPU stock. *)
Lemma fill_cpu_cases w entity now w' err :
  Add_fill_cpu w entity now = Returned w' err →
  (w' = w ∧ err = None ∧
   (ts_entities (processesOnCpu (rps w)) ≠ [] ∨ ts_entities (processesActive (rps w)) = []))
  ∨
  (∃ a req rest,
     ts_entities (processesOnCpu (rps w)) = [] ∧
     ts_entities (processesActive (rps w)) = RequestPtr a :: rest ∧
     store w !! a = Some req ∧
     store w' = <[a := charged req]> (store w) ∧
     Movements (env w') = Movements (env w) ++
       [NewMovement "interrupt_process" (Time_Add now (quantum req))
          ProcessesOnCpuRef RequestsProcessingRef] ∧
     TheTime (env w') = TheTime (env w) ∧
     ts_entities (processesActive (rps w')) = rest ∧
     ts_kind (processesActive (rps w')) = ts_kind (processesActive (rps w)) ∧
     processesTerminated (rps w') = processesTerminated (rps w) ∧
     activeTimeSlices (rps_cpuUsage (rps w')) =
       activeTimeSlices (rps_cpuUsage (rps w)) ++ [(now, Time_Add now (quantum req))] ∧
     ts_kind (processesOnCpu (rps w')) = ts_kind (processesOnCpu (rps w)) ∧
     ((err = None ∧ Entity_Kind entity = ts_kind (processesOnCpu (rps w)) ∧
       ts_entities (processesOnCpu (rps w')) = [entity])
      ∨ (err ≠ None ∧ Entity_Kind entity ≠ ts_kind (processesOnCpu (rps w)) ∧
         ts_entities (processesOnCpu (rps w')) = []))).
Proof.
  unfold Add_fill_cpu. intros H.
  destruct (ts_Count (processesOnCpu (rps w)) =? 0) eqn:Hcpu; simpl in H.
  2:{ left. simplify_eq. split_and!; try done. left.
      apply Z.eqb_neq in Hcpu. by rewrite ts_Count_0 in Hcpu. }
  apply Z.eqb_eq, ts_Count_0 in Hcpu.
  destruct (0 <? ts_Count (processesActive (rps w))) eqn:Hact; simpl in H.
  2:{ left. simplify_eq. split_and!; try done. right.
      apply Z.ltb_ge in Hact. apply ts_Count_0. unfold ts_Count in *. lia. }
  right. unfold ts_Remove in H.
  destruct (ts_entities (processesActive (rps w))) as [|[|a] rest] eqn:Hq;
    simpl in H; try done.
  destruct (store w !! a) as [req|] eqn:Hreq; simpl in H; [|done].
  rewrite quantum_code in H. fold (charged req) in H.
  exists a, req, rest. unfold ts_Add in H. simpl in H.
  case_decide; simplify_eq/=; rewrite ?Hcpu; split_and!; try done.
  - left. done.
  - right. done.
Qed.

Lemma Add_blocks w a req :
  store w !! a = Some req →
  Add w (RequestPtr a) =
    match Add_enqueue_or_complete (started w a) (RequestPtr a) a (TheTime (env w)) with
    | None => Panicked
    | Some (inr (w1, err)) => Returned w1 (Some err)
    | Some (inl w1) => Add_fill_cpu w1 (RequestPtr a) (TheTime (env w))
    end.
Proof. intros H. unfold Add, started. rewrite H. done. Qed.

Lemma started_frame w a :
  env (started w a) = env w ∧ rps (started w a) = rps w.
Proof. unfold started. repeat case_match; done. Qed.

Lemma started_lookup w a req :
  store w !! a = Some req →
  ∃ req', store (started w a) !! a = Some req' ∧
          cpuSecondsRequired req' = cpuSecondsRequired req ∧
          cpuSecondsConsumed req' = cpuSecondsConsumed req.
Proof.
  intros H. unfold started. rewrite H.
  destruct (startTime req); simpl; [eauto|].
  rewrite lookup_insert_eq. eauto.
Qed.

Lemma started_within_budget_store w a :
  store_within_budget (store w) → store_within_budget (store (started w a)).
Proof.
  intros Hst. unfold started.
  destruct (store w !! a) as [req|] eqn:Hreq; [|done].
  destruct (startTime req); [done|]. simpl.
  apply store_within_budget_insert; [done|].
  apply started_within_budget. eauto.
Qed.

(** *** Invariants of [Add] *)

Lemma Add_within_budget w entity w' err :
  store_within_budget (store w) → Add w entity = Returned w' err →
  store_within_budget (store w').
Proof.
  intros Hst HAdd. destruct entity as [id n k|a]; [simpl in HAdd; by simplify_eq|].
  destruct (store w !! a) as [req|] eqn:Hreq; [|by unfold Add in HAdd; rewrite Hreq in HAdd].
  rewrite (Add_blocks _ _ _ Hreq) in HAdd.
  pose proof (started_within_budget_store w a Hst) as Hst1.
  destruct (Add_enqueue_or_complete _ _ _ _) as [[w1|[w1 e1]]|] eqn:Hblock; [| |done].
  - apply enqueue_or_complete_frame in Hblock as (Hs & _). simpl in Hs.
    apply fill_cpu_cases in HAdd as [(-> & _)|(b & rb & rest & _ & _ & Hb & -> & _)].
    + by rewrite Hs.
    + rewrite Hs in *. apply store_within_budget_insert; [done|].
      apply charged_within_budget. eauto.
  - apply enqueue_or_complete_frame in Hblock as (Hs & _). simpl in Hs.
    simplify_eq. by rewrite Hs.
Qed.

Lemma Add_cpu_singleton w entity w' err :
  (length (ts_entities (processesOnCpu (rps w))) ≤ 1)%nat →
  Add w entity = Returned w' err →
  (length (ts_entities (processesOnCpu (rps w'))) ≤ 1)%nat.
Proof.
  intros Hcpu HAdd. destruct entity as [id n k|a]; [simpl in HAdd; by simplify_eq|].
  destruct (store w !! a) as [req|] eqn:Hreq; [|by unfold Add in HAdd; rewrite Hreq in HAdd].
  rewrite (Add_blocks _ _ _ Hreq) in HAdd.
  destruct (started_frame w a) as [_ Hrps].
  destruct (Add_enqueue_or_complete _ _ _ _) as [[w1|[w1 e1]]|] eqn:Hblock; [| |done].
  - apply enqueue_or_complete_frame in Hblock as (_ & Hc & _). simpl in Hc.
    rewrite Hrps in Hc.
    apply fill_cpu_cases in HAdd
      as [(-> & _)|(b & rb & rest & _ & _ & _ & _ & _ & _ & _ & _ & _ & _ & _ & Hend)].
    + by rewrite Hc.
    + destruct Hend as [(_ & _ & ->)|(_ & _ & ->)]; simpl; lia.
  - apply enqueue_or_complete_frame in Hblock as (_ & Hc & _). simpl in Hc.
    simplify_eq. by rewrite Hc, Hrps.
Qed.

(** *** Invariants of the kernel steps *)

Lemma new_request_within_budget req : new_request req → within_budget req.
Proof. intros (H0 & _ & H1 & H2). unfold within_budget. lia. Qed.

Lemma step_within_budget w w' :
  store_within_budget (store w) → step w w' → store_within_budget (store w').
Proof.
  intros Hst [a req now err Hfresh Hnew _ Harr|now err _ Hint|now err _ Hcomp].
  - eapply Add_within_budget; [|exact Harr]. simpl.
    apply store_within_budget_insert; [done|]. by apply new_request_within_budget.
  - unfold interrupt in Hint.
    destruct (ts_Remove _) as [[e|] s]; [|by simplify_eq].
    eapply Add_within_budget; [|exact Hint]. done.
  - unfold complete, Remove in Hcomp. simplify_eq.
    case_match; [|done]. by destruct (ts_Remove _).
Qed.

Lemma step_cpu_singleton w w' :
  (length (ts_entities (processesOnCpu (rps w))) ≤ 1)%nat → step w w' →
  (length (ts_entities (processesOnCpu (rps w'))) ≤ 1)%nat.
Proof.
  intros Hcpu [a req now err Hfresh Hnew _ Harr|now err _ Hint|now err _ Hcomp].
  - eapply Add_cpu_singleton; [|exact Harr]. done.
  - unfold interrupt, ts_Remove in Hint.
    destruct (ts_entities (processesOnCpu (rps w))) as [|e rest] eqn:Hq.
    + simplify_eq. simpl. rewrite Hq. simpl. lia.
    + eapply Add_cpu_singleton; [|exact Hint]. simpl in *. lia.
  - unfold complete, Remove in Hcomp. simplify_eq.
    case_match; [|done]. by destruct (ts_Remove _).
Qed.

(** *** Runs neither fail nor panic *)

Lemma holds_requests_insert st a req s :
  holds_requests st s → holds_requests (<[a := req]> st) s.
Proof.
  intros [Hk Hall]. split; [done|]. intros e He.
  destruct (Hall e He) as (b & -> & Hb). exists b. split; [done|].
  rewrite lookup_insert. case_decide; [by eexists|done].
Qed.

Lemma holds_requests_snoc st s a :
  holds_requests st s → is_Some (st !! a) →
  ∃ s', ts_Add s (RequestPtr a) = inl s' ∧
        ts_entities s' = ts_entities s ++ [RequestPtr a] ∧
        ts_name s' = ts_name s ∧ ts_kind s' = ts_kind s ∧
        holds_requests st s'.
Proof.
  intros [Hk Hall] Ha. unfold ts_Add. simpl. rewrite Hk.
  rewrite decide_True by done. eexists. split; [done|]. simpl.
  split_and!; try done. split; [done|]. simpl. intros e He.
  apply elem_of_app in He as [He|He]; [by apply Hall|].
  apply list_elem_of_singleton in He as ->. eauto.
Qed.

Lemma sound_insert w a req :
  sound w → sound (set_store w (<[a := req]> (store w))).
Proof.
  intros (H1 & H2 & H3). unfold sound. simpl.
  split_and!; by apply holds_requests_insert.
Qed.

Lemma started_sound w a : sound w → sound (started w a).
Proof.
  intros Hs. unfold started. repeat case_match; try done. by apply sound_insert.
Qed.

Lemma enqueue_or_complete_returns w a req now :
  sound w → store w !! a = Some req →
  ∃ w1, Add_enqueue_or_complete w (RequestPtr a) a now = Some (inl w1) ∧ sound w1 ∧
    store w1 = store w ∧
    (0 < cpuSecondsRemaining req →
       ts_entities (processesActive (rps w1))
         = ts_entities (processesActive (rps w)) ++ [RequestPtr a] ∧
       processesTerminated (rps w1) = processesTerminated (rps w) ∧
       Movements (env w1) = Movements (env w)) ∧
    (cpuSecondsRemaining req ≤ 0 →
       ts_entities (processesTerminated (rps w1))
         = ts_entities (processesTerminated (rps w)) ++ [RequestPtr a] ∧
       processesActive (rps w1) = processesActive (rps w) ∧
       Movements (env w1) = Movements (env w) ++
         [NewMovement "complete_request" (Time_Add now Nanosecond)
            RequestsProcessingRef RequestsCompleteRef]).
Proof.
  intros (Hact & Hcpu & Hterm) Hreq. unfold Add_enqueue_or_complete.
  rewrite Hreq. simpl.
  destruct (0 <? cpuSecondsRemaining req) eqn:Hrem.
  - apply Z.ltb_lt in Hrem.
    destruct (holds_requests_snoc _ _ a Hact) as (s' & -> & Hs' & _ & _ & Hh);
      [by eexists|].
    eexists. split; [done|]. simpl. split_and!; try done. lia.
  - apply Z.ltb_ge in Hrem.
    destruct (holds_requests_snoc _ _ a Hterm) as (s' & -> & Hs' & _ & _ & Hh);
      [by eexists|].
    eexists. split; [done|]. simpl. split_and!; try done. lia.
Qed.

Lemma fill_cpu_returns w entity now :
  sound w → (∃ a, entity = RequestPtr a ∧ is_Some (store w !! a)) →
  ∃ w', Add_fill_cpu w entity now = Returned w' None ∧ sound w'.
Proof.
  intros (Hact & Hcpu & Hterm) (a & -> & Ha). unfold Add_fill_cpu.
  destruct ((ts_Count (processesOnCpu (rps w)) =? 0)
            && (0 <? ts_Count (processesActive (rps w)))) eqn:Hcond;
    [|by eexists].
  apply andb_true_iff in Hcond as [Hidle Hwait].
  apply Z.eqb_eq, ts_Count_0 in Hidle.
  unfold ts_Remove.
  destruct (ts_entities (processesActive (rps w))) as [|e rest] eqn:Hq.
  { apply Z.ltb_lt in Hwait. unfold ts_Count in Hwait. rewrite Hq in Hwait.
    simpl in Hwait. lia. }
  destruct Hact as [Hk Hall].
  destruct (Hall e) as (b & -> & [rb Hb]); [rewrite Hq; by left|].
  simpl. rewrite Hb. unfold ts_Add. simpl.
  destruct Hcpu as [Hkc _]. rewrite Hkc, decide_True by done.
  eexists. split; [done|]. unfold sound. simpl. split_and!.
  - apply holds_requests_insert. split; [done|]. simpl. intros e He.
    apply Hall. rewrite Hq. by right.
  - split; [done|]. simpl. rewrite Hidle. simpl. intros e He.
    apply list_elem_of_singleton in He as ->. exists a. split; [done|].
    rewrite lookup_insert. case_decide; [by eexists|done].
  - by apply holds_requests_insert.
Qed.

Lemma Add_returns w a req :
  sound w → store w !! a = Some req →
  ∃ w', Add w (RequestPtr a) = Returned w' None ∧ sound w'.
Proof.
  intros Hs Hreq. rewrite (Add_blocks _ _ _ Hreq).
  destruct (started_lookup _ _ _ Hreq) as (req' & Hreq' & _).
  destruct (enqueue_or_complete_returns (started w a) a req' (TheTime (env w)))
    as (w1 & -> & Hs1 & Hst & _); [by apply started_sound|done|].
  apply fill_cpu_returns; [done|]. exists a. split; [done|].
  rewrite Hst. by eexists.
Qed.

Lemma step_sound w w' : sound w → step w w' → sound w'.
Proof.
  intros Hs [a req now err Hfresh Hnew _ Harr|now err _ Hint|now err _ Hcomp].
  - unfold arrive in Harr.
    destruct (Add_returns (mkWorld (<[a := req]> (store w)) (at_time (env w) now) (rps w))
                a req) as (w'' & Heq & Hs'').
    + by apply (sound_insert w).
    + simpl. by rewrite lookup_insert_eq.
    + rewrite Heq in Harr. by simplify_eq.
  - unfold interrupt, ts_Remove in Hint.
    destruct Hs as (Hact & [Hk Hall] & Hterm).
    destruct (ts_entities (processesOnCpu (rps w))) as [|e rest] eqn:Hq.
    { simplify_eq. unfold sound. simpl. split_and!; try done.
      split; [done|]. by rewrite Hq. }
    destruct (Hall e) as (b & -> & [rb Hb]); [by left|].
    match type of Hint with Add ?w0 _ = _ =>
      destruct (Add_returns w0 b rb) as (w'' & Heq & Hs'') end.
    + unfold sound. simpl. split_and!; try done. split; [done|]. simpl.
      intros e He. apply Hall. by right.
    + done.
    + rewrite Heq in Hint. by simplify_eq.
  - unfold complete, Remove in Hcomp. simplify_eq. simpl.
    destruct (0 <? ts_Count (processesTerminated (rps w))); [|done].
    unfold ts_Remove. destruct Hs as (Hact & Hcpu & [Hk Hall]).
    destruct (ts_entities (processesTerminated (rps w))) as [|e rest] eqn:Hq.
    { unfold sound. simpl. split_and!; try done. split; [done|]. by rewrite Hq. }
    unfold sound. simpl. split_and!; try done. split; [done|]. simpl.
    intros e' He'. apply Hall. by right.
Qed.

Lemma reachable_sound w : reachable w → sound w.
Proof.
  induction 1 as [fe n c|w w' _ IH Hstep].
  - unfold sound, holds_requests. simpl. split_and!; try done;
      intros e He; by apply elem_of_nil in He.
  - by eapply step_sound.
Qed.

End processing_facts.

(* ================================================================== *)
(** ** Claims about the processing stock *)
(* ================================================================== *)

Module processing_claims.
Import Go simulator model kernel processing_spec processing_facts runs.

Lemma play_step w ev w' : play w ev = Some w' → step w w'.
Proof.
  unfold play. intros H.
  destruct (TheTime (env w) <=? event_time ev) eqn:Ht; [|done].
  apply Z.leb_le in Ht. destruct ev as [a req now|now|now]; simpl in *.
  - destruct (bool_decide (store w !! a = None)) eqn:Hfresh; [|done].
    destruct (is_new_request req) eqn:Hnew; [|done]. simpl in H.
    apply bool_decide_eq_true in Hfresh.
    unfold is_new_request in Hnew.
    repeat (apply andb_true_iff in Hnew as [Hnew ?]).
    destruct (arrive w a req now) as [w'' err|] eqn:Harr; [|done].
    simplify_eq. eapply step_arrive; [done| |done|done].
    unfold new_request. split_and!; [lia|by eapply bool_decide_eq_true|lia|lia].
  - destruct (interrupt w now) as [w'' err|] eqn:Hint; [|done].
    simplify_eq. by eapply step_interrupt.
  - destruct (complete w now) as [w'' err|] eqn:Hcomp; [|done].
    simplify_eq. by eapply step_complete.
Qed.

Lemma run_reachable evs : ∀ w w', reachable w → run w evs = Some w' → reachable w'.
Proof.
  induction evs as [|ev evs IH]; intros w w' Hw Hrun; simpl in Hrun.
  - by simplify_eq.
  - destruct (play w ev) as [w1|] eqn:Hplay; [|done]. simpl in Hrun.
    apply (IH w1); [|done]. eapply reachable_step; [done|]. by eapply play_step.
Qed.

Lemma after_reachable evs w : run idle evs = Some w → reachable (after evs).
Proof.
  intros Hw. unfold after. rewrite Hw. simpl.
  eapply run_reachable; [|done]. apply reachable_new.
Qed.

Lemma reachable_first_arrived : reachable first_arrived.
Proof. eapply after_reachable. vm_compute. reflexivity. Qed.

Lemma reachable_second_arrived : reachable second_arrived.
Proof. eapply after_reachable. vm_compute. reflexivity. Qed.

Lemma reachable_first_interrupted : reachable first_interrupted.
Proof. eapply after_reachable. vm_compute. reflexivity. Qed.

Lemma reachable_alone_finished : reachable alone_finished.
Proof. eapply after_reachable. vm_compute. reflexivity. Qed.

Lemma reachable_busy : reachable busy.
Proof. eapply after_reachable. vm_compute. reflexivity. Qed.

(** C3 (invariant I6, property P5).  In every state a replica's processing
    stock can reach, every request record has consumed no more CPU time
    than it requires. *)
Theorem C3_cpu_budget (w : World) :
  reachable w →
  ∀ a req, store w !! a = Some req →
    cpuSecondsConsumed req ≤ cpuSecondsRequired req.
Proof.
  intros Hreach.
  assert (store_within_budget (store w)) as Hst.
  { induction Hreach as [fe n c|w w' _ IH Hstep].
    - intros a req. simpl. by rewrite lookup_empty.
    - by eapply step_within_budget. }
  intros a req Hreq. destruct (Hst a req Hreq) as (_ & H & _). exact H.
Qed.

Lemma C3_cpu_budget_witness :
  reachable first_interrupted ∧
  store first_interrupted !! 2%nat = Some (charged (set_startTime (request 2) (Some (50 * Millisecond)))) ∧
  cpuSecondsConsumed (charged (set_startTime (request 2) (Some (50 * Millisecond))))
    ≤ cpuSecondsRequired (charged (set_startTime (request 2) (Some (50 * Millisecond)))).
Proof.
  split; [apply reachable_first_interrupted|].
  assert (store first_interrupted !! 2%nat
          = Some (charged (set_startTime (request 2) (Some (50 * Millisecond))))) as H
    by (vm_compute; reflexivity).
  split; [exact H|].
  exact (C3_cpu_budget first_interrupted reachable_first_interrupted 2%nat _ H).
Defined.

(** C4 (property P4).  In every state a replica's processing stock can
    reach, the on-CPU sub-stock holds at most one entity. *)
Theorem C4_cpu_singleton (w : World) :
  reachable w → ts_Count (processesOnCpu (rps w)) ≤ 1.
Proof.
  intros Hreach.
  assert (length (ts_entities (processesOnCpu (rps w))) ≤ 1)%nat as H.
  { induction Hreach as [fe n c|w w' _ IH Hstep].
    - simpl. lia.
    - by eapply step_cpu_singleton. }
  unfold ts_Count. lia.
Qed.

Lemma C4_cpu_singleton_witness :
  reachable first_interrupted ∧ ts_Count (processesOnCpu (rps first_interrupted)) ≤ 1.
Proof.
  split; [apply reachable_first_interrupted|].
  apply (C4_cpu_singleton first_interrupted). apply reachable_first_interrupted.
Defined.

(** C2 (section 4.4.1, step 3).  A request added to the processing stock
    of a replica is appended to [active] when it has CPU time left, and is
    otherwise appended to [terminated], with a [complete_request] movement
    from the stock to the completion sink scheduled one nanosecond later.
    [w1] is the state between the two blocks of [Add], [w'] the state
    [Add] returns. *)
Theorem C2_enqueue_or_complete (w : World) (a : nat) (req : requestEntity) :
  sound w → store w !! a = Some req →
  let now := CurrentMovementTime (env w) in
  let complete_request :=
    NewMovement "complete_request" (Time_Add now Nanosecond)
      RequestsProcessingRef RequestsCompleteRef in
  ∃ w1 w',
    Add_enqueue_or_complete (started w a) (RequestPtr a) a now = Some (inl w1) ∧
    Add_fill_cpu w1 (RequestPtr a) now = Returned w' None ∧
    Add w (RequestPtr a) = Returned w' None ∧
    (0 < cpuSecondsRemaining req →
       ts_entities (processesActive (rps w1))
         = ts_entities (processesActive (rps w)) ++ [RequestPtr a] ∧
       processesTerminated (rps w') = processesTerminated (rps w) ∧
       Movements (env w1) = Movements (env w)) ∧
    (cpuSecondsRemaining req ≤ 0 →
       ts_entities (processesTerminated (rps w'))
         = ts_entities (processesTerminated (rps w)) ++ [RequestPtr a] ∧
       processesActive (rps w1) = processesActive (rps w) ∧
       Movements (env w1) = Movements (env w) ++ [complete_request] ∧
       complete_request ∈ Movements (env w')).
Proof.
  intros Hs Hreq now complete_request.
  destruct (started_lookup _ _ _ Hreq) as (req' & Hreq' & Hrq & Hcs).
  assert (cpuSecondsRemaining req' = cpuSecondsRemaining req) as Hrem
    by (unfold cpuSecondsRemaining; by rewrite Hrq, Hcs).
  destruct (started_frame w a) as [Henv Hrps].
  destruct (enqueue_or_complete_returns (started w a) a req' now)
    as (w1 & Hblock & Hs1 & Hst & Hpos & Hneg); [by apply started_sound|done|].
  rewrite Hrem, Henv, Hrps in *.
  destruct (fill_cpu_returns w1 (RequestPtr a) now Hs1) as (w' & Hfill & _).
  { exists a. split; [done|]. rewrite Hst. by eexists. }
  exists w1, w'. split_and!; try done.
  - rewrite (Add_blocks _ _ _ Hreq). change (TheTime (env w)) with now.
    by rewrite Hblock.
  - intros H. destruct (Hpos H) as (Ha & Ht & Hm). split_and!; try done.
    apply fill_cpu_cases in Hfill as [(-> & _)|(b & rb & rest & Hc)]; [done|].
    destruct Hc as (_ & _ & _ & _ & _ & _ & _ & _ & -> & _). done.
  - intros H. destruct (Hneg H) as (Ht & Ha & Hm).
    apply fill_cpu_cases in Hfill as [(-> & _)|(b & rb & rest & Hc)].
    + split_and!; try done. rewrite Hm.
      apply elem_of_app. right. by apply list_elem_of_singleton.
    + destruct Hc as (_ & _ & _ & _ & Hm' & _ & _ & _ & Ht' & _).
      rewrite Ht', Hm', Hm. split_and!; try done.
      apply elem_of_app. left. apply elem_of_app. right.
      by apply list_elem_of_singleton.
Qed.

Lemma sound_second_arriving : sound second_arriving.
Proof.
  pose proof (reachable_sound _ reachable_first_arrived) as (H1 & H2 & H3).
  unfold sound, second_arriving. simpl.
  split_and!; by apply holds_requests_insert.
Qed.

Lemma C2_enqueue_or_complete_witness :
  sound second_arriving ∧
  store second_arriving !! 2%nat = Some (request 2) ∧
  ∃ w1 w',
    Add_enqueue_or_complete (started second_arriving 2%nat) (RequestPtr 2) 2%nat
      (50 * Millisecond) = Some (inl w1) ∧
    Add_fill_cpu w1 (RequestPtr 2) (50 * Millisecond) = Returned w' None ∧
    Add second_arriving (RequestPtr 2) = Returned w' None ∧
    ts_entities (processesActive (rps w1)) = [RequestPtr 2].
Proof.
  assert (store second_arriving !! 2%nat = Some (request 2)) as H
    by (vm_compute; reflexivity).
  split; [apply sound_second_arriving|].
  split; [exact H|].
  destruct (C2_enqueue_or_complete second_arriving 2%nat _ sound_second_arriving H)
    as (w1 & w' & H1 & H2 & H3 & Hpos & _).
  exists w1, w'. split_and!; [exact H1|exact H2|exact H3|].
  destruct Hpos as (Hact & _); [by vm_compute|].
  rewrite Hact. reflexivity.
Defined.

(** C8, as the code has it.  [Count] is the number of entries of [active]
    and [onCpu]; the entities of [terminated] are held but not counted. *)
Theorem C8_count_leaves_out_terminated (w : World) :
  Count (rps w)
    = Z.of_nat (length (ts_entities (processesActive (rps w))
                        ++ ts_entities (processesOnCpu (rps w)))) ∧
  Count (rps w)
    = Z.of_nat (length (entities_held (rps w)))
      - ts_Count (processesTerminated (rps w)).
Proof.
  unfold Count, entities_held, ts_Count. rewrite !length_app. lia.
Qed.

(** C8, as stated, fails: once request 1 has finished, the stock holds it
    in [terminated] while [Count] is zero. *)
Lemma C8_count_is_not_the_number_held :
  reachable alone_finished ∧
  entities_held (rps alone_finished) = [RequestPtr 1] ∧
  Count (rps alone_finished) = 0 ∧
  Count (rps alone_finished) ≠ Z.of_nat (length (entities_held (rps alone_finished))).
Proof.
  split; [apply reachable_alone_finished|]. by vm_compute.
Qed.

(** C10.  [EntitiesInStock] returns a slice twice as long as the stock's
    count: as many nil pointers as [active] and [onCpu] hold entities,
    followed by the references to those entities.  This holds in every
    state, reachable or not. *)
Theorem C10_entities_in_stock_nil_prefix (w : World) :
  let n := Z.to_nat (ts_Count (processesActive (rps w))
                     + ts_Count (processesOnCpu (rps w))) in
  length (EntitiesInStock (rps w)) = (2 * n)%nat ∧
  (∀ i, (i < n)%nat → EntitiesInStock (rps w) !! i = Some None) ∧
  take n (EntitiesInStock (rps w)) = replicate n None ∧
  drop n (EntitiesInStock (rps w))
    = map Some (ts_entities (processesActive (rps w))
                ++ ts_entities (processesOnCpu (rps w))).
Proof.
  intros n. unfold EntitiesInStock, ts_EntitiesInStock. fold n.
  assert (n = length (ts_entities (processesActive (rps w)))
              + length (ts_entities (processesOnCpu (rps w))))%nat as Hn
    by (unfold n, ts_Count; lia).
  rewrite <- app_assoc, <- map_app.
  split_and!.
  - rewrite length_app, length_replicate, length_map, length_app. lia.
  - intros i Hi. rewrite lookup_app_l by (rewrite length_replicate; lia).
    by apply lookup_replicate_2.
  - rewrite take_app_length'; [done|]. by rewrite length_replicate.
  - rewrite drop_app_length'; [done|]. by rewrite length_replicate.
Qed.

(** C1, at the failing run.  When the interrupt of request 1 fires at
    t = 100ms, request 1 has no CPU time left and request 2 waits in
    [active].  [Add] pops request 2, charges it a quantum of 100ms and
    schedules the interrupt at t = 200ms, but the entity it places on the
    CPU is its argument, request 1: not charged, nothing remaining, and
    already in [terminated].  Request 2 is left in no sub-stock. *)
Theorem C1_cpu_receives_the_argument_of_Add :
  interrupt second_arrived (100 * Millisecond) = Returned first_interrupted None ∧
  ts_entities (processesOnCpu (rps second_arrived)) = [RequestPtr 1] ∧
  ts_entities (processesActive (rps second_arrived)) = [RequestPtr 2] ∧
  cpuSecondsRemaining <$> store second_arrived !! 1%nat = Some 0 ∧
  cpuSecondsRemaining <$> store second_arrived !! 2%nat = Some (100 * Millisecond) ∧
  ts_entities (processesOnCpu (rps first_interrupted)) = [RequestPtr 1] ∧
  last (Movements (env first_interrupted))
    = Some (NewMovement "interrupt_process" (Time_Add (100 * Millisecond) (100 * Millisecond))
              ProcessesOnCpuRef RequestsProcessingRef) ∧
  cpuSecondsConsumed <$> store first_interrupted !! 1%nat
    = cpuSecondsConsumed <$> store second_arrived !! 1%nat ∧
  cpuSecondsConsumed <$> store second_arrived !! 2%nat = Some 0 ∧
  cpuSecondsConsumed <$> store first_interrupted !! 2%nat = Some (100 * Millisecond) ∧
  in_stock 2 (processesActive (rps first_interrupted)) = false ∧
  in_stock 2 (processesOnCpu (rps first_interrupted)) = false ∧
  in_stock 2 (processesTerminated (rps first_interrupted)) = false ∧
  in_stock 1 (processesTerminated (rps first_interrupted)) = true.
Proof. by vm_compute. Qed.

End processing_claims.

(* ================================================================== *)
(** ** Facts about the sliding window *)
(* ================================================================== *)

Module window_facts.
Import Go simulator model window_spec processing_facts.

Lemma trim_loop cutoff slices : ∀ trimmed,
  fold_left (trim_body cutoff) slices trimmed
  = trimmed ++ remaining_slices cutoff slices.
Proof.
  unfold remaining_slices.
  induction slices as [|t rest IH]; intros trimmed; simpl.
  - by rewrite app_nil_r.
  - rewrite IH. unfold trim_body, Time_Before, clamp_start.
    rewrite filter_cons.
    destruct (snd t <? cutoff) eqn:Hend.
    + apply Z.ltb_lt in Hend. by rewrite decide_False by lia.
    + apply Z.ltb_ge in Hend. rewrite decide_True by lia. simpl.
      rewrite <- app_assoc. simpl.
      destruct (fst t <? cutoff) eqn:Hstart.
      * apply Z.ltb_lt in Hstart. by rewrite decide_True by lia.
      * apply Z.ltb_ge in Hstart. by rewrite decide_False by lia.
Qed.

Lemma consecutive_weaken lo lo' slices :
  lo' ≤ lo → consecutive lo slices = true → consecutive lo' slices = true.
Proof.
  destruct slices as [|t rest]; [done|]. simpl. intros Hlo H.
  apply andb_true_iff in H as [H Hrest]. apply andb_true_iff in H as [H1 H2].
  rewrite Hrest, H2. apply Z.leb_le in H1.
  replace (lo' <=? fst t) with true; [done|]. symmetry. apply Z.leb_le. lia.
Qed.

Lemma remaining_consecutive cutoff slices : ∀ lo,
  consecutive lo slices = true →
  consecutive (Z.max lo cutoff) (remaining_slices cutoff slices) = true.
Proof.
  unfold remaining_slices.
  induction slices as [|t rest IH]; intros lo H; [done|]. simpl in H.
  apply andb_true_iff in H as [H Hrest]. apply andb_true_iff in H as [H1 H2].
  apply Z.leb_le in H1, H2. specialize (IH _ Hrest).
  rewrite filter_cons. case_decide as Hend.
  - cbn [map consecutive].
    assert (clamp_start cutoff t = (Z.max (fst t) cutoff, snd t)) as ->.
    { unfold clamp_start. destruct t as [a b]. simpl in *.
      case_decide; f_equal; lia. }
    cbn [fst snd]. rewrite Z.max_l in IH by lia. rewrite IH.
    replace (Z.max lo cutoff <=? Z.max (fst t) cutoff) with true
      by (symmetry; apply Z.leb_le; lia).
    replace (Z.max (fst t) cutoff <=? snd t) with true
      by (symmetry; apply Z.leb_le; lia).
    done.
  - apply (consecutive_weaken (Z.max (snd t) cutoff)); [lia|done].
Qed.

Lemma remaining_end_by cutoff hi slices :
  end_by hi slices = true → end_by hi (remaining_slices cutoff slices) = true.
Proof.
  unfold end_by, remaining_slices.
  induction slices as [|t rest IH]; [done|]. simpl. intros H.
  apply andb_true_iff in H as [H1 H2]. rewrite filter_cons.
  case_decide; [|by apply IH]. cbn [map forallb]. rewrite (IH H2).
  unfold clamp_start. case_decide; simpl; by rewrite H1.
Qed.

(** Over consecutive slices inside [[lo, hi]] the [int64] accumulation of
    [usage] neither saturates nor wraps. *)
Lemma activeNanos_loop hi slices : ∀ lo acc,
  consecutive lo slices = true → end_by hi slices = true → lo ≤ hi →
  0 ≤ acc → acc + (hi - lo) ≤ maxInt64 →
  fold_left (λ activeNanos a, wrap64 (activeNanos + Time_Sub (snd a) (fst a)))
    slices acc = acc + total_length slices ∧
  0 ≤ total_length slices ≤ hi - lo.
Proof.
  induction slices as [|t rest IH]; intros lo acc Hc He Hlo Hacc Hmax; simpl.
  - lia.
  - simpl in Hc, He.
    apply andb_true_iff in Hc as [Hc Hrest]. apply andb_true_iff in Hc as [H1 H2].
    apply andb_true_iff in He as [He1 He2].
    apply Z.leb_le in H1, H2, He1.
    assert (Time_Sub (snd t) (fst t) = snd t - fst t) as ->.
    { unfold Time_Sub, minInt64, maxInt64 in *. lia. }
    rewrite wrap64_small by (unfold minInt64, maxInt64 in *; lia).
    destruct (IH (snd t) (acc + (snd t - fst t))) as [-> Hb];
      [done|done|lia|lia|lia|]. lia.
Qed.

End window_facts.

(* ================================================================== *)
(** ** Claims about the sliding window *)
(* ================================================================== *)

Module window_claims.
Import Go simulator model kernel runs window_spec window_facts processing_claims.

(** C7, as the code has it.  [trim(now)] removes exactly the slices that
    end before [now - 15s] and moves the start of a slice straddling that
    instant to it; [usage(now)] trims and returns the accumulated
    nanoseconds over the [15s] window, as a [float64] quotient with no
    clamping.  When the log holds consecutive slices that end at most
    200ms after [now] (the longest quantum), the accumulation is the exact
    sum of [end - start], at least zero and at most 15s + 200ms. *)
Theorem C7_trim_and_usage (c : cpuUsage) (now : Time) :
  window c = 15 * Second →
  let cutoff := now - 15 * Second in
  let kept := activeTimeSlices (cpuUsage_trim c now) in
  kept = remaining_slices cutoff (activeTimeSlices c) ∧
  fst (cpuUsage_usage c now) = cpuUsage_trim c now ∧
  snd (cpuUsage_usage c now)
    = PrimFloat.div (float64_of_int64 (activeNanos_of kept))
                    (float64_of_int64 (15 * Second)) ∧
  (∀ lo, consecutive lo (activeTimeSlices c) = true →
         end_by (now + 200 * Millisecond) (activeTimeSlices c) = true →
         activeNanos_of kept = total_length kept ∧
         0 ≤ total_length kept ≤ 15 * Second + 200 * Millisecond).
Proof.
  intros Hw cutoff kept.
  assert (kept = remaining_slices cutoff (activeTimeSlices c)) as Hkept.
  { unfold kept, cpuUsage_trim. simpl. rewrite trim_loop. simpl.
    rewrite Hw. reflexivity. }
  split_and!; [done|done| |].
  - unfold cpuUsage_usage, kept. cbn [snd].
    change (window (cpuUsage_trim c now)) with (window c). by rewrite Hw.
  - intros lo Hc He. rewrite Hkept.
    pose proof (remaining_consecutive cutoff _ _ Hc) as Hc'.
    apply (consecutive_weaken _ cutoff) in Hc'; [|lia].
    pose proof (remaining_end_by cutoff _ _ He) as He'.
    destruct (activeNanos_loop _ _ cutoff 0 Hc' He') as [Heq Hb].
    + unfold cutoff, Millisecond, Second. lia.
    + lia.
    + unfold cutoff, maxInt64, Millisecond, Second. lia.
    + unfold activeNanos_of. rewrite Heq.
      unfold cutoff, Millisecond, Second in *. lia.
Qed.

Lemma C7_trim_and_usage_witness :
  window busy_log = 15 * Second ∧
  consecutive 0 (activeTimeSlices busy_log) = true ∧
  end_by (15 * Second + 200 * Millisecond) (activeTimeSlices busy_log) = true ∧
  activeNanos_of (activeTimeSlices (cpuUsage_trim busy_log (15 * Second)))
    = total_length (activeTimeSlices (cpuUsage_trim busy_log (15 * Second))) ∧
  0 ≤ total_length (activeTimeSlices (cpuUsage_trim busy_log (15 * Second)))
    ≤ 15 * Second + 200 * Millisecond.
Proof.
  assert (window busy_log = 15 * Second) as Hw by (vm_compute; reflexivity).
  assert (consecutive 0 (activeTimeSlices busy_log) = true) as Hc
    by (vm_compute; reflexivity).
  assert (end_by (15 * Second + 200 * Millisecond) (activeTimeSlices busy_log) = true)
    as He by (vm_compute; reflexivity).
  split_and!; [exact Hw|exact Hc|exact He|..];
    destruct (C7_trim_and_usage busy_log (15 * Second) Hw) as (_ & _ & _ & H);
    destruct (H 0 Hc He) as [H1 H2]; [exact H1|apply H2|apply H2].
Defined.

(** C7, as stated, fails: the utilization is not clamped.  After serving
    [long_request] for 15s in quanta of 200ms, the log holds the slice
    [[15s, 15.2s]] of the quantum just scheduled; at [now = 15s] nothing is
    trimmed and the quotient is 15.2s / 15s, above one. *)
Lemma C7_usage_above_one :
  reachable busy ∧
  activeNanos_of (activeTimeSlices (fst (cpuUsage_usage busy_log (15 * Second))))
    = 15 * Second + 200 * Millisecond ∧
  PrimFloat.ltb 1 (snd (cpuUsage_usage busy_log (15 * Second))) = true.
Proof.
  split; [apply reachable_busy|]. split; vm_compute; reflexivity.
Qed.

End window_claims.

(* ================================================================== *)
(** ** Facts about the autoscaler tick *)
(* ================================================================== *)

Module ticktock_facts.
Import Go simulator model ticktock ticktock_spec.

Section tick.
Context {Plugin : Type}.

Lemma increase_loop_spec n now : ∀ tw : TickWorld Plugin,
  ts_kind (desiredSource (t_stock tw)) = "Desired"%string →
  ∃ tw', increase_loop n now tw = inl tw' ∧
    ts_entities (desiredSource (t_stock tw'))
      = ts_entities (desiredSource (t_stock tw)) ++ fresh_desired (t_allocated tw) n ∧
    Movements (t_env tw') = Movements (t_env tw) ++ replicate n (increase_desired now) ∧
    t_allocated tw' = (t_allocated tw + n)%nat ∧
    TheCPUUtilizations (t_env tw') = TheCPUUtilizations (t_env tw) ∧
    TheTime (t_env tw') = TheTime (t_env tw) ∧
    t_cluster tw' = t_cluster tw ∧
    desiredSink (t_stock tw') = desiredSink (t_stock tw).
Proof.
  induction n as [|n IH]; intros tw Hk.
  - exists tw. simpl. unfold fresh_desired. simpl.
    rewrite !app_nil_r. split_and!; try done; lia.
  - cbn [increase_loop]. unfold ts_Add. cbn [t_stock Entity_Kind].
    rewrite Hk, decide_True by done. cbn [AddToSchedule].
    match goal with |- ∃ _, increase_loop n now ?w = _ ∧ _ =>
      destruct (IH w) as (tw' & Heq & He & Hm & Ha & Hu & Ht & Hc & Hs) end; [done|].
    exists tw'. split; [done|]. simpl in *.
    rewrite He, Hm, Ha, Hu, Ht, Hc, Hs. unfold fresh_desired. simpl.
    rewrite <- !app_assoc. simpl. split_and!; try done; lia.
Qed.

Lemma reduce_loop_spec n now : ∀ fe,
  Movements (reduce_loop n now fe) = Movements fe ++ replicate n (reduce_desired now) ∧
  TheCPUUtilizations (reduce_loop n now fe) = TheCPUUtilizations fe ∧
  TheTime (reduce_loop n now fe) = TheTime fe.
Proof.
  induction n as [|n IH]; intros fe; simpl.
  - by rewrite app_nil_r.
  - destruct (IH (mkFakeEnvironment
                    (Movements fe ++ [reduce_desired now]) (TheTime fe)
                    (TheHaltTime fe) (TheCPUUtilizations fe))) as (Hm & Hu & Ht).
    unfold reduce_desired in *. cbn [Movements TheCPUUtilizations TheTime] in *.
    rewrite Hm, Hu, Ht, <- app_assoc. done.
Qed.

Lemma cpu_loop replicas : ∀ count total,
  fold_left cpu_loop_body replicas (count, total)
  = (count + Z.of_nat (length replicas),
     fold_left PrimFloat.add
       (map (λ r, (occupiedCPUCapacityMillisPerSecond r * 100
                   / totalCPUCapacityMillisPerSecond r)%float) replicas)
       total).
Proof.
  induction replicas as [|r rest IH]; intros count total; simpl.
  - f_equal. lia.
  - rewrite IH. f_equal. lia.
Qed.

Lemma calculateCPUUtilization_spec fe cluster :
  Movements (calculateCPUUtilization fe cluster) = Movements fe ∧
  TheCPUUtilizations (calculateCPUUtilization fe cluster)
  = match cm_ActiveStock cluster with
    | [] => TheCPUUtilizations fe
    | _ :: _ =>
        TheCPUUtilizations fe
        ++ [mkCPUUtilization (mean_percent (cm_ActiveStock cluster)) (TheTime fe)]
    end.
Proof.
  unfold calculateCPUUtilization. rewrite cpu_loop.
  destruct (cm_ActiveStock cluster) as [|r rest] eqn:Hl; [done|].
  replace (0 <? 0 + Z.of_nat (length (r :: rest))) with true
    by (symmetry; apply Z.ltb_lt; simpl; lia).
  rewrite Z.add_0_l. split; [done|]. reflexivity.
Qed.

Variable Scale : Plugin → Z → Plugin * (Z + string).
Variable RecordToAutoscaler : ClusterModel → Plugin → Time → ClusterModel * Plugin.

(** One tick, from the stock's own entity, with a policy that answers. *)
Lemma tick_spec (tw : TickWorld Plugin) cluster plugin plugin' desired :
  ts_kind (desiredSource (t_stock tw)) = "Desired"%string →
  RecordToAutoscaler (t_cluster tw) (t_plugin tw) (TheTime (t_env tw))
    = (cluster, plugin) →
  Scale plugin (Time_UnixNano (TheTime (t_env tw))) = (plugin', inl desired) →
  let now := TheTime (t_env tw) in
  let delta := wrap32 (desired - wrap32 (ts_Count (cm_Desired cluster))) in
  ∃ tw',
    Add Scale RecordToAutoscaler tw (autoscalerEntity (t_stock tw))
      = TickReturned tw' None ∧
    t_cluster tw' = cluster ∧
    TheCPUUtilizations (t_env tw')
      = match cm_ActiveStock cluster with
        | [] => TheCPUUtilizations (t_env tw)
        | _ :: _ =>
            TheCPUUtilizations (t_env tw)
            ++ [mkCPUUtilization (mean_percent (cm_ActiveStock cluster)) now]
        end ∧
    (0 < delta →
       ts_entities (desiredSource (t_stock tw'))
         = ts_entities (desiredSource (t_stock tw))
           ++ fresh_desired (t_allocated tw) (Z.to_nat delta) ∧
       Movements (t_env tw')
         = Movements (t_env tw) ++ replicate (Z.to_nat delta) (increase_desired now)) ∧
    (delta < 0 →
       desiredSource (t_stock tw') = desiredSource (t_stock tw) ∧
       Movements (t_env tw')
         = Movements (t_env tw) ++ replicate (Z.to_nat (- delta)) (reduce_desired now)) ∧
    (delta = 0 →
       desiredSource (t_stock tw') = desiredSource (t_stock tw) ∧
       Movements (t_env tw') = Movements (t_env tw)).
Proof.
  intros Hk Hrec Hscale now delta. unfold Add.
  rewrite decide_False by (intros H; by apply H).
  unfold CurrentMovementTime. rewrite Hrec, Hscale. fold delta. fold now.
  destruct (0 <? delta) eqn:Hpos; [|destruct (delta <? 0) eqn:Hneg].
  - apply Z.ltb_lt in Hpos.
    match goal with |- context [increase_loop ?n ?t ?w] =>
      destruct (increase_loop_spec n t w) as (tw1 & -> & He & Hm & _ & Hu & Ht & Hc & _)
    end; [done|]. simpl in *.
    eexists. split; [done|]. simpl.
    destruct (calculateCPUUtilization_spec (t_env tw1) (t_cluster tw1)) as [Hm' Hu'].
    rewrite Hu', Hm', Hu, Ht, Hc. split_and!; try done; lia.
  - apply Z.ltb_lt in Hneg. eexists. split; [done|]. simpl.
    match goal with |- context [calculateCPUUtilization ?fe ?c] =>
      destruct (calculateCPUUtilization_spec fe c) as [Hm' Hu'] end.
    destruct (reduce_loop_spec (Z.to_nat (- delta)) now (t_env tw)) as (Hm & Hu & Ht).
    rewrite Hu', Hm', Hu, Ht, Hm. split_and!; try done; lia.
  - apply Z.ltb_ge in Hpos, Hneg. eexists. split; [done|]. simpl.
    destruct (calculateCPUUtilization_spec (t_env tw) cluster) as [Hm' Hu'].
    rewrite Hu', Hm'. split_and!; try done; lia.
Qed.

End tick.

End ticktock_facts.

(* ================================================================== *)
(** ** Claims about the autoscaler tick *)
(* ================================================================== *)

Module ticktock_claims.
Import Go simulator model ticktock ticktock_spec ticktock_facts.

(** C6 (section 4.6, step 3).  On a tick, with [delta] the policy's answer
    minus the count of the Desired stock (an [int32] difference), the
    stock returns without error and: if [delta > 0] it has put [delta]
    newly made Desired entities into the desired source and scheduled
    [delta] [increase_desired] movements from that source to the Desired
    stock at [now + 1ns]; if [delta < 0] it has scheduled [|delta|]
    [reduce_desired] movements from Desired to the sink at [now + 1ns]; if
    [delta = 0] it has scheduled nothing.  [delta] is the plain difference
    whenever that and the count fit an [int32]. *)
Theorem C6_tick_issues_the_delta {Plugin : Type}
    (Scale : Plugin → Z → Plugin * (Z + string))
    (RecordToAutoscaler : ClusterModel → Plugin → Time → ClusterModel * Plugin)
    (tw : TickWorld Plugin) (cluster : ClusterModel) (plugin plugin' : Plugin)
    (desired : Z) :
  ts_kind (desiredSource (t_stock tw)) = "Desired"%string →
  RecordToAutoscaler (t_cluster tw) (t_plugin tw) (CurrentMovementTime (t_env tw))
    = (cluster, plugin) →
  Scale plugin (Time_UnixNano (CurrentMovementTime (t_env tw))) = (plugin', inl desired) →
  let now := CurrentMovementTime (t_env tw) in
  let count := ts_Count (cm_Desired cluster) in
  let delta := wrap32 (desired - wrap32 count) in
  ∃ tw',
    Add Scale RecordToAutoscaler tw (autoscalerEntity (t_stock tw))
      = TickReturned tw' None ∧
    (0 < delta →
       ts_entities (desiredSource (t_stock tw'))
         = ts_entities (desiredSource (t_stock tw))
           ++ fresh_desired (t_allocated tw) (Z.to_nat delta) ∧
       Movements (t_env tw')
         = Movements (t_env tw)
           ++ replicate (Z.to_nat delta)
                (NewMovement "increase_desired" (now + 1)
                   DesiredSourceRef ClusterDesiredRef)) ∧
    (delta < 0 →
       desiredSource (t_stock tw') = desiredSource (t_stock tw) ∧
       Movements (t_env tw')
         = Movements (t_env tw)
           ++ replicate (Z.to_nat (- delta))
                (NewMovement "reduce_desired" (now + 1)
                   ClusterDesiredRef DesiredSinkRef)) ∧
    (delta = 0 →
       desiredSource (t_stock tw') = desiredSource (t_stock tw) ∧
       Movements (t_env tw') = Movements (t_env tw)) ∧
    (count < 2 ^ 31 → - 2 ^ 31 ≤ desired - count < 2 ^ 31 → delta = desired - count).
Proof.
  intros Hk Hrec Hscale now count delta.
  destruct (tick_spec Scale RecordToAutoscaler tw cluster plugin plugin' desired
              Hk Hrec Hscale) as (tw' & HAdd & _ & _ & Hpos & Hneg & Hzero).
  exists tw'. split_and!; try done.
  intros Hcount Hdiff. unfold delta, wrap32.
  assert (0 ≤ count) by (unfold count, ts_Count; lia).
  rewrite (Z.mod_small (count + 2 ^ 31)) by lia.
  rewrite Z.mod_small; lia.
Qed.

Lemma C6_tick_issues_the_delta_witness :
  ts_kind (desiredSource (t_stock (tick_world 3 [] []))) = "Desired"%string ∧
  ∃ tw',
    fake_tick (tick_world 3 [] []) = TickReturned tw' None ∧
    ts_entities (desiredSource (t_stock tw')) = fresh_desired 1 3 ∧
    Movements (t_env tw')
      = replicate 3 (NewMovement "increase_desired" (2 * Second + 2)
                       DesiredSourceRef ClusterDesiredRef).
Proof.
  split; [reflexivity|].
  destruct (C6_tick_issues_the_delta Fake_Scale Fake_RecordToAutoscaler
              (tick_world 3 [] []) (t_cluster (tick_world 3 [] []))
              (t_plugin (tick_world 3 [] []))
              (mkFakePluginPartition [2 * Second + 1] 3) 3
              eq_refl eq_refl eq_refl) as (tw' & HAdd & Hpos & _).
  exists tw'. split; [exact HAdd|].
  destruct Hpos as [He Hm]; [by vm_compute|].
  split; [exact He|exact Hm].
Defined.

(** C9, as the code has it (section 4.6, step 4).  A tick appends one
    sample to the environment's CPU utilizations when the Active stock
    holds at least one replica: the mean, over the active replicas, of
    [occupied * 100 / total] (a percentage), stamped with the time of the
    tick.  With no active replica the tick appends nothing. *)
Theorem C9_tick_samples_cpu_percent {Plugin : Type}
    (Scale : Plugin → Z → Plugin * (Z + string))
    (RecordToAutoscaler : ClusterModel → Plugin → Time → ClusterModel * Plugin)
    (tw : TickWorld Plugin) (cluster : ClusterModel) (plugin plugin' : Plugin)
    (desired : Z) :
  ts_kind (desiredSource (t_stock tw)) = "Desired"%string →
  RecordToAutoscaler (t_cluster tw) (t_plugin tw) (CurrentMovementTime (t_env tw))
    = (cluster, plugin) →
  Scale plugin (Time_UnixNano (CurrentMovementTime (t_env tw))) = (plugin', inl desired) →
  ∃ tw',
    Add Scale RecordToAutoscaler tw (autoscalerEntity (t_stock tw))
      = TickReturned tw' None ∧
    (cm_ActiveStock cluster ≠ [] →
       TheCPUUtilizations (t_env tw')
         = TheCPUUtilizations (t_env tw)
           ++ [mkCPUUtilization (mean_percent (cm_ActiveStock cluster))
                 (CurrentMovementTime (t_env tw))]) ∧
    (cm_ActiveStock cluster = [] →
       TheCPUUtilizations (t_env tw') = TheCPUUtilizations (t_env tw)).
Proof.
  intros Hk Hrec Hscale.
  destruct (tick_spec Scale RecordToAutoscaler tw cluster plugin plugin' desired
              Hk Hrec Hscale) as (tw' & HAdd & _ & Hu & _).
  exists tw'. split; [done|]. rewrite Hu.
  destruct (cm_ActiveStock cluster); split; done.
Qed.

Lemma C9_tick_samples_cpu_percent_witness :
  ts_kind (desiredSource (t_stock (tick_world 1 [] [half_busy; half_busy])))
    = "Desired"%string ∧
  ∃ tw',
    fake_tick (tick_world 1 [] [half_busy; half_busy]) = TickReturned tw' None ∧
    TheCPUUtilizations (t_env tw')
      = [mkCPUUtilization (mean_percent [half_busy; half_busy]) (2 * Second + 1)].
Proof.
  split; [reflexivity|].
  destruct (C9_tick_samples_cpu_percent Fake_Scale Fake_RecordToAutoscaler
              (tick_world 1 [] [half_busy; half_busy])
              (t_cluster (tick_world 1 [] [half_busy; half_busy]))
              (t_plugin (tick_world 1 [] [half_busy; half_busy]))
              (mkFakePluginPartition [2 * Second + 1] 1) 1
              eq_refl eq_refl eq_refl) as (tw' & HAdd & Hsome & _).
  exists tw'. split; [exact HAdd|]. apply Hsome. discriminate.
Defined.

(** C9, as stated, fails twice.  A tick over a cluster without active
    replicas appends no sample; and over one replica with 50 of 100
    millicores occupied the sample is 50, where occupied over total is
    one half. *)
Lemma C9_not_every_tick_and_not_a_fraction :
  samples_of (fake_tick (tick_world 3 [] [])) = [] ∧
  samples_of (fake_tick (tick_world 1 [] [half_busy])) = [50%float] ∧
  mean_fraction [half_busy] = 0.5%float ∧
  PrimFloat.eqb 50 (mean_fraction [half_busy]) = false.
Proof. split_and!; vm_compute; reflexivity. Qed.

End ticktock_claims.

(* ================================================================== *)
(** ** Facts about the heap and the movement queue *)
(* ================================================================== *)

Module heap_facts.
Import cache.

Ltac nat_div_lia := zify; Z.to_euclidean_division_equations; lia.

Section sifting.
Context {A : Type}.
Variable lessFunc : A → A → bool.

Lemma insert_Permutation_cons (l : list string) i x y :
  l !! i = Some x → y :: l ≡ₚ x :: <[i := y]> l.
Proof.
  revert i. induction l as [|z l IH]; intros [|i] H; simplify_eq/=.
  - apply perm_swap.
  - rewrite (perm_swap z x). rewrite <- (IH i H). apply perm_swap.
Qed.

Lemma Swap_items (h : heapData A) i j : items (Swap h i j) = items h.
Proof. unfold Swap. by repeat case_match. Qed.

Lemma Swap_Permutation (h : heapData A) i j : queue (Swap h i j) ≡ₚ queue h.
Proof.
  unfold Swap.
  destruct (queue h !! i) as [ki|] eqn:Hi; [|done].
  destruct (queue h !! j) as [kj|] eqn:Hj; [|done]. simpl.
  destruct (decide (i = j)) as [->|Hne].
  - simplify_eq. rewrite list_insert_insert_eq. by rewrite list_insert_id.
  - apply (Permutation_cons_inv (a := kj)).
    assert (<[i := kj]> (queue h) !! j = Some kj) as Hj'
      by (by rewrite list_lookup_insert_ne).
    etrans; [symmetry; apply (insert_Permutation_cons _ j kj ki Hj')|].
    symmetry. apply (insert_Permutation_cons _ i ki kj Hi).
Qed.

Lemma Swap_length (h : heapData A) i j : length (queue (Swap h i j)) = length (queue h).
Proof. apply Permutation_length, Swap_Permutation. Qed.

Lemma Swap_lookup (h : heapData A) i j ki kj k :
  queue h !! i = Some ki → queue h !! j = Some kj → i ≠ j →
  queue (Swap h i j) !! k
  = if decide (k = j) then Some ki
    else if decide (k = i) then Some kj else queue h !! k.
Proof.
  intros Hi Hj Hne. unfold Swap. rewrite Hi, Hj. simpl.
  pose proof (lookup_lt_Some _ _ _ Hi). pose proof (lookup_lt_Some _ _ _ Hj).
  case_decide as Hkj.
  - subst. rewrite list_lookup_insert_eq; [done|]. by rewrite length_insert.
  - rewrite list_lookup_insert_ne by done. case_decide as Hki.
    + subst. by rewrite list_lookup_insert_eq.
    + by rewrite list_lookup_insert_ne.
Qed.

Lemma up_items fuel : ∀ (h : heapData A) j, items (up lessFunc fuel h j) = items h.
Proof.
  induction fuel as [|fuel IH]; intros h j; simpl; [done|].
  case_match; [done|]. by rewrite IH, Swap_items.
Qed.

Lemma up_Permutation fuel : ∀ (h : heapData A) j,
  queue (up lessFunc fuel h j) ≡ₚ queue h.
Proof.
  induction fuel as [|fuel IH]; intros h j; simpl; [done|].
  case_match; [done|]. by rewrite IH, Swap_Permutation.
Qed.

Lemma down_items fuel : ∀ (h : heapData A) i n,
  items (fst (down lessFunc fuel h i n)) = items h.
Proof.
  induction fuel as [|fuel IH]; intros h i n; simpl; [done|].
  repeat case_match; try done; by rewrite IH, Swap_items.
Qed.

Lemma down_Permutation fuel : ∀ (h : heapData A) i n,
  queue (fst (down lessFunc fuel h i n)) ≡ₚ queue h.
Proof.
  induction fuel as [|fuel IH]; intros h i n; simpl; [done|].
  repeat case_match; try done; by rewrite IH, Swap_Permutation.
Qed.

End sifting.

End heap_facts.

(* ================================================================== *)
(** ** Facts about the movement queue *)
(* ================================================================== *)

Module queue_facts.
Import Go simulator cache newsimulator queue_spec heap_facts.

Lemma FormatInt10_inj z z' : FormatInt10 z = FormatInt10 z' → z = z'.
Proof.
  unfold FormatInt10. intros H. apply DecimalZ.to_int_inj.
  assert (∀ z, NilZero.int_of_string (NilZero.string_of_int (Z.to_int z))
               = Some (Z.to_int z)) as Hparse.
  { intros y. apply NilZero.isi; destruct y as [|p|p]; simpl; try discriminate;
      intros [= Hnil]; by apply (Unsigned.to_uint_nonnil p). }
  pose proof (Hparse z) as H1. rewrite H, Hparse in H1. by simplify_eq.
Qed.

Lemma key_of_eq m m' :
  key_of m = key_of m' ↔ Time_UnixNano (mv_OccursAt m) = Time_UnixNano (mv_OccursAt m').
Proof.
  unfold key_of, occursAtToKey. simpl. split; [apply FormatInt10_inj|by intros ->].
Qed.

Lemma at_index_Swap_j (d : heapData Movement) i j ki kj :
  queue d !! i = Some ki → queue d !! j = Some kj → i ≠ j →
  at_index (Swap d i j) j = at_index d i.
Proof.
  intros Hi Hj Hne. unfold at_index.
  rewrite (Swap_lookup d i j ki kj j Hi Hj Hne), Swap_items, Hi.
  by rewrite decide_True.
Qed.

Lemma at_index_Swap_i (d : heapData Movement) i j ki kj :
  queue d !! i = Some ki → queue d !! j = Some kj → i ≠ j →
  at_index (Swap d i j) i = at_index d j.
Proof.
  intros Hi Hj Hne. unfold at_index.
  rewrite (Swap_lookup d i j ki kj i Hi Hj Hne), Swap_items, Hj.
  rewrite decide_False by done. by rewrite decide_True.
Qed.

Lemma at_index_Swap_other (d : heapData Movement) i j ki kj k :
  queue d !! i = Some ki → queue d !! j = Some kj → i ≠ j → k ≠ i → k ≠ j →
  at_index (Swap d i j) k = at_index d k.
Proof.
  intros Hi Hj Hne Hki Hkj. unfold at_index.
  rewrite (Swap_lookup d i j ki kj k Hi Hj Hne), Swap_items.
  by rewrite !decide_False.
Qed.

Lemma Less_at_index (d : heapData Movement) i j mi mj :
  at_index d i = Some mi → at_index d j = Some mj →
  Less leftMovementIsEarlier d i j = (mv_OccursAt mi <? mv_OccursAt mj).
Proof.
  unfold at_index, Less. intros Hi Hj.
  destruct (queue d !! i) as [ki|]; [|done].
  destruct (queue d !! j) as [kj|]; [|done]. simpl in *.
  by rewrite Hi, Hj.
Qed.

Lemma at_index_present (d : heapData Movement) j :
  (∀ key, key ∈ queue d → is_Some (items d !! key)) →
  (j < length (queue d))%nat →
  ∃ key m, queue d !! j = Some key ∧ at_index d j = Some m.
Proof.
  intros Hall Hj. destruct (lookup_lt_is_Some_2 _ _ Hj) as [key Hkey].
  destruct (Hall key) as [m Hm]; [by eapply list_elem_of_lookup_2|].
  exists key, m. unfold at_index. by rewrite Hkey.
Qed.

(** Sifting up restores the heap order. *)
Lemma up_ordered fuel : ∀ (d : heapData Movement) j,
  (∀ key, key ∈ queue d → is_Some (items d !! key)) →
  (j < fuel)%nat → (j < length (queue d))%nat →
  ordered_except d j →
  heap_ordered (up leftMovementIsEarlier fuel d j).
Proof.
  induction fuel as [|fuel IH]; intros d j Hall Hfuel Hlen [H1 H2]; [lia|].
  cbn [up]. cbv zeta.
  destruct (decide (j = O)) as [->|Hj0].
  { change ((0 - 1) / 2 =? 0)%nat with true. cbn [orb].
    intros k mk mp Hk. apply H1; [done|lia]. }
  assert ((j - 1) / 2 < j)%nat as Hij by nat_div_lia.
  set (i := ((j - 1) / 2)%nat) in *.
  replace (i =? j)%nat with false by (symmetry; apply Nat.eqb_neq; lia).
  destruct (at_index_present d j Hall Hlen) as (kj & mj & Hqj & Hmj).
  destruct (at_index_present d i Hall) as (ki & mi & Hqi & Hmi); [lia|].
  rewrite (Less_at_index d j i mj mi Hmj Hmi). cbn [orb].
  destruct (mv_OccursAt mj <? mv_OccursAt mi) eqn:Hlt; cbn [negb].
  2:{ apply Z.ltb_ge in Hlt. intros k mk mp Hk Hmk Hmp.
      destruct (decide (k = j)) as [->|Hkj]; [|by eapply H1].
      fold i in Hmp. by simplify_eq. }
  apply Z.ltb_lt in Hlt.
  assert (i ≠ j) as Hne by lia.
  apply IH.
  - intros key Hkey. rewrite Swap_items. apply Hall.
    by rewrite <- (Swap_Permutation d i j).
  - lia.
  - rewrite Swap_length. lia.
  - split.
    + intros k mk mp Hk Hki Hmk Hmp.
      destruct (decide (k = j)) as [->|Hkj].
      * fold i in Hmp.
        rewrite (at_index_Swap_j d i j ki kj Hqi Hqj Hne) in Hmk.
        rewrite (at_index_Swap_i d i j ki kj Hqi Hqj Hne) in Hmp.
        simplify_eq. lia.
      * rewrite (at_index_Swap_other d i j ki kj k Hqi Hqj Hne Hki Hkj) in Hmk.
        destruct (decide (((k - 1) / 2)%nat = j)) as [Hpj|Hpj].
        { rewrite Hpj, (at_index_Swap_j d i j ki kj Hqi Hqj Hne) in Hmp.
          simplify_eq. eapply (H2 k mk mi); try done. lia. }
        destruct (decide (((k - 1) / 2)%nat = i)) as [Hpi|Hpi].
        { rewrite Hpi, (at_index_Swap_i d i j ki kj Hqi Hqj Hne) in Hmp.
          simplify_eq.
          assert (mv_OccursAt mi ≤ mv_OccursAt mk); [|lia].
          eapply (H1 k mk mi); try done. by rewrite Hpi. }
        rewrite (at_index_Swap_other d i j ki kj _ Hqi Hqj Hne Hpi Hpj) in Hmp.
        by eapply H1.
    + intros k mk mg Hi Hk Hpk Hmk Hmg.
      assert ((i - 1) / 2 < i)%nat as Hgi by nat_div_lia.
      rewrite (at_index_Swap_other d i j ki kj _ Hqi Hqj Hne) in Hmg by lia.
      assert (mv_OccursAt mg ≤ mv_OccursAt mi) as Hgp
        by (eapply (H1 i mi mg); try done; lia).
      destruct (decide (k = j)) as [->|Hkj].
      * rewrite (at_index_Swap_j d i j ki kj Hqi Hqj Hne) in Hmk. by simplify_eq.
      * assert (k ≠ i) as Hki by nat_div_lia.
        rewrite (at_index_Swap_other d i j ki kj k Hqi Hqj Hne Hki Hkj) in Hmk.
        assert (mv_OccursAt mi ≤ mv_OccursAt mk); [|lia].
        eapply (H1 k mk mi); try done. by rewrite Hpk.
Qed.

(** *** Pushing a new key *)

Lemma well_formed_present d : well_formed d → all_present d.
Proof. intros (_ & Hm & _) key Hkey. by apply Hm. Qed.

Lemma data_Push_at_index d key m k :
  all_present d → items d !! key = None → (k < length (queue d))%nat →
  at_index (data_Push d key m) k = at_index d k.
Proof.
  intros Hall Hnone Hk. unfold at_index, data_Push. simpl.
  rewrite lookup_app_l by done.
  destruct (queue d !! k) as [key'|] eqn:Hq; [|done]. simpl.
  rewrite lookup_insert_ne; [done|]. intros <-.
  destruct (Hall key) as [x Hx]; [by eapply list_elem_of_lookup_2|]. congruence.
Qed.

Lemma at_index_lt d k m : at_index d k = Some m → (k < length (queue d))%nat.
Proof.
  unfold at_index. intros H.
  destruct (queue d !! k) as [key|] eqn:Hq; [|done]. by eapply lookup_lt_Some.
Qed.

Lemma data_Push_ordered_except d key m :
  all_present d → items d !! key = None → heap_ordered d →
  ordered_except (data_Push d key m) (length (queue d)).
Proof.
  intros Hall Hnone Hord. split.
  - intros k mk mp Hk Hne Hmk Hmp.
    pose proof (at_index_lt _ _ _ Hmk) as Hlt. simpl in Hlt.
    rewrite length_app in Hlt. simpl in Hlt.
    assert ((k - 1) / 2 < k)%nat by nat_div_lia.
    rewrite data_Push_at_index in Hmk, Hmp by (done || lia).
    by eapply Hord.
  - intros k mk mg Hj Hk Hpk Hmk _.
    pose proof (at_index_lt _ _ _ Hmk) as Hlt. simpl in Hlt.
    rewrite length_app in Hlt. simpl in Hlt. nat_div_lia.
Qed.

Lemma heap_Push_spec d key m :
  items (heap_Push leftMovementIsEarlier d key m) = <[key := m]> (items d) ∧
  queue (heap_Push leftMovementIsEarlier d key m) ≡ₚ queue d ++ [key].
Proof. unfold heap_Push. by rewrite up_items, up_Permutation. Qed.

Lemma heap_Push_ordered d key m :
  all_present d → items d !! key = None → heap_ordered d →
  heap_ordered (heap_Push leftMovementIsEarlier d key m).
Proof.
  intros Hall Hnone Hord. unfold heap_Push. apply up_ordered.
  - intros k Hk. simpl in *. rewrite lookup_insert. case_decide; [by eexists|].
    apply Hall. apply elem_of_app in Hk as [Hk|Hk]; [done|].
    by apply list_elem_of_singleton in Hk.
  - simpl. rewrite length_app. simpl. lia.
  - simpl. rewrite length_app. simpl. lia.
  - simpl. rewrite length_app. simpl.
    replace (length (queue d) + 1 - 1)%nat with (length (queue d)) by lia.
    by apply data_Push_ordered_except.
Qed.

Lemma heap_Push_well_formed d key m :
  well_formed d → items d !! key = None → key_of m = key →
  well_formed (heap_Push leftMovementIsEarlier d key m).
Proof.
  intros (Hnd & Hmem & Hkey) Hnone Hk.
  destruct (heap_Push_spec d key m) as [Hi Hq].
  assert (key ∉ queue d) as Hfresh.
  { intros Hin. apply Hmem in Hin as [x Hx]. congruence. }
  split_and!.
  - rewrite Hq. apply NoDup_app. split_and!; [done| |apply NoDup_singleton].
    intros x Hx Hx'. apply list_elem_of_singleton in Hx'. by subst.
  - intros k. rewrite Hq, Hi, elem_of_app, list_elem_of_singleton, lookup_insert.
    case_decide; subst.
    + split; [by eexists|by right].
    + rewrite Hmem. split; [by intros [?|?]|by left].
  - intros k m'. rewrite Hi, lookup_insert. case_decide; subst.
    + by intros [= <-].
    + apply Hkey.
Qed.

(** *** The pending movements of a well-formed queue *)

Lemma pending_keys (its : gmap string Movement) (q : list string) :
  (∀ key, key ∈ q → is_Some (its !! key)) →
  (∀ key m, its !! key = Some m → key_of m = key) →
  key_of <$> omap (λ key, its !! key) q = q.
Proof.
  intros Hall Hkey. induction q as [|key q IH]; [done|]. simpl.
  destruct (Hall key) as [m Hm]; [by left|]. rewrite Hm. simpl.
  rewrite (Hkey _ _ Hm). f_equal. apply IH. intros k Hk. apply Hall. by right.
Qed.

Lemma pending_unique mpq :
  well_formed (data (heap mpq)) → NoDup (mv_OccursAt <$> pending mpq).
Proof.
  intros (Hnd & Hmem & Hkey).
  apply (NoDup_fmap_1 (λ t, FormatInt10 (Time_UnixNano t))).
  rewrite <- list_fmap_compose.
  change ((λ t, FormatInt10 (Time_UnixNano t)) ∘ mv_OccursAt) with key_of.
  unfold pending. rewrite pending_keys; [done| |done].
  intros key Hk. by apply Hmem.
Qed.

Lemma same_nanosecond_iff mpq m :
  well_formed (data (heap mpq)) →
  same_nanosecond_pending mpq m ↔ is_Some (items (data (heap mpq)) !! key_of m).
Proof.
  intros (Hnd & Hmem & Hkey). unfold same_nanosecond_pending, pending. split.
  - intros (m' & Hin & Hns). apply list_elem_of_omap in Hin as (k & Hk & Hm').
    apply key_of_eq in Hns. rewrite <- Hns, (Hkey _ _ Hm'). by eexists.
  - intros [m' Hm']. exists m'. split.
    + apply list_elem_of_omap. exists (key_of m). split; [|done].
      apply Hmem. by eexists.
    + apply key_of_eq. by apply Hkey.
Qed.

Lemma pending_pushed (its : gmap string Movement) q q' key m :
  key ∉ q → q' ≡ₚ q ++ [key] →
  omap (λ k, <[key := m]> its !! k) q' ≡ₚ m :: omap (λ k, its !! k) q.
Proof.
  intros Hfresh ->. rewrite omap_app. simpl. rewrite lookup_insert_eq. simpl.
  rewrite <- Permutation_cons_append. f_equiv.
  induction q as [|k q IH]; [done|]. simpl.
  rewrite lookup_insert_ne by (intros <-; apply Hfresh; by left).
  assert (key ∉ q) as Hq by (intros Hin; apply Hfresh; by right).
  destruct (its !! k); [apply Permutation_skip|]; by apply IH.
Qed.

(** *** [EnqueueMovement] *)

Lemma EnqueueMovement_duplicate mpq m :
  is_Some (items (data (heap mpq)) !! key_of m) →
  EnqueueMovement mpq m
  = (mpq, Some "could not add Movement, there is already another movement scheduled at that time"%string).
Proof.
  intros [m' Hm']. unfold EnqueueMovement, GetByKey. simpl.
  unfold key_of in Hm'. simpl in Hm'. by rewrite Hm'.
Qed.

Lemma EnqueueMovement_closed mpq m :
  items (data (heap mpq)) !! key_of m = None → closed (heap mpq) = true →
  EnqueueMovement mpq m = (mpq, Some "heap is closed"%string).
Proof.
  intros Hnone Hclosed. unfold EnqueueMovement, GetByKey, Add. simpl.
  unfold key_of in Hnone. simpl in Hnone. rewrite Hnone, Hclosed.
  by destruct mpq.
Qed.

Lemma EnqueueMovement_pushes mpq m :
  items (data (heap mpq)) !! key_of m = None → closed (heap mpq) = false →
  EnqueueMovement mpq m
  = (mkMovementPQ
       (mkHeap (heap_Push leftMovementIsEarlier (data (heap mpq)) (key_of m) m) false),
     None).
Proof.
  intros Hnone Hopen. unfold EnqueueMovement, GetByKey, Add. simpl.
  unfold key_of in *. simpl in *. by rewrite Hnone, Hopen.
Qed.

Lemma EnqueueMovement_well_formed mpq m mpq' err :
  well_formed (data (heap mpq)) → EnqueueMovement mpq m = (mpq', err) →
  well_formed (data (heap mpq')).
Proof.
  intros Hwf H.
  destruct (items (data (heap mpq)) !! key_of m) as [m'|] eqn:Hm.
  - rewrite EnqueueMovement_duplicate in H by (by eexists). by simplify_eq.
  - destruct (closed (heap mpq)) eqn:Hc.
    + rewrite EnqueueMovement_closed in H by done. by simplify_eq.
    + rewrite EnqueueMovement_pushes in H by done. simplify_eq. simpl.
      by apply heap_Push_well_formed.
Qed.

Lemma EnqueueMovement_ordered mpq m mpq' err :
  well_formed (data (heap mpq)) → heap_ordered (data (heap mpq)) →
  EnqueueMovement mpq m = (mpq', err) →
  heap_ordered (data (heap mpq')).
Proof.
  intros Hwf Hord H.
  destruct (items (data (heap mpq)) !! key_of m) as [m'|] eqn:Hm.
  - rewrite EnqueueMovement_duplicate in H by (by eexists). by simplify_eq.
  - destruct (closed (heap mpq)) eqn:Hc.
    + rewrite EnqueueMovement_closed in H by done. by simplify_eq.
    + rewrite EnqueueMovement_pushes in H by done. simplify_eq. simpl.
      apply heap_Push_ordered; [by apply well_formed_present|done|done].
Qed.

(** *** Sifting down *)

Lemma all_present_Swap d i j : all_present d → all_present (Swap d i j).
Proof.
  intros Hall key Hkey. rewrite Swap_items. apply Hall.
  by rewrite <- (Swap_Permutation d i j).
Qed.

Lemma down_above fuel : ∀ (d : heapData Movement) i n k,
  (i < n)%nat → (n ≤ k)%nat →
  queue (fst (down leftMovementIsEarlier fuel d i n)) !! k = queue d !! k.
Proof.
  induction fuel as [|fuel IH]; intros d i n k Hi Hk; [done|].
  cbn [down]. cbv zeta.
  destruct (n <=? 2 * i + 1)%nat eqn:Hj1; [done|].
  apply Nat.leb_gt in Hj1.
  set (j := if ((2 * i + 1 + 1 <? n)%nat && Less leftMovementIsEarlier d (2 * i + 1 + 1) (2 * i + 1))
            then (2 * i + 1 + 1)%nat else (2 * i + 1)%nat).
  assert (j < n)%nat as Hj.
  { unfold j. destruct (2 * i + 1 + 1 <? n)%nat eqn:Hj2; simpl.
    - apply Nat.ltb_lt in Hj2. case_match; lia.
    - lia. }
  destruct (negb (Less leftMovementIsEarlier d j i)); [done|].
  rewrite IH by lia. unfold Swap.
  destruct (queue d !! i) as [ki|]; [|done].
  destruct (queue d !! j) as [kj|]; [|done]. simpl.
  rewrite !list_lookup_insert_ne by lia. done.
Qed.

Lemma down_ordered fuel : ∀ (d : heapData Movement) i n,
  all_present d → (n ≤ length (queue d))%nat → (n ≤ i + fuel)%nat →
  ordered_below d n i →
  heap_ordered_below (fst (down leftMovementIsEarlier fuel d i n)) n.
Proof.
  induction fuel as [|fuel IH]; intros d i n Hall Hn Hfuel [H1 H2].
  { simpl. intros k mk mp Hk Hkn Hmk Hmp. apply (H1 k mk mp); try done.
    assert ((k - 1) / 2 < k)%nat by nat_div_lia. lia. }
  cbn [down]. cbv zeta.
  destruct (n <=? 2 * i + 1)%nat eqn:Hj1.
  { apply Nat.leb_le in Hj1. simpl. intros k mk mp Hk Hkn Hmk Hmp.
    apply (H1 k mk mp); try done. nat_div_lia. }
  apply Nat.leb_gt in Hj1.
  destruct (at_index_present d i Hall) as (ki & mi & Hqi & Hmi); [lia|].
  destruct (at_index_present d (2 * i + 1) Hall) as (k1 & m1 & Hq1 & Hm1); [lia|].
  assert (∃ j kj mj,
    (if ((2 * i + 1 + 1 <? n)%nat
         && Less leftMovementIsEarlier d (2 * i + 1 + 1) (2 * i + 1))
     then (2 * i + 1 + 1)%nat else (2 * i + 1)%nat) = j ∧
    (j < n)%nat ∧ ((j - 1) / 2)%nat = i ∧ (0 < j)%nat ∧
    queue d !! j = Some kj ∧ at_index d j = Some mj ∧
    (∀ c mc, (0 < c)%nat → (c < n)%nat → ((c - 1) / 2)%nat = i →
       at_index d c = Some mc → mv_OccursAt mj ≤ mv_OccursAt mc))
    as (j & kj & mj & -> & Hjn & Hpj & Hj0 & Hqj & Hmj & Hmin).
  { destruct (2 * i + 1 + 1 <? n)%nat eqn:Hj2; cbn [andb].
    - apply Nat.ltb_lt in Hj2.
      destruct (at_index_present d (2 * i + 1 + 1) Hall) as (k2 & m2 & Hq2 & Hm2); [lia|].
      rewrite (Less_at_index d _ _ m2 m1 Hm2 Hm1).
      destruct (mv_OccursAt m2 <? mv_OccursAt m1) eqn:Hlt.
      + apply Z.ltb_lt in Hlt. exists (2 * i + 1 + 1)%nat, k2, m2.
        split_and!; try done; try nat_div_lia.
        intros c mc Hc0 Hcn Hpc Hmc.
        assert (c = 2 * i + 1 ∨ c = 2 * i + 1 + 1)%nat as [->| ->] by nat_div_lia;
          simplify_eq; lia.
      + apply Z.ltb_ge in Hlt. exists (2 * i + 1)%nat, k1, m1.
        split_and!; try done; try nat_div_lia.
        intros c mc Hc0 Hcn Hpc Hmc.
        assert (c = 2 * i + 1 ∨ c = 2 * i + 1 + 1)%nat as [->| ->] by nat_div_lia;
          simplify_eq; lia.
    - apply Nat.ltb_ge in Hj2. exists (2 * i + 1)%nat, k1, m1.
      split_and!; try done; try nat_div_lia.
      intros c mc Hc0 Hcn Hpc Hmc.
      assert (c = 2 * i + 1)%nat as -> by nat_div_lia. simplify_eq. lia. }
  rewrite (Less_at_index d j i mj mi Hmj Hmi).
  destruct (mv_OccursAt mj <? mv_OccursAt mi) eqn:Hlt; cbn [negb].
  2:{ apply Z.ltb_ge in Hlt. simpl. intros k mk mp Hk Hkn Hmk Hmp.
      destruct (decide (((k - 1) / 2)%nat = i)) as [Hpk|Hpk]; [|by eapply H1].
      rewrite Hpk in Hmp. simplify_eq.
      pose proof (Hmin k mk Hk Hkn Hpk Hmk). lia. }
  apply Z.ltb_lt in Hlt.
  assert (i ≠ j) as Hne by nat_div_lia.
  apply IH.
  - by apply all_present_Swap.
  - by rewrite Swap_length.
  - nat_div_lia.
  - split.
    + intros k mk mp Hk Hkn Hpk Hmk Hmp.
      destruct (decide (k = j)) as [->|Hkj].
      { rewrite Hpj in Hmp.
        rewrite (at_index_Swap_j d i j ki kj Hqi Hqj Hne) in Hmk.
        rewrite (at_index_Swap_i d i j ki kj Hqi Hqj Hne) in Hmp.
        simplify_eq. lia. }
      destruct (decide (k = i)) as [->|Hki].
      { assert ((i - 1) / 2 < i)%nat by nat_div_lia.
        rewrite (at_index_Swap_i d i j ki kj Hqi Hqj Hne) in Hmk.
        rewrite (at_index_Swap_other d i j ki kj _ Hqi Hqj Hne) in Hmp by lia.
        simplify_eq. eapply (H2 j); try done; lia. }
      rewrite (at_index_Swap_other d i j ki kj k Hqi Hqj Hne Hki Hkj) in Hmk.
      destruct (decide (((k - 1) / 2)%nat = i)) as [Hpi|Hpi].
      { rewrite Hpi, (at_index_Swap_i d i j ki kj Hqi Hqj Hne) in Hmp.
        simplify_eq. by eapply Hmin. }
      rewrite (at_index_Swap_other d i j ki kj _ Hqi Hqj Hne Hpi Hpk) in Hmp.
      by eapply H1.
    + intros k mk mg _ Hk Hkn Hpk Hmk Hmg.
      rewrite Hpj, (at_index_Swap_i d i j ki kj Hqi Hqj Hne) in Hmg.
      rewrite (at_index_Swap_other d i j ki kj k Hqi Hqj Hne) in Hmk by nat_div_lia.
      simplify_eq. eapply (H1 k); try done; lia.
Qed.

(** *** Popping the root *)

Lemma well_formed_nonempty d :
  well_formed d → queue d ≠ [] →
  ∃ k0 m0, queue d !! O = Some k0 ∧ items d !! k0 = Some m0 ∧ at_index d O = Some m0.
Proof.
  intros (_ & Hmem & _) Hne. destruct (queue d) as [|k0 q] eqn:Hq; [done|].
  destruct (Hmem k0) as [[m0 Hm0] _]; [by left|].
  exists k0, m0. unfold at_index. rewrite Hq. simpl. by rewrite Hm0.
Qed.

Lemma heap_Pop_unfold (d : heapData Movement) :
  heap_Pop leftMovementIsEarlier d
  = data_Pop (fst (down leftMovementIsEarlier (S (length (queue d) - 1))
                     (Swap d 0 (length (queue d) - 1)) 0 (length (queue d) - 1))).
Proof. unfold heap_Pop. by destruct (down _ _ _ _ _). Qed.

Lemma sifted_last d k0 :
  queue d !! O = Some k0 →
  let n := (length (queue d) - 1)%nat in
  queue (fst (down leftMovementIsEarlier (S n) (Swap d 0 n) 0 n)) !! n = Some k0.
Proof.
  intros H0 n. pose proof (lookup_lt_Some _ _ _ H0) as Hlen.
  destruct (decide (n = O)) as [Hn|Hn].
  - rewrite Hn. simpl. unfold Swap. rewrite H0. simpl.
    rewrite list_lookup_insert_eq; [done|]. by rewrite length_insert.
  - destruct (lookup_lt_is_Some_2 (queue d) n) as [kn Hkn]; [lia|].
    rewrite down_above by lia.
    rewrite (Swap_lookup d 0 n k0 kn n H0 Hkn) by lia. by rewrite decide_True.
Qed.

Lemma swapped_ordered_below d :
  heap_ordered d →
  let n := (length (queue d) - 1)%nat in
  ordered_below (Swap d 0 n) n 0.
Proof.
  intros Hord n. split; [|intros; lia].
  intros k mk mp Hk Hkn Hpk Hmk Hmp.
  destruct (lookup_lt_is_Some_2 (queue d) O) as [k0 Hk0]; [lia|].
  destruct (lookup_lt_is_Some_2 (queue d) n) as [kn Hkn']; [lia|].
  assert ((k - 1) / 2 < k)%nat by nat_div_lia.
  rewrite (at_index_Swap_other d 0 n k0 kn) in Hmk, Hmp by (done || lia).
  by eapply Hord.
Qed.

Lemma heap_Pop_spec d :
  well_formed d → heap_ordered d → queue d ≠ [] →
  ∃ k0 m0 d',
    queue d !! O = Some k0 ∧ items d !! k0 = Some m0 ∧
    heap_Pop leftMovementIsEarlier d = (Some m0, d') ∧
    items d' = delete k0 (items d) ∧ k0 :: queue d' ≡ₚ queue d ∧
    well_formed d' ∧ heap_ordered d'.
Proof.
  intros Hwf Hord Hne.
  destruct (well_formed_nonempty d Hwf Hne) as (k0 & m0 & Hk0 & Hm0 & _).
  exists k0, m0. rewrite heap_Pop_unfold.
  pose proof (sifted_last d k0 Hk0) as Hlast.
  pose proof (swapped_ordered_below d Hord) as Hbelow.
  set (n := (length (queue d) - 1)%nat) in *. cbv zeta in Hlast, Hbelow.
  pose proof (lookup_lt_Some _ _ _ Hk0) as Hlen.
  set (d2 := fst (down leftMovementIsEarlier (S n) (Swap d 0 n) 0 n)) in *.
  assert (items d2 = items d) as Hi2 by (unfold d2; by rewrite down_items, Swap_items).
  assert (queue d2 ≡ₚ queue d) as Hq2
    by (unfold d2; by rewrite down_Permutation, Swap_Permutation).
  assert (length (queue d2) = S n) as Hlen2
    by (rewrite (Permutation_length Hq2); unfold n; lia).
  assert (heap_ordered_below d2 n) as Hord2.
  { unfold d2. apply down_ordered; try done.
    - apply all_present_Swap. by apply well_formed_present.
    - rewrite Swap_length. unfold n. lia.
    - lia. }
  assert (queue d2 = take n (queue d2) ++ [k0]) as Hsplit.
  { rewrite <- (take_drop_middle _ _ _ Hlast) at 1. f_equal. f_equal.
    apply drop_ge. lia. }
  destruct Hwf as (Hnd & Hmem & Hkey).
  assert (NoDup (take n (queue d2) ++ [k0])) as Hnd2
    by (rewrite <- Hsplit, Hq2; done).
  apply NoDup_app in Hnd2 as (Hnd' & Hfresh & _).
  assert (∀ k, k ∈ take n (queue d2) → k ≠ k0) as Hother.
  { intros k Hk ->. apply (Hfresh k0 Hk). by apply list_elem_of_singleton. }
  set (d' := mkHeapData (delete k0 (items d)) (take n (queue d2))).
  assert (data_Pop d2 = (Some m0, d')) as HPop.
  { unfold data_Pop. rewrite last_lookup, Hlen2. simpl. rewrite Hlast, Hi2, Hm0.
    unfold d'. do 3 f_equal. lia. }
  exists d'. split_and!; try done.
  - simpl. transitivity (take n (queue d2) ++ [k0]);
      [apply Permutation_cons_append|by rewrite <- Hsplit].
  - split_and!; simpl.
    + done.
    + intros k. split.
      * intros Hk. rewrite lookup_delete_ne by (symmetry; by apply Hother).
        apply Hmem. rewrite <- Hq2, Hsplit. apply elem_of_app. by left.
      * intros [m Hm]. apply lookup_delete_Some in Hm as [Hne' Hm].
        assert (k ∈ queue d2) as Hin by (rewrite Hq2; apply Hmem; by eexists).
        rewrite Hsplit in Hin. apply elem_of_app in Hin as [Hin|Hin]; [done|].
        apply list_elem_of_singleton in Hin. congruence.
    + intros k m Hm. apply lookup_delete_Some in Hm as [_ Hm]. by eapply Hkey.
  - assert (∀ j m, at_index d' j = Some m → (j < n)%nat ∧ at_index d2 j = Some m)
      as Hsame.
    { intros j m Hj. unfold at_index in *. simpl in Hj.
      destruct (take n (queue d2) !! j) as [kj|] eqn:Hkj; [|done]. simpl in Hj.
      pose proof (lookup_lt_Some _ _ _ Hkj) as Hjn. rewrite length_take in Hjn.
      split; [lia|].
      rewrite lookup_take_lt in Hkj by lia. rewrite Hkj. simpl. rewrite Hi2.
      apply lookup_delete_Some in Hj as [_ Hj]. done. }
    intros j mj mp Hj Hmj Hmp.
    apply Hsame in Hmj as [Hjn Hmj]. apply Hsame in Hmp as [_ Hmp].
    by eapply Hord2.
Qed.

(** The root of a heap-ordered queue is its earliest movement. *)
Lemma root_is_earliest d m0 :
  all_present d → heap_ordered d → at_index d O = Some m0 →
  ∀ k mk, at_index d k = Some mk → mv_OccursAt m0 ≤ mv_OccursAt mk.
Proof.
  intros Hall Hord H0 k. induction (lt_wf k) as [k _ IH]. intros mk Hmk.
  destruct (decide (k = O)) as [->|Hk]; [simplify_eq; lia|].
  assert ((k - 1) / 2 < k)%nat as Hp by nat_div_lia.
  pose proof (at_index_lt _ _ _ Hmk) as Hlt.
  destruct (at_index_present d ((k - 1) / 2) Hall) as (kp & mp & _ & Hmp); [lia|].
  pose proof (IH _ Hp mp Hmp). pose proof (Hord k mk mp ltac:(lia) Hmk Hmp). lia.
Qed.

(** *** Invariants of the queue *)

Lemma queue_reachable_invariant mpq :
  queue_reachable mpq →
  well_formed (data (heap mpq)) ∧ heap_ordered (data (heap mpq)).
Proof.
  induction 1 as [|mpq m mpq' err _ [Hwf Hord] Henq
                  |mpq m mpq' _ [Hwf Hord] Hdeq|mpq _ IH].
  - split.
    + split_and!; simpl.
      * apply NoDup_nil_2.
      * intros k. rewrite lookup_empty. split; [by intros ?%elem_of_nil|by intros [? ?]].
      * intros k m. by rewrite lookup_empty.
    + intros j mj mp _ Hmj. by unfold at_index in Hmj.
  - split; [by eapply EnqueueMovement_well_formed|by eapply EnqueueMovement_ordered].
  - unfold DequeueMovement, Pop in Hdeq.
    destruct (queue (data (heap mpq))) as [|k q] eqn:Hq.
    { repeat case_match; simplify_eq. }
    destruct (heap_Pop_spec (data (heap mpq)) Hwf Hord)
      as (k0 & m0 & d' & _ & _ & HPop & _ & _ & Hwf' & Hord'); [by rewrite Hq|].
    rewrite HPop in Hdeq. by simplify_eq.
  - done.
Qed.

Lemma pending_in mpq m :
  m ∈ pending mpq ↔ ∃ j, at_index (data (heap mpq)) j = Some m.
Proof.
  unfold pending, at_index. rewrite list_elem_of_omap. split.
  - intros (k & Hk & Hm). apply list_elem_of_lookup in Hk as [j Hj].
    exists j. by rewrite Hj.
  - intros [j Hj]. destruct (queue (data (heap mpq)) !! j) as [k|] eqn:Hk; [|done].
    exists k. split; [by eapply list_elem_of_lookup_2|done].
Qed.

Lemma pending_popped (its : gmap string Movement) k0 (q : list string) :
  k0 ∉ q → omap (λ k, its !! k) q = omap (λ k, delete k0 its !! k) q.
Proof.
  induction q as [|k q IH]; intros Hfresh; [done|].
  assert (k0 ∉ q) as Hq by (intros Hin; apply Hfresh; by right).
  cbn [omap list_omap].
  rewrite lookup_delete_ne by (intros <-; apply Hfresh; by left).
  destruct (its !! k); [f_equal|]; by apply IH.
Qed.

(** [DequeueMovement] on a queue with movements pending returns the
    earliest of them and leaves the others pending. *)
Lemma DequeueMovement_earliest mpq :
  queue_reachable mpq → pending mpq ≠ [] →
  ∃ m mpq',
    DequeueMovement mpq = DequeuedMovement m mpq' ∧
    pending mpq ≡ₚ m :: pending mpq' ∧
    ∀ other, other ∈ pending mpq → mv_OccursAt m ≤ mv_OccursAt other.
Proof.
  intros Hreach Hne.
  destruct (queue_reachable_invariant mpq Hreach) as [Hwf Hord].
  assert (queue (data (heap mpq)) ≠ []) as Hq.
  { intros Hnil. apply Hne. unfold pending. by rewrite Hnil. }
  destruct (heap_Pop_spec _ Hwf Hord Hq)
    as (k0 & m0 & d' & Hk0 & Hm0 & HPop & Hi' & Hq' & Hwf' & _).
  exists m0, (mkMovementPQ (mkHeap d' (closed (heap mpq)))). split_and!.
  - unfold DequeueMovement, Pop. rewrite HPop.
    by destruct (queue (data (heap mpq))).
  - unfold pending. simpl. rewrite <- Hq'. simpl. rewrite Hm0. f_equiv.
    rewrite Hi'. destruct Hwf as (Hnd & _). rewrite <- Hq' in Hnd.
    apply NoDup_cons in Hnd as [Hfresh _].
    by rewrite <- (pending_popped _ k0).
  - intros other Hin. apply pending_in in Hin as [j Hj].
    eapply (root_is_earliest (data (heap mpq)) m0);
      [by apply well_formed_present|done| |done].
    unfold at_index. rewrite Hk0. simpl. done.
Qed.

Lemma enqueued_reachable ts : ∀ mpq,
  queue_reachable mpq → queue_reachable (enqueued ts mpq).
Proof.
  induction ts as [|t ts IH]; intros mpq Hreach; [done|]. simpl. apply IH.
  eapply reachable_enqueue; [done|]. apply surjective_pairing.
Qed.

End queue_facts.

(* ================================================================== *)
(** ** Claims about the movement queue *)
(* ================================================================== *)

Module queue_claims.
Import Go simulator cache newsimulator queue_spec heap_facts queue_facts.

(** C5, as the code has it (section 4.1, invariant I5).  In every state of
    the queue no two pending movements share a nanosecond.
    [EnqueueMovement] returns an error and leaves the queue as it is when
    a pending movement occurs at the nanosecond of the new one, and also
    when the queue has been closed.  Otherwise it returns no error, the
    new movement is pending with the others, the queue is a min-heap
    ordered by [OccursAt] whose first movement is the earliest, and still
    no two pending movements share a nanosecond. *)
Theorem C5_enqueue_movement (mpq : movementPQ) (movement : Movement) :
  queue_reachable mpq →
  NoDup (mv_OccursAt <$> pending mpq) ∧
  (same_nanosecond_pending mpq movement →
     ∃ err, EnqueueMovement mpq movement = (mpq, Some err)) ∧
  (IsClosed mpq = true →
     ∃ err, EnqueueMovement mpq movement = (mpq, Some err)) ∧
  (¬ same_nanosecond_pending mpq movement → IsClosed mpq = false →
     ∃ mpq',
       EnqueueMovement mpq movement = (mpq', None) ∧
       pending mpq' ≡ₚ movement :: pending mpq ∧
       heap_ordered (data (heap mpq')) ∧
       (∀ first, at_index (data (heap mpq')) 0 = Some first →
          ∀ other, other ∈ pending mpq' → mv_OccursAt first ≤ mv_OccursAt other) ∧
       NoDup (mv_OccursAt <$> pending mpq')).
Proof.
  intros Hreach.
  destruct (queue_reachable_invariant mpq Hreach) as [Hwf Hord].
  split_and!.
  - by apply pending_unique.
  - intros Hsame. apply same_nanosecond_iff in Hsame; [|done].
    eexists. by apply EnqueueMovement_duplicate.
  - intros Hclosed.
    destruct (items (data (heap mpq)) !! key_of movement) as [m'|] eqn:Hm.
    + eexists. apply EnqueueMovement_duplicate. by eexists.
    + eexists. by apply EnqueueMovement_closed.
  - intros Hnew Hopen.
    assert (items (data (heap mpq)) !! key_of movement = None) as Hnone.
    { destruct (items (data (heap mpq)) !! key_of movement) as [m'|] eqn:Hm; [|done].
      exfalso. apply Hnew. apply same_nanosecond_iff; [done|]. by eexists. }
    pose proof (EnqueueMovement_pushes mpq movement Hnone Hopen) as Henq.
    eexists. split; [exact Henq|].
    assert (queue_reachable
              (mkMovementPQ
                 (mkHeap (heap_Push leftMovementIsEarlier (data (heap mpq))
                            (key_of movement) movement) false))) as Hreach'
      by (by eapply reachable_enqueue).
    destruct (queue_reachable_invariant _ Hreach') as [Hwf' Hord'].
    split_and!.
    + unfold pending. simpl.
      destruct (heap_Push_spec (data (heap mpq)) (key_of movement) movement)
        as [-> Hq].
      apply pending_pushed; [|done]. destruct Hwf as (_ & Hmem & _).
      intros Hin. apply Hmem in Hin as [x Hx]. congruence.
    + done.
    + intros first Hfirst other Hin. apply pending_in in Hin as [j Hj].
      eapply root_is_earliest; [by apply well_formed_present|done|done|done].
    + by apply pending_unique.
Qed.

Lemma C5_enqueue_movement_witness :
  queue_reachable (enqueued [5; 3; 8] NewMovementPriorityQueue) ∧
  ¬ same_nanosecond_pending (enqueued [5; 3; 8] NewMovementPriorityQueue) (movement_at 1) ∧
  IsClosed (enqueued [5; 3; 8] NewMovementPriorityQueue) = false ∧
  ∃ mpq',
    EnqueueMovement (enqueued [5; 3; 8] NewMovementPriorityQueue) (movement_at 1)
      = (mpq', None) ∧
    pending mpq' ≡ₚ movement_at 1 :: pending (enqueued [5; 3; 8] NewMovementPriorityQueue).
Proof.
  assert (queue_reachable (enqueued [5; 3; 8] NewMovementPriorityQueue)) as Hreach
    by (apply enqueued_reachable, reachable_queue_new).
  assert (¬ same_nanosecond_pending (enqueued [5; 3; 8] NewMovementPriorityQueue)
            (movement_at 1)) as Hnew.
  { intros (other & Hin & Hns). vm_compute in Hin.
    repeat (apply elem_of_cons in Hin as [->|Hin]; [by vm_compute in Hns|]).
    by apply elem_of_nil in Hin. }
  split; [exact Hreach|]. split; [exact Hnew|]. split; [reflexivity|].
  destruct (C5_enqueue_movement _ (movement_at 1) Hreach) as (_ & _ & _ & Hpush).
  destruct (Hpush Hnew eq_refl) as (mpq' & Henq & Hperm & _).
  exists mpq'. split; [exact Henq|exact Hperm].
Defined.

(** C5, as stated, fails on a closed queue: with one movement pending at
    5ns and the queue closed, a movement at 7ns shares its nanosecond
    with nothing pending, and yet [EnqueueMovement] returns the heap's
    error and inserts nothing. *)
Lemma C5_closed_queue_inserts_nothing :
  let mpq := Close (enqueued [5] NewMovementPriorityQueue) in
  queue_reachable mpq ∧
  pending mpq = [movement_at 5] ∧
  Time_UnixNano (mv_OccursAt (movement_at 5)) ≠ Time_UnixNano (mv_OccursAt (movement_at 7)) ∧
  EnqueueMovement mpq (movement_at 7) = (mpq, Some "heap is closed"%string) ∧
  movement_at 7 ∉ pending (fst (EnqueueMovement mpq (movement_at 7))).
Proof.
  split_and!.
  - apply reachable_close, enqueued_reachable, reachable_queue_new.
  - vm_compute. reflexivity.
  - by vm_compute.
  - vm_compute. reflexivity.
  - vm_compute. intros Hin. apply list_elem_of_singleton in Hin. discriminate.
Qed.

End queue_claims.

(* ================================================================== *)
(** ** Further facts about the processing stock *)
(* ================================================================== *)

Module processing_further.
Import Go simulator model kernel processing_spec processing_facts runs.
Import model_rest further_spec processing_claims.

(** *** What one call of [Add] changes *)

Lemma same_fields_trans w1 w2 w3 :
  same_fields w1 w2 → same_fields w2 w3 → same_fields w1 w3.
Proof.
  unfold same_fields. intros (?&?&?&?&?&?&?) (?&?&?&?&?&?&?).
  split_and!; congruence.
Qed.

Lemma enqueue_or_complete_fields w entity a now r :
  Add_enqueue_or_complete w entity a now = Some r →
  same_fields w (match r with inl w1 => w1 | inr (w1, _) => w1 end).
Proof.
  unfold Add_enqueue_or_complete, ts_Add, same_fields. intros H.
  destruct (store w !! a) as [req|]; simpl in H; [|done].
  repeat case_match; simplify_eq/=; done.
Qed.

Lemma fill_cpu_fields w entity now w' err :
  Add_fill_cpu w entity now = Returned w' err → same_fields w w'.
Proof.
  unfold Add_fill_cpu, ts_Add, ts_Remove, AddToSchedule, same_fields. intros H.
  repeat case_match; simplify_eq/=; done.
Qed.

Lemma started_fields w a : same_fields w (started w a).
Proof. unfold started, same_fields. repeat case_match; done. Qed.

Lemma Add_fields w entity w' err :
  Add w entity = Returned w' err → same_fields w w'.
Proof.
  intros HAdd. destruct entity as [id n k|a]; [simpl in HAdd; by simplify_eq|].
  destruct (store w !! a) as [req|] eqn:Hreq;
    [|by unfold Add in HAdd; rewrite Hreq in HAdd].
  rewrite (Add_blocks _ _ _ Hreq) in HAdd.
  apply (same_fields_trans _ (started w a)); [apply started_fields|].
  destruct (Add_enqueue_or_complete _ _ _ _) as [[w1|[w1 e1]]|] eqn:Hblock; [| |done].
  - apply enqueue_or_complete_fields in Hblock.
    apply (same_fields_trans _ w1); [done|]. by eapply fill_cpu_fields.
  - apply enqueue_or_complete_fields in Hblock. by simplify_eq.
Qed.

Lemma started_store w a b :
  store (started w a) !! b
  = admitted (TheTime (env w)) (RequestPtr a) b <$> store w !! b.
Proof.
  unfold started, admitted, CurrentMovementTime.
  destruct (store w !! a) as [req|] eqn:Hreq.
  - destruct (startTime req) as [t|] eqn:Hstart.
    + destruct (store w !! b) as [rb|] eqn:Hb; [|done]. simpl.
      case_decide as Hd; [|done]. destruct Hd as [[= ->] Hnone]. congruence.
    + simpl. destruct (decide (b = a)) as [->|Hne].
      * rewrite lookup_insert_eq, Hreq. simpl. by rewrite decide_True.
      * rewrite lookup_insert_ne by done.
        destruct (store w !! b) as [rb|]; [|done]. simpl.
        rewrite decide_False; [done|]. intros [[= ->] _]. done.
  - destruct (store w !! b) as [rb|] eqn:Hb; [|done]. simpl.
    case_decide as Hd; [|done]. destruct Hd as [[= ->] _]. congruence.
Qed.

Lemma quantum_admitted now entity b rb :
  quantum (admitted now entity b rb) = quantum rb ∧
  cpuSecondsConsumed (admitted now entity b rb) = cpuSecondsConsumed rb ∧
  cpuSecondsRequired (admitted now entity b rb) = cpuSecondsRequired rb.
Proof. unfold admitted. by case_decide. Qed.

Lemma enqueue_or_complete_cases w entity a now r :
  Add_enqueue_or_complete w entity a now = Some r →
  ∃ req, store w !! a = Some req ∧
  match r with
  | inr (w1, _) => w1 = w
  | inl w1 =>
      (0 < cpuSecondsRemaining req ∧ Movements (env w1) = Movements (env w) ∧
       processesTerminated (rps w1) = processesTerminated (rps w)) ∨
      (cpuSecondsRemaining req ≤ 0 ∧
       Movements (env w1) = Movements (env w) ++ [complete_request_at now] ∧
       ts_entities (processesTerminated (rps w1))
         = ts_entities (processesTerminated (rps w)) ++ [entity])
  end.
Proof.
  unfold Add_enqueue_or_complete, ts_Add, AddToSchedule, complete_request_at.
  intros H. destruct (store w !! a) as [req|]; simpl in H; [|done].
  exists req. split; [done|].
  destruct (0 <? cpuSecondsRemaining req) eqn:Hrem.
  - apply Z.ltb_lt in Hrem. repeat case_match; simplify_eq/=; [by left|done].
  - apply Z.ltb_ge in Hrem. repeat case_match; simplify_eq/=; [by right|done].
Qed.

(** One call of [Add], seen from outside: what happens to each request
    record, to [terminated], to the schedule and to the usage log. *)
Lemma Add_effect w entity w' err :
  Add w entity = Returned w' err →
  let now := TheTime (env w) in
  (∀ b, store w' !! b = (admitted now entity b <$> store w !! b) ∨
        ∃ rb, store w !! b = Some rb ∧
              store w' !! b = Some (charged (admitted now entity b rb))) ∧
  (ts_entities (processesTerminated (rps w')) = ts_entities (processesTerminated (rps w)) ∨
   ∃ a req, entity = RequestPtr a ∧ store w !! a = Some req ∧
            cpuSecondsRemaining req ≤ 0 ∧
            ts_entities (processesTerminated (rps w'))
              = ts_entities (processesTerminated (rps w)) ++ [entity]) ∧
  ∃ completes interrupts,
    Movements (env w') = Movements (env w) ++ completes ++ interrupts ∧
    (completes = [] ∨ completes = [complete_request_at now]) ∧
    ((interrupts = [] ∧
      activeTimeSlices (rps_cpuUsage (rps w')) = activeTimeSlices (rps_cpuUsage (rps w)))
     ∨ ∃ b rb, store w !! b = Some rb ∧
         interrupts = [interrupt_process_at (now + quantum rb)] ∧
         activeTimeSlices (rps_cpuUsage (rps w'))
           = activeTimeSlices (rps_cpuUsage (rps w)) ++ [(now, now + quantum rb)]).
Proof.
  intros HAdd now.
  destruct entity as [id n k|a].
  { simpl in HAdd. simplify_eq. split_and!.
    - intros b. left. destruct (store w' !! b) as [rb|]; [|done]. simpl.
      unfold admitted. rewrite decide_False; [done|]. by intros [? _].
    - by left.
    - exists [], []. rewrite !app_nil_r. split_and!; [done|by left|by left]. }
  destruct (store w !! a) as [req|] eqn:Hreq;
    [|by unfold Add in HAdd; rewrite Hreq in HAdd].
  rewrite (Add_blocks _ _ _ Hreq) in HAdd. fold now in HAdd.
  destruct (started_frame w a) as [Henv Hrps].
  pose proof (started_store w a) as Hstore. fold now in Hstore.
  destruct (Add_enqueue_or_complete _ _ _ _) as [[w1|[w1 e1]]|] eqn:Hblock; [| |done].
  2:{ apply enqueue_or_complete_cases in Hblock as (_ & _ & ->). simplify_eq.
      rewrite Henv, Hrps. split_and!.
      - intros b. left. apply Hstore.
      - by left.
      - exists [], []. rewrite !app_nil_r. split_and!; [done|by left|by left]. }
  pose proof (enqueue_or_complete_frame _ _ _ _ _ Hblock) as (Hst1 & _ & Hlog1 & _).
  apply enqueue_or_complete_cases in Hblock as (req0 & Hreq0 & Hcases).
  simpl in Hst1, Hlog1. rewrite Hrps in Hlog1. rewrite Henv, Hrps in Hcases.
  assert (cpuSecondsRemaining req0 = cpuSecondsRemaining req) as Hrem.
  { rewrite Hstore, Hreq in Hreq0. simpl in Hreq0. simplify_eq.
    unfold cpuSecondsRemaining.
    by destruct (quantum_admitted now (RequestPtr a) a req) as (_ & -> & ->). }
  rewrite Hrem in Hcases.
  assert (∃ completes,
    Movements (env w1) = Movements (env w) ++ completes ∧
    (completes = [] ∨ completes = [complete_request_at now]) ∧
    (ts_entities (processesTerminated (rps w1))
       = ts_entities (processesTerminated (rps w)) ∨
     ∃ a0 req1, RequestPtr a = RequestPtr a0 ∧ store w !! a0 = Some req1 ∧
       cpuSecondsRemaining req1 ≤ 0 ∧
       ts_entities (processesTerminated (rps w1))
         = ts_entities (processesTerminated (rps w)) ++ [RequestPtr a]))
    as (completes & Hm1 & Hcs & Hterm1).
  { destruct Hcases as [(_ & Hm & Ht)|(Hle & Hm & Ht)].
    - exists []. rewrite app_nil_r, Ht. split_and!; [done|by left|by left].
    - exists [complete_request_at now]. split_and!; [done|by right|].
      right. by exists a, req. }
  apply fill_cpu_cases in HAdd
    as [(-> & _ & _)|(b0 & rb0 & rest & _ & _ & Hb0 & Hst' & Hm' & _ & _ & _ & Hterm' & Hlog' & _)].
  - split_and!.
    + intros b. left. rewrite Hst1. apply Hstore.
    + done.
    + exists completes, []. rewrite app_nil_r. split_and!; [done|done|left; by rewrite Hlog1].
  - rewrite Hst1, Hstore in Hb0.
    destruct (store w !! b0) as [rb|] eqn:Hrb; [|done]. simpl in Hb0. simplify_eq.
    destruct (quantum_admitted now (RequestPtr a) b0 rb) as (Hq & _).
    split_and!.
    + intros b. rewrite Hst', Hst1. destruct (decide (b = b0)) as [->|Hne].
      * right. exists rb. by rewrite lookup_insert_eq.
      * left. rewrite lookup_insert_ne by done. apply Hstore.
    + by rewrite Hterm'.
    + exists completes, [interrupt_process_at (now + quantum rb)].
      split_and!; [|done|].
      * rewrite Hm', Hm1, Hq, <- app_assoc. done.
      * right. exists b0, rb. split_and!; [done|done|].
        by rewrite Hlog', Hlog1, Hq.
Qed.

(** *** The three movements, as the world handed to [Add] *)

(** Every movement advances the clock, prepares a world [w0] and, unless
    the source stock was empty or the destination is the sink, calls
    [Add] on it. *)
Lemma step_shape w w' :
  sound w → step w w' →
  ∃ now w0 entity,
    TheTime (env w) ≤ now ∧ env w0 = at_time (env w) now ∧
    ((store w0 = store w ∧
      ∀ a, entity = Some (RequestPtr a) → is_Some (store w !! a)) ∨
     (∃ a req, store w !! a = None ∧ new_request req ∧
        store w0 = <[a := req]> (store w) ∧ entity = Some (RequestPtr a))) ∧
    replicaNumber (rps w0) = replicaNumber (rps w) ∧
    numRequestsSinceLast (rps w0) = numRequestsSinceLast (rps w) ∧
    processesActive (rps w0) = processesActive (rps w) ∧
    rps_cpuUsage (rps w0) = rps_cpuUsage (rps w) ∧
    (∀ e, e ∈ ts_entities (processesTerminated (rps w0)) →
          e ∈ ts_entities (processesTerminated (rps w))) ∧
    match entity with
    | Some e => ∃ err, Add w0 e = Returned w' err
    | None => w' = w0
    end.
Proof.
  intros Hs [a req now err Hfresh Hnew Hnow Harr|now err Hnow Hint|now err Hnow Hcomp];
    exists now.
  - exists (mkWorld (<[a := req]> (store w)) (at_time (env w) now) (rps w)),
      (Some (RequestPtr a)).
    split_and!; try done; [|by exists err].
    right. by exists a, req.
  - unfold interrupt, ts_Remove in Hint.
    destruct Hs as (_ & [_ Hall] & _).
    destruct (ts_entities (processesOnCpu (rps w))) as [|e rest] eqn:Hq.
    + simplify_eq. exists (set_env w (at_time (env w) now)), None.
      split_and!; try done. by left.
    + destruct (Hall e) as (b & -> & Hb); [by left|].
      match type of Hint with Add ?w0 _ = _ => exists w0, (Some (RequestPtr b)) end.
      split_and!; try done; [|by exists err].
      left. split; [done|]. by intros ? [= <-].
  - unfold complete in Hcomp. simplify_eq.
    exists (snd (Remove (set_env w (at_time (env w) now)))), None.
    unfold Remove, ts_Remove. simpl.
    destruct (0 <? _);
      destruct (ts_entities (processesTerminated (rps w))) as [|e rest] eqn:Hq; simpl;
      (split_and!; try done; [by left|]); rewrite ?Hq; try done.
    intros e' He'. by right.
Qed.

Lemma step_shape_budget w now w0 (entity : option Entity) :
  store_within_budget (store w) →
  ((store w0 = store w ∧
    ∀ a, entity = Some (RequestPtr a) → is_Some (store w !! a)) ∨
   (∃ a req, store w !! a = None ∧ new_request req ∧
      store w0 = <[a := req]> (store w) ∧ entity = Some (RequestPtr a))) →
  TheTime (env w) ≤ now →
  store_within_budget (store w0).
Proof.
  intros Hb [[-> _]|(a & req & _ & Hnew & -> & _)] _; [done|].
  apply store_within_budget_insert; [done|]. by apply new_request_within_budget.
Qed.

Lemma reachable_within_budget w : reachable w → store_within_budget (store w).
Proof.
  induction 1 as [fe n c|w w' _ IH Hstep].
  - intros a req. simpl. by rewrite lookup_empty.
  - by eapply step_within_budget.
Qed.

Lemma quantum_bounds req :
  within_budget req → 0 ≤ quantum req ≤ 200 * Millisecond.
Proof.
  intros Hb. pose proof (remaining_exact req Hb) as Hrem.
  destruct Hb as (? & ? & ?). unfold quantum, Millisecond. lia.
Qed.

Lemma admitted_within_budget now entity b rb :
  within_budget rb → within_budget (admitted now entity b rb).
Proof.
  unfold admitted. case_decide; [|done]. apply started_within_budget.
Qed.

(** *** Start times *)

Lemma admitted_start t0 now entity b rb :
  (start_recorded t0 rb ∧ t0 ≤ now) ∨ (entity = RequestPtr b ∧ startTime rb = None) →
  start_recorded now (admitted now entity b rb).
Proof.
  unfold admitted, start_recorded.
  intros [[(t & Ht & Hle) Hnow]|Hnew].
  - rewrite decide_False by (intros [_ ?]; congruence).
    exists t. split; [done|lia].
  - rewrite decide_True by done. exists now. simpl. split; [done|lia].
Qed.

Lemma step_start_recorded w w' :
  sound w →
  (∀ b rb, store w !! b = Some rb → start_recorded (TheTime (env w)) rb) →
  step w w' →
  ∀ b rb, store w' !! b = Some rb → start_recorded (TheTime (env w')) rb.
Proof.
  intros Hs Hinv Hstep.
  destruct (step_shape w w' Hs Hstep)
    as (now & w0 & entity & Hnow & Henv & Hstore & _ & _ & _ & _ & _ & Hcall).
  assert (TheTime (env w0) = now) as Htime by by rewrite Henv.
  assert (∀ b rb e, entity = Some e → store w0 !! b = Some rb →
            (start_recorded (TheTime (env w)) rb ∧ TheTime (env w) ≤ now)
            ∨ (e = RequestPtr b ∧ startTime rb = None)) as Hpre.
  { intros b rb e -> Hb.
    destruct Hstore as [[Hst _]|(a & req & Hfresh & (_ & Hnone & _) & Hst & [= ->])].
    - left. split; [|done]. apply (Hinv b). by rewrite <- Hst.
    - rewrite Hst in Hb. destruct (decide (b = a)) as [->|Hne].
      + rewrite lookup_insert_eq in Hb. simplify_eq. by right.
      + rewrite lookup_insert_ne in Hb by done. left. split; [by apply (Hinv b)|done]. }
  destruct entity as [e|].
  - destruct Hcall as [err HAdd].
    pose proof (Add_fields _ _ _ _ HAdd) as (Ht' & _).
    pose proof (Add_effect _ _ _ _ HAdd) as (Hst' & _). cbv zeta in Hst'.
    rewrite Htime in Hst'. rewrite Ht', Htime.
    intros b rb Hb. destruct (Hst' b) as [Heq|(rb0 & Hb0 & Heq)]; rewrite Hb in Heq.
    + destruct (store w0 !! b) as [rb0|] eqn:Hb0; simpl in Heq; [|done].
      simplify_eq. eapply admitted_start. by eapply Hpre.
    + simplify_eq.
      destruct (admitted_start (TheTime (env w)) (TheTime (env w0)) e b rb0)
        as (t & Ht & Hle); [by eapply Hpre|].
      exists t. by split.
  - subst w'. rewrite Htime. intros b rb Hb.
    destruct Hstore as [[Hst _]|(? & ? & _ & _ & _ & [=])].
    rewrite Hst in Hb. destruct (Hinv b rb Hb) as (t & Ht & Hle).
    exists t. split; [done|lia].
Qed.

(** *** Records only advance *)

Lemma advanced_admitted now entity b rb : advanced rb (admitted now entity b rb).
Proof.
  unfold advanced, admitted, Millisecond.
  case_decide as Hd; simpl; split_and!; try done; try lia.
  intros t Ht. destruct Hd. congruence.
Qed.

Lemma advanced_charged rb rb' :
  within_budget rb' → advanced rb rb' →
  cpuSecondsConsumed rb' = cpuSecondsConsumed rb → advanced rb (charged rb').
Proof.
  intros Hb (Hn & Hbo & Hat & Hreq & Hcons & Hstart) Heq.
  pose proof (charged_consumed rb' Hb) as Hch.
  pose proof (quantum_bounds rb' Hb) as Hq.
  unfold advanced. rewrite Hch. split_and!; try done; lia.
Qed.

Lemma step_advanced w w' b rb :
  sound w → store_within_budget (store w) → step w w' →
  store w !! b = Some rb →
  ∃ rb', store w' !! b = Some rb' ∧ advanced rb rb'.
Proof.
  intros Hs Hbud Hstep Hb.
  destruct (step_shape w w' Hs Hstep)
    as (now & w0 & entity & Hnow & Henv & Hstore & _ & _ & _ & _ & _ & Hcall).
  assert (store w0 !! b = Some rb) as Hb0.
  { destruct Hstore as [[-> _]|(a & req & Hfresh & _ & -> & _)]; [done|].
    rewrite lookup_insert_ne; [done|]. intros ->. congruence. }
  destruct entity as [e|].
  - destruct Hcall as [err HAdd].
    pose proof (Add_effect _ _ _ _ HAdd) as (Hst' & _). cbv zeta in Hst'.
    destruct (Hst' b) as [Heq|(rb0 & Hrb0 & Heq)]; rewrite Hb0 in *.
    + eexists. split; [exact Heq|]. apply advanced_admitted.
    + simplify_eq. eexists. split; [exact Heq|].
      apply advanced_charged.
      * apply admitted_within_budget. by eapply Hbud.
      * apply advanced_admitted.
      * by destruct (quantum_admitted (TheTime (env w0)) e b rb0) as (_ & -> & _).
  - subst w'. exists rb. split; [done|].
    unfold advanced, Millisecond. split_and!; try done; lia.
Qed.

(** *** The terminated lane *)

Lemma finished_charged req :
  within_budget req → cpuSecondsConsumed req = cpuSecondsRequired req →
  cpuSecondsConsumed (charged req) = cpuSecondsRequired (charged req).
Proof.
  intros Hb Heq. rewrite (charged_consumed req Hb). simpl.
  pose proof (remaining_exact req Hb) as Hrem.
  unfold quantum, Millisecond. lia.
Qed.

Lemma Add_finished w entity w' err :
  store_within_budget (store w) →
  Forall (finished (store w)) (ts_entities (processesTerminated (rps w))) →
  Add w entity = Returned w' err →
  Forall (finished (store w')) (ts_entities (processesTerminated (rps w'))).
Proof.
  intros Hbud Hinv HAdd.
  pose proof (Add_effect _ _ _ _ HAdd) as (Hst' & Hterm & _). cbv zeta in Hst'.
  assert (∀ e, finished (store w) e → finished (store w') e) as Hkeep.
  { intros e (a & req & -> & Ha & Hfin). exists a.
    pose proof (Hbud a req Ha) as Hb.
    destruct (quantum_admitted (TheTime (env w)) entity a req) as (_ & Hc & Hr).
    destruct (Hst' a) as [Heq|(rb0 & Hrb0 & Heq)]; rewrite Ha in *.
    - eexists. split_and!; [done|exact Heq|]. by rewrite Hc, Hr.
    - simplify_eq. eexists. split_and!; [done|exact Heq|].
      apply finished_charged; [by apply admitted_within_budget|].
      by rewrite Hc, Hr. }
  destruct Hterm as [->|(a & req & -> & Ha & Hrem & ->)].
  - eapply Forall_impl; [exact Hinv|exact Hkeep].
  - apply Forall_app. split; [eapply Forall_impl; [exact Hinv|exact Hkeep]|].
    apply Forall_singleton. apply Hkeep. exists a, req. split_and!; [done|done|].
    pose proof (Hbud a req Ha) as Hb. rewrite (remaining_exact req Hb) in Hrem.
    destruct Hb as (? & ? & ?). lia.
Qed.

Lemma step_finished w w' :
  sound w → store_within_budget (store w) →
  Forall (finished (store w)) (ts_entities (processesTerminated (rps w))) →
  step w w' →
  Forall (finished (store w')) (ts_entities (processesTerminated (rps w'))).
Proof.
  intros Hs Hbud Hinv Hstep.
  destruct (step_shape w w' Hs Hstep)
    as (now & w0 & entity & Hnow & Henv & Hstore & _ & _ & _ & _ & Hsub & Hcall).
  pose proof (step_shape_budget w now w0 entity Hbud Hstore Hnow) as Hbud0.
  assert (Forall (finished (store w0)) (ts_entities (processesTerminated (rps w0))))
    as Hinv0.
  { rewrite Forall_forall in Hinv. apply Forall_forall. intros e He.
    destruct (Hinv e (Hsub e He)) as (b & rb & -> & Hb & Hfin).
    exists b, rb. split_and!; [done| |done].
    destruct Hstore as [[-> _]|(a & req & Hfresh & _ & -> & _)]; [done|].
    rewrite lookup_insert_ne; [done|]. intros ->. congruence. }
  destruct entity as [e|]; [|by subst w'].
  destruct Hcall as [err HAdd]. by eapply Add_finished.
Qed.

Lemma reachable_finished w :
  reachable w →
  Forall (finished (store w)) (ts_entities (processesTerminated (rps w))).
Proof.
  induction 1 as [fe n c|w w' Hreach IH Hstep]; [by apply Forall_nil|].
  eapply step_finished; eauto using reachable_sound, reachable_within_budget.
Qed.

(** *** The fields nothing writes *)

Lemma step_fields w w' :
  sound w → step w w' →
  replicaNumber (rps w') = replicaNumber (rps w) ∧
  numRequestsSinceLast (rps w') = numRequestsSinceLast (rps w) ∧
  ts_name (processesActive (rps w')) = ts_name (processesActive (rps w)) ∧
  window (rps_cpuUsage (rps w')) = window (rps_cpuUsage (rps w)).
Proof.
  intros Hs Hstep.
  destruct (step_shape w w' Hs Hstep)
    as (now & w0 & entity & _ & _ & _ & Hn & Hc & Hact & Hlog & _ & Hcall).
  destruct entity as [e|].
  - destruct Hcall as [err HAdd].
    pose proof (Add_fields _ _ _ _ HAdd) as (_ & _ & Hn' & Hc' & _ & Hact' & Hlog').
    rewrite Hn', Hc', Hact', Hlog', Hn, Hc, Hact, Hlog. done.
  - subst w'. by rewrite Hn, Hc, Hact, Hlog.
Qed.

(** *** The usage log and the schedule *)

Lemma step_schedule w w' :
  sound w → store_within_budget (store w) → step w w' →
  let now := TheTime (env w') in
  TheTime (env w) ≤ now ∧
  ∃ completes interrupts,
    Movements (env w') = Movements (env w) ++ completes ++ interrupts ∧
    (completes = [] ∨ completes = [complete_request_at now]) ∧
    ((interrupts = [] ∧
      activeTimeSlices (rps_cpuUsage (rps w')) = activeTimeSlices (rps_cpuUsage (rps w)))
     ∨ ∃ q, 0 ≤ q ≤ 200 * Millisecond ∧
         interrupts = [interrupt_process_at (now + q)] ∧
         activeTimeSlices (rps_cpuUsage (rps w'))
           = activeTimeSlices (rps_cpuUsage (rps w)) ++ [(now, now + q)]).
Proof.
  intros Hs Hbud Hstep.
  destruct (step_shape w w' Hs Hstep)
    as (now & w0 & entity & Hnow & Henv & Hstore & _ & _ & _ & Hlog & _ & Hcall).
  pose proof (step_shape_budget w now w0 entity Hbud Hstore Hnow) as Hbud0.
  assert (TheTime (env w0) = now) as Htime by by rewrite Henv.
  assert (Movements (env w0) = Movements (env w)) as Hmov by by rewrite Henv.
  destruct entity as [e|].
  - destruct Hcall as [err HAdd].
    pose proof (Add_fields _ _ _ _ HAdd) as (Ht' & _).
    pose proof (Add_effect _ _ _ _ HAdd)
      as (_ & _ & completes & interrupts & Hm & Hcs & His).
    cbv zeta in *. rewrite Ht', Htime. rewrite Htime in Hcs, His.
    split; [done|]. exists completes, interrupts.
    rewrite Hm, Hmov, <- Hlog. split_and!; [done|done|].
    destruct His as [His|(b & rb & Hb & -> & Hsl)]; [by left|].
    right. exists (quantum rb). split; [|by split].
    apply quantum_bounds. by eapply Hbud0.
  - subst w'. cbv zeta. rewrite Htime. split; [done|].
    exists [], []. rewrite Hmov, Hlog, !app_nil_r.
    split_and!; [done|by left|by left].
Qed.

Lemma StronglySorted_snoc (l : list Z) (y : Z) :
  StronglySorted Z.le l → Forall (λ x, x ≤ y) l → StronglySorted Z.le (l ++ [y]).
Proof.
  induction l as [|x l IH]; simpl; intros Hs Hf; [repeat constructor|].
  inversion Hs; inversion Hf; subst. constructor; [auto|].
  apply Forall_app. split; [done|]. by apply Forall_singleton.
Qed.

Lemma step_log w w' :
  sound w → store_within_budget (store w) →
  log_in_order (TheTime (env w)) (activeTimeSlices (rps_cpuUsage (rps w))) →
  step w w' →
  log_in_order (TheTime (env w')) (activeTimeSlices (rps_cpuUsage (rps w'))).
Proof.
  intros Hs Hbud [Hall Hsorted] Hstep.
  destruct (step_schedule w w' Hs Hbud Hstep)
    as (Hnow & completes & interrupts & _ & _ & Hlog). cbv zeta in *.
  assert (Forall (quantum_slice (TheTime (env w')))
            (activeTimeSlices (rps_cpuUsage (rps w)))) as Hall'.
  { eapply Forall_impl; [exact Hall|]. unfold quantum_slice.
    intros t (? & ? & ?). split_and!; [done|done|lia]. }
  destruct Hlog as [[_ ->]|(q & Hq & _ & ->)]; [done|].
  split.
  - apply Forall_app. split; [done|]. apply Forall_singleton.
    unfold quantum_slice. simpl. lia.
  - rewrite fmap_app. apply StronglySorted_snoc; [done|].
    apply Forall_fmap. eapply Forall_impl; [exact Hall|].
    intros t (_ & _ & ?). simpl. lia.
Qed.

Lemma append_right_cancel (s1 s2 t : string) : s1 +:+ t = s2 +:+ t → s1 = s2.
Proof.
  assert (∀ u v, String.list_ascii_of_string (u +:+ v)
                 = String.list_ascii_of_string u ++ String.list_ascii_of_string v) as Happ.
  { induction u as [|c u IH]; intros v; simpl; [done|]. by rewrite IH. }
  intros H. apply (f_equal String.list_ascii_of_string) in H.
  rewrite !Happ in H. apply app_inv_tail in H.
  apply (f_equal String.string_of_list_ascii) in H.
  by rewrite !String.string_of_list_ascii_of_string in H.
Qed.

(** *** The CPU is not left idle *)

Lemma Add_fills_cpu w entity w' :
  Add w entity = Returned w' None →
  ts_entities (processesOnCpu (rps w')) = [] →
  ts_entities (processesActive (rps w')) = [].
Proof.
  intros HAdd Hidle. destruct entity as [id n k|a]; [done|].
  destruct (store w !! a) as [req|] eqn:Hreq;
    [|by unfold Add in HAdd; rewrite Hreq in HAdd].
  rewrite (Add_blocks _ _ _ Hreq) in HAdd.
  destruct (Add_enqueue_or_complete _ _ _ _) as [[w1|[w1 e1]]|]; [|done|done].
  apply fill_cpu_cases in HAdd
    as [(-> & _ & [Hbusy|Hnone])
       |(b & rb & rest & _ & _ & _ & _ & _ & _ & _ & _ & _ & _ & _ & Hcpu)];
    [done|done|].
  destruct Hcpu as [(_ & _ & Hcpu)|(Herr & _)]; [|done].
  rewrite Hcpu in Hidle. done.
Qed.

Lemma step_fills_cpu w w' :
  sound w →
  (ts_entities (processesOnCpu (rps w)) = [] → ts_entities (processesActive (rps w)) = []) →
  step w w' →
  ts_entities (processesOnCpu (rps w')) = [] → ts_entities (processesActive (rps w')) = [].
Proof.
  intros Hs Hinv [a req now err Hfresh Hnew _ Harr|now err _ Hint|now err _ Hcomp].
  - unfold arrive in Harr.
    destruct (Add_returns (mkWorld (<[a := req]> (store w)) (at_time (env w) now) (rps w))
                a req) as (w'' & Heq & _).
    + by apply (sound_insert w).
    + simpl. by rewrite lookup_insert_eq.
    + rewrite Heq in Harr. simplify_eq. by eapply Add_fills_cpu.
  - unfold interrupt, ts_Remove in Hint.
    destruct Hs as (Hact & [Hk Hall] & Hterm).
    destruct (ts_entities (processesOnCpu (rps w))) as [|e rest] eqn:Hq.
    { simplify_eq. simpl. rewrite Hq. auto. }
    destruct (Hall e) as (b & -> & [rb Hb]); [by left|].
    match type of Hint with Add ?w0 _ = _ =>
      destruct (Add_returns w0 b rb) as (w'' & Heq & _) end.
    + unfold sound. simpl. split_and!; try done. split; [done|]. simpl.
      intros e He. apply Hall. by right.
    + done.
    + rewrite Heq in Hint. simplify_eq. by eapply Add_fills_cpu.
  - unfold complete, Remove in Hcomp. simplify_eq. simpl.
    destruct (0 <? ts_Count (processesTerminated (rps w))); [|done].
    by destruct (ts_Remove (processesTerminated (rps w))).
Qed.

(** *** The properties *)

(** X1.  In every state a replica's processing stock can reach, the
    arrival of a request behind a fresh pointer and the firing of an
    interrupt both return, with a nil error: [Add] never meets an entity
    that is not a request, an entity of another kind or a dangling
    pointer. *)
Theorem movements_return_nil (w : World) :
  reachable w →
  (∀ a req now, store w !! a = None → ∃ w', arrive w a req now = Returned w' None) ∧
  (∀ now, ∃ w', interrupt w now = Returned w' None).
Proof.
  intros Hreach. pose proof (reachable_sound w Hreach) as Hs. split.
  - intros a req now _. unfold arrive.
    destruct (Add_returns (mkWorld (<[a := req]> (store w)) (at_time (env w) now) (rps w))
                a req) as (w' & Heq & _).
    + by apply (sound_insert w).
    + simpl. by rewrite lookup_insert_eq.
    + by exists w'.
  - intros now. unfold interrupt, ts_Remove.
    destruct Hs as (Hact & [Hk Hall] & Hterm).
    destruct (ts_entities (processesOnCpu (rps w))) as [|e rest] eqn:Hq; [by eexists|].
    destruct (Hall e) as (b & -> & [rb Hb]); [by left|].
    match goal with |- ∃ w', Add ?w0 _ = _ =>
      destruct (Add_returns w0 b rb) as (w' & Heq & _) end.
    + unfold sound. simpl. split_and!; try done. split; [done|]. simpl.
      intros e He. apply Hall. by right.
    + done.
    + by exists w'.
Qed.

Lemma movements_return_nil_witness :
  reachable first_arrived ∧
  (∃ w', arrive first_arrived 2 (request 2) (50 * Millisecond) = Returned w' None) ∧
  (∃ w', interrupt first_arrived (100 * Millisecond) = Returned w' None).
Proof.
  split; [apply reachable_first_arrived|].
  pose proof (movements_return_nil first_arrived reachable_first_arrived) as [Harr Hint].
  split; [apply Harr; vm_compute; reflexivity|apply Hint].
Defined.

(** X2.  In every state a replica's processing stock can reach, every
    request record has its start time set, to an instant that is not
    after the current movement time. *)
Theorem start_time_recorded (w : World) :
  reachable w →
  ∀ a req, store w !! a = Some req →
    ∃ t, startTime req = Some t ∧ t ≤ TheTime (env w).
Proof.
  intros Hreach.
  change (∀ a req, store w !! a = Some req → start_recorded (TheTime (env w)) req).
  induction Hreach as [fe n c|w w' Hreach IH Hstep].
  - intros a req. simpl. by rewrite lookup_empty.
  - eapply step_start_recorded; eauto using reachable_sound.
Qed.

Lemma start_time_recorded_witness :
  reachable second_arrived ∧
  ∃ req, store second_arrived !! 2%nat = Some req ∧
    ∃ t, startTime req = Some t ∧ t ≤ TheTime (env second_arrived).
Proof.
  split; [apply reachable_second_arrived|].
  exists (set_startTime (request 2) (Some (50 * Millisecond))).
  assert (store second_arrived !! 2%nat
          = Some (set_startTime (request 2) (Some (50 * Millisecond)))) as H
    by (vm_compute; reflexivity).
  split; [exact H|].
  exact (start_time_recorded second_arrived reachable_second_arrived 2%nat _ H).
Defined.

(** X3.  A movement leaves every request record allocated, keeps its
    number, its backoff fields and its CPU requirement, keeps a start
    time that is set, and adds to the CPU time consumed at least nothing
    and at most one quantum of 200ms. *)
Theorem records_only_advance (w w' : World) (b : nat) (rb : requestEntity) :
  reachable w → step w w' → store w !! b = Some rb →
  ∃ rb', store w' !! b = Some rb' ∧
    number rb' = number rb ∧ nextBackoff rb' = nextBackoff rb ∧
    attempts rb' = attempts rb ∧
    cpuSecondsRequired rb' = cpuSecondsRequired rb ∧
    cpuSecondsConsumed rb ≤ cpuSecondsConsumed rb' ≤ cpuSecondsConsumed rb + 200 * Millisecond ∧
    (∀ t, startTime rb = Some t → startTime rb' = Some t).
Proof.
  intros Hreach Hstep Hb.
  apply (step_advanced w w' b rb);
    eauto using reachable_sound, reachable_within_budget.
Qed.

Lemma records_only_advance_witness :
  reachable second_arrived ∧ step second_arrived first_interrupted ∧
  store second_arrived !! 2%nat = Some (set_startTime (request 2) (Some (50 * Millisecond))) ∧
  ∃ rb', store first_interrupted !! 2%nat = Some rb' ∧
    number rb' = 2 ∧ nextBackoff rb' = 100 * Millisecond ∧ attempts rb' = 0 ∧
    cpuSecondsRequired rb' = 100 * Millisecond ∧
    0 ≤ cpuSecondsConsumed rb' ≤ 0 + 200 * Millisecond ∧
    (∀ t, Some (50 * Millisecond) = Some t → startTime rb' = Some t).
Proof.
  assert (step second_arrived first_interrupted) as Hstep.
  { apply (play_step _ (Interrupt (100 * Millisecond))). vm_compute. reflexivity. }
  assert (store second_arrived !! 2%nat
          = Some (set_startTime (request 2) (Some (50 * Millisecond)))) as H
    by (vm_compute; reflexivity).
  split_and!; [apply reachable_second_arrived|exact Hstep|exact H|].
  exact (records_only_advance second_arrived first_interrupted 2%nat _
           reachable_second_arrived Hstep H).
Defined.

(** X4.  In every state a replica's processing stock can reach, what
    [Remove] hands to the completion sink is a request that has consumed
    exactly the CPU time it requires; [Remove] touches no record. *)
Theorem removed_request_is_finished (w w' : World) (e : Entity) :
  reachable w → Remove w = (Some e, w') →
  store w' = store w ∧
  ∃ a req, e = RequestPtr a ∧ store w !! a = Some req ∧
           cpuSecondsConsumed req = cpuSecondsRequired req.
Proof.
  intros Hreach Hrem. pose proof (reachable_finished w Hreach) as Hfin.
  unfold Remove, ts_Remove in Hrem.
  destruct (0 <? ts_Count (processesTerminated (rps w))); [|done].
  destruct (ts_entities (processesTerminated (rps w))) as [|e0 rest] eqn:Hq; [done|].
  simplify_eq. split; [done|].
  apply Forall_cons in Hfin as [Hfin _]. exact Hfin.
Qed.

Lemma removed_request_is_finished_witness :
  reachable alone_finished ∧
  Remove alone_finished = (Some (RequestPtr 1), snd (Remove alone_finished)) ∧
  store (snd (Remove alone_finished)) = store alone_finished ∧
  ∃ a req, RequestPtr 1 = RequestPtr a ∧ store alone_finished !! a = Some req ∧
           cpuSecondsConsumed req = cpuSecondsRequired req.
Proof.
  assert (Remove alone_finished = (Some (RequestPtr 1), snd (Remove alone_finished)))
    as H by (vm_compute; reflexivity).
  split_and!; [apply reachable_alone_finished|exact H|..];
    apply (removed_request_is_finished alone_finished _ _ reachable_alone_finished H).
Defined.

(** X5.  In every state a replica's processing stock can reach,
    [RequestCount] returns 0 and leaves the stock as it was: nothing
    increments the counter it reads. *)
Theorem request_count_is_zero (w : World) :
  reachable w → RequestCount (rps w) = (0, rps w).
Proof.
  intros Hreach.
  assert (numRequestsSinceLast (rps w) = 0) as H0.
  { induction Hreach as [fe n c|w w' Hreach IH Hstep]; [done|].
    destruct (step_fields w w') as (_ & -> & _); eauto using reachable_sound. }
  unfold RequestCount. rewrite H0. f_equal.
  destruct (rps w); simpl in *. by subst.
Qed.

Lemma request_count_is_zero_witness :
  reachable first_interrupted ∧
  RequestCount (rps first_interrupted) = (0, rps first_interrupted).
Proof.
  split; [apply reachable_first_interrupted|].
  apply (request_count_is_zero first_interrupted). apply reachable_first_interrupted.
Defined.

(** X6.  In every state a replica's processing stock can reach, each slice
    of the usage log ends no earlier than it begins and at most 200ms
    later, begins no later than the current movement time, and the slices
    are listed in the order in which they begin. *)
Theorem usage_log_in_order (w : World) :
  reachable w →
  Forall (λ t, fst t ≤ snd t ∧ snd t ≤ fst t + 200 * Millisecond ∧ fst t ≤ TheTime (env w))
    (activeTimeSlices (rps_cpuUsage (rps w))) ∧
  StronglySorted Z.le ((activeTimeSlices (rps_cpuUsage (rps w))).*1).
Proof.
  intros Hreach.
  change (log_in_order (TheTime (env w)) (activeTimeSlices (rps_cpuUsage (rps w)))).
  induction Hreach as [fe n c|w w' Hreach IH Hstep].
  - split; simpl; constructor.
  - eapply step_log; eauto using reachable_sound, reachable_within_budget.
Qed.

Lemma usage_log_in_order_witness :
  reachable busy ∧
  Forall (λ t, fst t ≤ snd t ∧ snd t ≤ fst t + 200 * Millisecond ∧ fst t ≤ TheTime (env busy))
    (activeTimeSlices (rps_cpuUsage (rps busy))) ∧
  StronglySorted Z.le ((activeTimeSlices (rps_cpuUsage (rps busy))).*1).
Proof.
  split; [apply reachable_busy|].
  apply (usage_log_in_order busy). apply reachable_busy.
Defined.

(** X7.  A movement appends to the schedule at most a [complete_request]
    one nanosecond after the current movement time and then at most an
    [interrupt_process] between now and 200ms from now, and nothing else;
    it appends a slice to the usage log exactly when it schedules the
    interrupt, from now to the instant of the interrupt. *)
Theorem step_schedules (w w' : World) :
  reachable w → step w w' →
  let now := TheTime (env w') in
  TheTime (env w) ≤ now ∧
  ∃ completes interrupts,
    Movements (env w') = Movements (env w) ++ completes ++ interrupts ∧
    (completes = [] ∨
     completes = [NewMovement "complete_request" (Time_Add now Nanosecond)
                    RequestsProcessingRef RequestsCompleteRef]) ∧
    ((interrupts = [] ∧
      activeTimeSlices (rps_cpuUsage (rps w')) = activeTimeSlices (rps_cpuUsage (rps w)))
     ∨ ∃ q, 0 ≤ q ≤ 200 * Millisecond ∧
         interrupts = [NewMovement "interrupt_process" (Time_Add now q)
                         ProcessesOnCpuRef RequestsProcessingRef] ∧
         activeTimeSlices (rps_cpuUsage (rps w'))
           = activeTimeSlices (rps_cpuUsage (rps w)) ++ [(now, Time_Add now q)]).
Proof.
  intros Hreach Hstep.
  apply (step_schedule w w'); eauto using reachable_sound, reachable_within_budget.
Qed.

Lemma step_schedules_witness :
  reachable second_arrived ∧ step second_arrived first_interrupted ∧
  ∃ completes interrupts,
    Movements (env first_interrupted)
      = Movements (env second_arrived) ++ completes ++ interrupts ∧
    ((interrupts = [] ∧
      activeTimeSlices (rps_cpuUsage (rps first_interrupted))
        = activeTimeSlices (rps_cpuUsage (rps second_arrived)))
     ∨ ∃ q, 0 ≤ q ≤ 200 * Millisecond ∧
         interrupts = [NewMovement "interrupt_process"
                         (Time_Add (TheTime (env first_interrupted)) q)
                         ProcessesOnCpuRef RequestsProcessingRef] ∧
         activeTimeSlices (rps_cpuUsage (rps first_interrupted))
           = activeTimeSlices (rps_cpuUsage (rps second_arrived))
             ++ [(TheTime (env first_interrupted),
                  Time_Add (TheTime (env first_interrupted)) q)]).
Proof.
  assert (step second_arrived first_interrupted) as Hstep.
  { apply (play_step _ (Interrupt (100 * Millisecond))). vm_compute. reflexivity. }
  split_and!; [apply reachable_second_arrived|exact Hstep|].
  destruct (step_schedules second_arrived first_interrupted
              reachable_second_arrived Hstep)
    as (_ & completes & interrupts & Hm & _ & Hlog).
  exists completes, interrupts. split; [exact Hm|exact Hlog].
Defined.

(** X21.  In every state a replica's processing stock can reach, the CPU
    is not idle while a request waits: when [onCpu] is empty so is
    [active], and [Count] is zero exactly when nothing is on the CPU. *)
Theorem cpu_busy_while_requests_wait (w : World) :
  reachable w →
  (ts_entities (processesOnCpu (rps w)) = [] → ts_entities (processesActive (rps w)) = []) ∧
  (Count (rps w) = 0 ↔ ts_Count (processesOnCpu (rps w)) = 0).
Proof.
  intros Hreach.
  assert (ts_entities (processesOnCpu (rps w)) = [] →
          ts_entities (processesActive (rps w)) = []) as Hidle.
  { induction Hreach as [fe n c|w w' Hreach IH Hstep]; [done|].
    eapply step_fills_cpu; eauto using reachable_sound. }
  split; [exact Hidle|].
  unfold Count, ts_Count. split; [lia|]. intros H0.
  rewrite Hidle; [simpl; lia|].
  destruct (ts_entities (processesOnCpu (rps w))); [done|simpl in H0; lia].
Qed.

Lemma cpu_busy_while_requests_wait_witness :
  reachable second_arrived ∧
  (ts_entities (processesOnCpu (rps second_arrived)) = [] →
   ts_entities (processesActive (rps second_arrived)) = []) ∧
  (Count (rps second_arrived) = 0 ↔ ts_Count (processesOnCpu (rps second_arrived)) = 0).
Proof.
  split; [apply reachable_second_arrived|].
  apply (cpu_busy_while_requests_wait second_arrived). apply reachable_second_arrived.
Defined.

(** X8.  In every state a replica's processing stock can reach, [Name]
    is "RequestsProcessing [n]" for the replica number n the stock was
    built with, so that two stocks have the same name only if they have
    the same replica number, and [KindStocked] is "Request". *)
Theorem stock_name (w1 w2 : World) :
  reachable w1 → reachable w2 →
  Name (rps w1) = "RequestsProcessing [" +:+ FormatInt10 (replicaNumber (rps w1)) +:+ "]" ∧
  KindStocked (rps w1) = "Request"%string ∧
  (Name (rps w1) = Name (rps w2) → replicaNumber (rps w1) = replicaNumber (rps w2)).
Proof.
  assert (∀ w, reachable w →
            Name (rps w)
            = "RequestsProcessing [" +:+ FormatInt10 (replicaNumber (rps w)) +:+ "]") as Hname.
  { intros w Hreach. unfold Name.
    assert (ts_name (processesActive (rps w)) = "RequestsProcessing"%string) as ->; [|done].
    induction Hreach as [fe n c|w w' Hreach IH Hstep]; [done|].
    destruct (step_fields w w') as (_ & _ & -> & _); eauto using reachable_sound. }
  intros H1 H2. split; [by apply Hname|]. split.
  { destruct (reachable_sound w1 H1) as ([Hk _] & _). exact Hk. }
  rewrite (Hname w1 H1), (Hname w2 H2). intros Heq.
  apply (inj (String.app "RequestsProcessing [")) in Heq.
  apply append_right_cancel in Heq. by apply queue_facts.FormatInt10_inj.
Qed.

Lemma stock_name_witness :
  reachable first_arrived ∧ reachable busy ∧
  Name (rps first_arrived)
    = "RequestsProcessing [" +:+ FormatInt10 (replicaNumber (rps first_arrived)) +:+ "]" ∧
  KindStocked (rps first_arrived) = "Request"%string ∧
  (Name (rps first_arrived) = Name (rps busy) →
   replicaNumber (rps first_arrived) = replicaNumber (rps busy)).
Proof.
  split; [apply reachable_first_arrived|]. split; [apply reachable_busy|].
  apply (stock_name first_arrived busy reachable_first_arrived reachable_busy).
Defined.

End processing_further.

(* ================================================================== *)
(** ** Further properties of the sliding window *)
(* ================================================================== *)

Module window_further.
Import Go simulator model kernel processing_spec processing_facts runs.
Import window_spec window_facts further_spec processing_claims processing_further.

Lemma trim_eq c now :
  cpuUsage_trim c now
  = mkCpuUsage (window c)
      (remaining_slices (Time_Add now (wrap64 (- window c))) (activeTimeSlices c)).
Proof. unfold cpuUsage_trim. by rewrite trim_loop. Qed.

Lemma remaining_cons cutoff t l :
  remaining_slices cutoff (t :: l)
  = if decide (snd t < cutoff) then remaining_slices cutoff l
    else clamp_start cutoff t :: remaining_slices cutoff l.
Proof.
  unfold remaining_slices. rewrite filter_cons.
  destruct (decide (snd t < cutoff)).
  - by rewrite decide_False by tauto.
  - by rewrite decide_True by done.
Qed.

Lemma remaining_remaining c1 c2 l :
  c1 ≤ c2 →
  remaining_slices c2 (remaining_slices c1 l) = remaining_slices c2 l.
Proof.
  intros Hle. induction l as [|t l IH]; [done|].
  rewrite !remaining_cons. destruct t as [s e]. cbn [fst snd].
  destruct (decide (e < c1)) as [H1|H1].
  - rewrite decide_True by lia. exact IH.
  - rewrite remaining_cons, IH. unfold clamp_start. cbn [fst snd].
    destruct (decide (s < c1)); cbn [fst snd];
      destruct (decide (e < c2)); try done;
      repeat case_decide; try done; try lia.
    f_equal. f_equal. lia.
Qed.

Lemma remaining_within cutoff l :
  Forall (λ t, cutoff ≤ fst t ∧ cutoff ≤ snd t) (remaining_slices cutoff l) ∧
  (remaining_slices cutoff l).*2 = filter (λ e, ¬ e < cutoff) (l.*2).
Proof.
  induction l as [|t l [IH1 IH2]]; [by split|].
  rewrite remaining_cons, fmap_cons, filter_cons.
  destruct (decide (snd t < cutoff)).
  - by rewrite decide_False by tauto.
  - rewrite decide_True by done. split.
    + apply Forall_cons. split; [|done]. unfold clamp_start.
      case_decide; cbn [fst snd]; lia.
    + rewrite fmap_cons, IH2. f_equal. unfold clamp_start. by case_decide.
Qed.

Lemma remaining_stale cutoff l :
  Forall (λ t, snd t < cutoff) l → remaining_slices cutoff l = [].
Proof.
  induction 1 as [|t l Ht _ IH]; [done|].
  rewrite remaining_cons. by rewrite decide_True.
Qed.

Lemma reachable_window w :
  reachable w → window (rps_cpuUsage (rps w)) = 15 * Second.
Proof.
  induction 1 as [fe n c|w w' Hreach IH Hstep]; [done|].
  destruct (step_fields w w') as (_ & _ & _ & ->); eauto using reachable_sound.
Qed.

(** X9.  Trimming composes: a trim at an instant followed by a trim at a
    later instant leaves the log a single trim at the later instant
    leaves, so that a reading of [usage] is not changed by the readings
    taken before it. *)
Theorem earlier_readings_change_nothing (c : cpuUsage) (now1 now2 : Time) :
  now1 ≤ now2 →
  cpuUsage_trim (cpuUsage_trim c now1) now2 = cpuUsage_trim c now2 ∧
  cpuUsage_usage (fst (cpuUsage_usage c now1)) now2 = cpuUsage_usage c now2.
Proof.
  intros Hle.
  assert (cpuUsage_trim (cpuUsage_trim c now1) now2 = cpuUsage_trim c now2) as Htrim.
  { rewrite (trim_eq c now1), (trim_eq c now2), trim_eq. cbn [window activeTimeSlices].
    f_equal. apply remaining_remaining. unfold Time_Add. lia. }
  split; [exact Htrim|].
  unfold cpuUsage_usage. cbn [fst]. by rewrite Htrim.
Qed.

Lemma earlier_readings_change_nothing_witness :
  5 * Second ≤ 15 * Second + 100 * Millisecond ∧
  cpuUsage_usage (fst (cpuUsage_usage busy_log (5 * Second)))
    (15 * Second + 100 * Millisecond)
  = cpuUsage_usage busy_log (15 * Second + 100 * Millisecond).
Proof.
  assert (5 * Second ≤ 15 * Second + 100 * Millisecond) as H by (vm_compute; discriminate).
  split; [exact H|].
  apply (earlier_readings_change_nothing busy_log _ _ H).
Defined.

(** X10.  After [trim(now)] no slice of the log begins or ends before the
    cut-off [now - window]; the ends that remain are the ends that were
    not before the cut-off, unchanged and in their order. *)
Theorem trimmed_log_within_window (c : cpuUsage) (now : Time) :
  let cutoff := Time_Add now (wrap64 (- window c)) in
  let kept := activeTimeSlices (cpuUsage_trim c now) in
  window (cpuUsage_trim c now) = window c ∧
  Forall (λ t, cutoff ≤ fst t ∧ cutoff ≤ snd t) kept ∧
  kept.*2 = filter (λ e, ¬ e < cutoff) ((activeTimeSlices c).*2).
Proof.
  intros cutoff kept. unfold kept. rewrite trim_eq. cbn [window activeTimeSlices].
  split; [done|]. apply remaining_within.
Qed.

(** X11.  In every state a replica's processing stock can reach, the
    window of the usage log is 15s; when every slice of the log ended
    more than 15s before [now], [usage(now)] empties the log and returns
    zero. *)
Theorem idle_replica_reads_zero (w : World) (now : Time) :
  reachable w →
  Forall (λ t, snd t < now - 15 * Second) (activeTimeSlices (rps_cpuUsage (rps w))) →
  cpuUsage_usage (rps_cpuUsage (rps w)) now = (NewCpuUsage (15 * Second), 0%float).
Proof.
  intros Hreach Hstale. pose proof (reachable_window w Hreach) as Hw.
  unfold cpuUsage_usage. rewrite trim_eq, Hw. cbn [window activeTimeSlices].
  rewrite remaining_stale; [done|].
  eapply Forall_impl; [exact Hstale|]. intros t Ht.
  change (wrap64 (- (15 * Second))) with (- (15 * Second)).
  simpl in Ht. unfold Time_Add, Second in *. lia.
Qed.

Lemma idle_replica_reads_zero_witness :
  reachable alone_finished ∧
  Forall (λ t, snd t < 20 * Second - 15 * Second)
    (activeTimeSlices (rps_cpuUsage (rps alone_finished))) ∧
  cpuUsage_usage (rps_cpuUsage (rps alone_finished)) (20 * Second)
  = (NewCpuUsage (15 * Second), 0%float).
Proof.
  assert (Forall (λ t, snd t < 20 * Second - 15 * Second)
            (activeTimeSlices (rps_cpuUsage (rps alone_finished)))) as H.
  { assert (activeTimeSlices (rps_cpuUsage (rps alone_finished))
            = [(0, 100 * Millisecond)]) as -> by (vm_compute; reflexivity).
    apply Forall_singleton. vm_compute. reflexivity. }
  split_and!; [apply reachable_alone_finished|exact H|].
  apply (idle_replica_reads_zero alone_finished _ reachable_alone_finished H).
Defined.

End window_further.

(* ================================================================== *)
(** ** Further properties of the movement queue *)
(* ================================================================== *)

Module queue_further.
Import Go simulator cache newsimulator queue_spec heap_facts queue_facts further_spec.

Lemma pending_nil mpq :
  well_formed (data (heap mpq)) →
  pending mpq = [] ↔ queue (data (heap mpq)) = [].
Proof.
  intros (_ & Hmem & _). unfold pending. split.
  - destruct (queue (data (heap mpq))) as [|k q]; [done|].
    destruct (proj1 (Hmem k)) as [m Hm]; [by left|].
    cbn [omap list_omap]. by rewrite Hm.
  - by intros ->.
Qed.

Lemma Dequeue_keeps_flag mpq m mpq' :
  DequeueMovement mpq = DequeuedMovement m mpq' → IsClosed mpq' = IsClosed mpq.
Proof.
  unfold DequeueMovement, Pop, IsClosed, cache.IsClosed.
  destruct (queue (data (heap mpq))) as [|k q].
  - by destruct (closed (heap mpq)).
  - destruct (heap_Pop _ _) as [[obj|] d]; [|done]. intros H. by simplify_eq.
Qed.

Lemma Dequeue_empty mpq :
  queue (data (heap mpq)) = [] →
  DequeueMovement mpq = if IsClosed mpq then DequeueClosed else DequeueWaits.
Proof.
  unfold DequeueMovement, Pop, IsClosed, cache.IsClosed. intros ->.
  by destruct (closed (heap mpq)).
Qed.

Lemma same_instant (l : list Movement) m m' :
  NoDup (mv_OccursAt <$> l) → m ∈ l → m' ∈ l →
  mv_OccursAt m = mv_OccursAt m' → m = m'.
Proof.
  induction l as [|x l IH]; [by intros _ ?%elem_of_nil|].
  rewrite fmap_cons, NoDup_cons. intros [Hx Hnd] Hm Hm' Heq.
  apply elem_of_cons in Hm as [->|Hm]; apply elem_of_cons in Hm' as [->|Hm'].
  - done.
  - exfalso. apply Hx. rewrite Heq. by apply list_elem_of_fmap_2.
  - exfalso. apply Hx. rewrite <- Heq. by apply list_elem_of_fmap_2.
  - by apply IH.
Qed.

Lemma Dequeue_strictly_earliest mpq m mpq' :
  queue_reachable mpq → DequeueMovement mpq = DequeuedMovement m mpq' →
  pending mpq ≡ₚ m :: pending mpq' ∧
  (∀ other, other ∈ pending mpq' → mv_OccursAt m < mv_OccursAt other) ∧
  IsClosed mpq' = IsClosed mpq.
Proof.
  intros Hreach Heq.
  destruct (queue_reachable_invariant mpq Hreach) as [Hwf Hord].
  assert (pending mpq ≠ []) as Hne.
  { intros Hnil. apply (pending_nil mpq Hwf) in Hnil.
    rewrite (Dequeue_empty mpq Hnil) in Heq. by destruct (IsClosed mpq). }
  destruct (DequeueMovement_earliest mpq Hreach Hne) as (m0 & mpq0 & Heq0 & Hperm & Hmin).
  rewrite Heq in Heq0. simplify_eq. split_and!; [done| |by eapply Dequeue_keeps_flag].
  intros other Hin.
  pose proof (pending_unique mpq Hwf) as Hnd.
  rewrite Hperm, fmap_cons in Hnd. apply NoDup_cons in Hnd as [Hnotin _].
  assert (mv_OccursAt m0 ≤ mv_OccursAt other) as Hle.
  { apply Hmin. rewrite Hperm. by right. }
  assert (mv_OccursAt m0 ≠ mv_OccursAt other); [|lia].
  intros Heq'. apply Hnotin. rewrite Heq'. by apply list_elem_of_fmap_2.
Qed.

Lemma Dequeue_Close mpq :
  DequeueMovement (Close mpq)
  = match DequeueMovement mpq with
    | DequeuedMovement m mpq' => DequeuedMovement m (Close mpq')
    | DequeueWaits => DequeueClosed
    | other => other
    end.
Proof.
  unfold DequeueMovement, Close, cache.Close, Pop. simpl.
  destruct (queue (data (heap mpq))) as [|k q].
  - by destruct (closed (heap mpq)).
  - by destruct (heap_Pop _ _) as [[obj|] d].
Qed.

(** X12.  In every state of the queue [DequeueMovement] returns no error.
    When movements are pending it returns one of them, strictly earlier
    than all the others, leaves exactly the others pending and the queue
    open or closed as it was, and it does so on a closed queue too; when
    none is pending it reports that the queue is closed, or waits. *)
Theorem dequeue_outcomes (mpq : movementPQ) :
  queue_reachable mpq →
  match DequeueMovement mpq with
  | DequeuedMovement movement mpq' =>
      pending mpq ≡ₚ movement :: pending mpq' ∧
      (∀ other, other ∈ pending mpq' → mv_OccursAt movement < mv_OccursAt other) ∧
      IsClosed mpq' = IsClosed mpq
  | DequeueError _ => False
  | DequeueClosed => pending mpq = [] ∧ IsClosed mpq = true
  | DequeueWaits => pending mpq = [] ∧ IsClosed mpq = false
  end ∧
  (pending mpq ≠ [] → ∃ movement mpq', DequeueMovement mpq = DequeuedMovement movement mpq').
Proof.
  intros Hreach.
  destruct (queue_reachable_invariant mpq Hreach) as [Hwf Hord].
  split.
  - destruct (decide (pending mpq = [])) as [Hnil|Hne].
    + pose proof (proj1 (pending_nil mpq Hwf) Hnil) as Hq.
      rewrite (Dequeue_empty mpq Hq). by destruct (IsClosed mpq).
    + destruct (DequeueMovement_earliest mpq Hreach Hne) as (m & mpq' & Heq & _ & _).
      rewrite Heq. by apply Dequeue_strictly_earliest.
  - intros Hne.
    destruct (DequeueMovement_earliest mpq Hreach Hne) as (m & mpq' & Heq & _ & _).
    by exists m, mpq'.
Qed.

Lemma dequeue_outcomes_witness :
  queue_reachable (Close (enqueued [5; 3; 8] NewMovementPriorityQueue)) ∧
  ∃ mpq',
    DequeueMovement (Close (enqueued [5; 3; 8] NewMovementPriorityQueue))
      = DequeuedMovement (movement_at 3) mpq' ∧
    pending (Close (enqueued [5; 3; 8] NewMovementPriorityQueue))
      ≡ₚ movement_at 3 :: pending mpq' ∧
    IsClosed mpq' = true.
Proof.
  assert (queue_reachable (Close (enqueued [5; 3; 8] NewMovementPriorityQueue))) as Hreach
    by (apply reachable_close, enqueued_reachable, reachable_queue_new).
  split; [exact Hreach|].
  assert (∃ mpq', DequeueMovement (Close (enqueued [5; 3; 8] NewMovementPriorityQueue))
                  = DequeuedMovement (movement_at 3) mpq') as [mpq' Heq]
    by (eexists; vm_compute; reflexivity).
  pose proof (dequeue_outcomes _ Hreach) as [H _].
  rewrite Heq in H. destruct H as (Hperm & _ & Hflag).
  exists mpq'. split_and!; [done|done|].
  rewrite Hflag. reflexivity.
Defined.

(** X13.  Dequeuing as many times as movements are pending yields each
    pending movement once, in strictly increasing order of [OccursAt]. *)
Theorem drain_in_order (mpq : movementPQ) :
  queue_reachable mpq →
  drain (length (pending mpq)) mpq ≡ₚ pending mpq ∧
  StronglySorted Z.lt (mv_OccursAt <$> drain (length (pending mpq)) mpq).
Proof.
  remember (length (pending mpq)) as n eqn:Hlen. symmetry in Hlen.
  revert mpq Hlen. induction n as [|n IH]; intros mpq Hlen Hreach.
  - apply nil_length_inv in Hlen. rewrite Hlen. split; [done|constructor].
  - assert (pending mpq ≠ []) as Hne by (intros Hnil; by rewrite Hnil in Hlen).
    destruct (DequeueMovement_earliest mpq Hreach Hne) as (m & mpq' & Heq & _ & _).
    destruct (Dequeue_strictly_earliest mpq m mpq' Hreach Heq) as (Hperm & Hlt & _).
    assert (queue_reachable mpq') as Hreach' by (by eapply reachable_dequeue).
    assert (length (pending mpq') = n) as Hlen'.
    { apply Permutation_length in Hperm. simpl in Hperm. lia. }
    destruct (IH mpq' Hlen' Hreach') as [Hperm' Hsorted].
    cbn [drain]. rewrite Heq. split.
    + by rewrite Hperm, Hperm'.
    + rewrite fmap_cons. constructor; [done|].
      apply Forall_fmap, Forall_forall. intros other Hin. simpl.
      apply Hlt. by rewrite <- Hperm'.
Qed.

Lemma drain_in_order_witness :
  queue_reachable (enqueued [5; 3; 8; 1; 9] NewMovementPriorityQueue) ∧
  drain 5 (enqueued [5; 3; 8; 1; 9] NewMovementPriorityQueue)
    = movement_at <$> [1; 3; 5; 8; 9] ∧
  StronglySorted Z.lt
    (mv_OccursAt <$> drain (length (pending (enqueued [5; 3; 8; 1; 9] NewMovementPriorityQueue)))
                       (enqueued [5; 3; 8; 1; 9] NewMovementPriorityQueue)).
Proof.
  assert (queue_reachable (enqueued [5; 3; 8; 1; 9] NewMovementPriorityQueue)) as Hreach
    by (apply enqueued_reachable, reachable_queue_new).
  split_and!; [exact Hreach|vm_compute; reflexivity|].
  apply (drain_in_order _ Hreach).
Defined.

(** X14.  A movement enqueued on an open queue, at a nanosecond of its own
    and no later than every pending movement, is the one the next
    [DequeueMovement] returns, and the pending movements are then the ones
    there were before. *)
Theorem enqueue_then_dequeue (mpq : movementPQ) (movement : Movement) :
  queue_reachable mpq → IsClosed mpq = false →
  ¬ same_nanosecond_pending mpq movement →
  (∀ other, other ∈ pending mpq → mv_OccursAt movement ≤ mv_OccursAt other) →
  ∃ mpq1 mpq2,
    EnqueueMovement mpq movement = (mpq1, None) ∧
    DequeueMovement mpq1 = DequeuedMovement movement mpq2 ∧
    pending mpq2 ≡ₚ pending mpq.
Proof.
  intros Hreach Hopen Hnew Hfirst.
  destruct (queue_reachable_invariant mpq Hreach) as [Hwf Hord].
  assert (items (data (heap mpq)) !! key_of movement = None) as Hnone.
  { destruct (items (data (heap mpq)) !! key_of movement) as [m'|] eqn:Hm; [|done].
    exfalso. apply Hnew. apply same_nanosecond_iff; [done|]. by eexists. }
  pose proof (EnqueueMovement_pushes mpq movement Hnone Hopen) as Henq.
  set (mpq1 := mkMovementPQ
         (mkHeap (heap_Push leftMovementIsEarlier (data (heap mpq)) (key_of movement) movement)
            false)) in *.
  assert (queue_reachable mpq1) as Hreach1 by (by eapply reachable_enqueue).
  destruct (queue_reachable_invariant _ Hreach1) as [Hwf1 Hord1].
  assert (pending mpq1 ≡ₚ movement :: pending mpq) as Hperm1.
  { unfold pending, mpq1. simpl.
    destruct (heap_Push_spec (data (heap mpq)) (key_of movement) movement) as [-> Hq].
    apply pending_pushed; [|done]. destruct Hwf as (_ & Hmem & _).
    intros Hin. apply Hmem in Hin as [x Hx]. congruence. }
  assert (pending mpq1 ≠ []) as Hne1.
  { intros Hnil. rewrite Hnil in Hperm1. by apply Permutation_nil_cons in Hperm1. }
  destruct (DequeueMovement_earliest mpq1 Hreach1 Hne1) as (m & mpq2 & Heq & Hperm2 & Hmin).
  assert (m = movement) as ->.
  { apply (same_instant (pending mpq1)).
    - by apply pending_unique.
    - rewrite Hperm2. by left.
    - rewrite Hperm1. by left.
    - assert (mv_OccursAt m ≤ mv_OccursAt movement) as H1.
      { apply Hmin. rewrite Hperm1. by left. }
      assert (m ∈ movement :: pending mpq) as Hin
        by (rewrite <- Hperm1, Hperm2; by left).
      apply elem_of_cons in Hin as [->|Hin]; [done|].
      specialize (Hfirst m Hin). lia. }
  exists mpq1, mpq2. split_and!; [done|done|].
  rewrite Hperm1 in Hperm2. by apply Permutation_cons_inv in Hperm2.
Qed.

Lemma enqueue_then_dequeue_witness :
  queue_reachable (enqueued [5; 3; 8] NewMovementPriorityQueue) ∧
  IsClosed (enqueued [5; 3; 8] NewMovementPriorityQueue) = false ∧
  ∃ mpq1 mpq2,
    EnqueueMovement (enqueued [5; 3; 8] NewMovementPriorityQueue) (movement_at 1)
      = (mpq1, None) ∧
    DequeueMovement mpq1 = DequeuedMovement (movement_at 1) mpq2 ∧
    pending mpq2 ≡ₚ pending (enqueued [5; 3; 8] NewMovementPriorityQueue).
Proof.
  assert (queue_reachable (enqueued [5; 3; 8] NewMovementPriorityQueue)) as Hreach
    by (apply enqueued_reachable, reachable_queue_new).
  split; [exact Hreach|]. split; [reflexivity|].
  apply (enqueue_then_dequeue _ (movement_at 1) Hreach eq_refl).
  - intros (other & Hin & Hns). vm_compute in Hin.
    repeat (apply elem_of_cons in Hin as [->|Hin]; [by vm_compute in Hns|]).
    by apply elem_of_nil in Hin.
  - intros other Hin. vm_compute in Hin.
    repeat (apply elem_of_cons in Hin as [->|Hin]; [by vm_compute|]).
    by apply elem_of_nil in Hin.
Defined.

(** X15.  [occursAtToKey] returns no error, and for two movements whose
    instants are within the [int64] range of Unix nanoseconds it returns
    the same key only if they occur at the same instant. *)
Theorem key_identifies_instant (m m' : Movement) :
  minInt64 ≤ mv_OccursAt m ≤ maxInt64 → minInt64 ≤ mv_OccursAt m' ≤ maxInt64 →
  snd (occursAtToKey m) = None ∧
  (fst (occursAtToKey m) = fst (occursAtToKey m') ↔ mv_OccursAt m = mv_OccursAt m').
Proof.
  intros Hm Hm'. split; [done|].
  change (key_of m = key_of m' ↔ mv_OccursAt m = mv_OccursAt m').
  rewrite key_of_eq. unfold Time_UnixNano.
  rewrite !processing_facts.wrap64_small by done. done.
Qed.

Lemma key_identifies_instant_witness :
  fst (occursAtToKey (movement_at 5)) = fst (occursAtToKey (movement_at 7)) ↔ 5 = 7.
Proof.
  apply (key_identifies_instant (movement_at 5) (movement_at 7));
    vm_compute; split; discriminate.
Defined.

(** X16.  [Close] changes nothing but the flag [IsClosed] reads: the same
    movements are pending, and the dequeues that follow yield the same
    movements as they would have without it. *)
Theorem close_keeps_pending (mpq : movementPQ) (n : nat) :
  IsClosed (Close mpq) = true ∧ pending (Close mpq) = pending mpq ∧
  drain n (Close mpq) = drain n mpq.
Proof.
  split; [done|]. split; [done|]. revert mpq.
  induction n as [|n IH]; intros mpq; [done|].
  cbn [drain]. rewrite Dequeue_Close.
  destruct (DequeueMovement mpq) as [m mpq'| | |]; [|done..].
  by rewrite IH.
Qed.

End queue_further.

(* ================================================================== *)
(** ** Further properties of the request entity *)
(* ================================================================== *)

Module request_further.
Import Go simulator model model_rest runs.

Section backoff.
Variable backoffMultiplier : float.

Lemma NextBackoff_frame re :
  let re' := fst (NextBackoff backoffMultiplier re) in
  number re' = number re ∧ cpuSecondsRequired re' = cpuSecondsRequired re ∧
  cpuSecondsConsumed re' = cpuSecondsConsumed re ∧ startTime re' = startTime re.
Proof. unfold NextBackoff. by destruct (attempts re <? 18). Qed.

Lemma backed_off_spec n : ∀ re,
  0 ≤ attempts re ≤ 18 →
  attempts (backed_off backoffMultiplier n re) = Z.min (attempts re + Z.of_nat n) 18 ∧
  number (backed_off backoffMultiplier n re) = number re ∧
  cpuSecondsRequired (backed_off backoffMultiplier n re) = cpuSecondsRequired re ∧
  cpuSecondsConsumed (backed_off backoffMultiplier n re) = cpuSecondsConsumed re ∧
  startTime (backed_off backoffMultiplier n re) = startTime re.
Proof.
  induction n as [|n IH]; intros re Hre.
  - simpl. split_and!; try done. lia.
  - cbn [backed_off].
    destruct (NextBackoff_frame re) as (Hn & Hr & Hc & Hs). cbv zeta in *.
    assert (attempts (fst (NextBackoff backoffMultiplier re))
            = Z.min (attempts re + 1) 18) as Ha.
    { unfold NextBackoff. destruct (attempts re <? 18) eqn:Hlt; simpl.
      - apply Z.ltb_lt in Hlt.
        rewrite processing_facts.wrap64_small by (unfold minInt64, maxInt64; lia). lia.
      - apply Z.ltb_ge in Hlt. lia. }
    destruct (IH (fst (NextBackoff backoffMultiplier re))) as (Ha' & Hn' & Hr' & Hc' & Hs');
      [lia|].
    rewrite Ha', Hn', Hr', Hc', Hs', Ha, Hn, Hr, Hc, Hs. split_and!; try done. lia.
Qed.

End backoff.

(** X17.  A request is allowed 18 backoffs.  Starting from a record with
    between 0 and 18 attempts, after [n] calls of [NextBackoff] the record
    counts the attempts made, 18 at most; the next call returns the
    backoff the record holds and reports out of attempts exactly when 18
    attempts are counted, and then leaves the record as it is.  No call
    touches the number, the CPU fields or the start time. *)
Theorem backoff_attempts (backoffMultiplier : float) (re : requestEntity) (n : nat) :
  0 ≤ attempts re ≤ 18 →
  let r := backed_off backoffMultiplier n re in
  attempts r = Z.min (attempts re + Z.of_nat n) 18 ∧
  fst (snd (NextBackoff backoffMultiplier r)) = nextBackoff r ∧
  snd (snd (NextBackoff backoffMultiplier r)) = (18 <=? attempts re + Z.of_nat n) ∧
  (18 ≤ attempts re + Z.of_nat n → fst (NextBackoff backoffMultiplier r) = r) ∧
  number r = number re ∧ cpuSecondsRequired r = cpuSecondsRequired re ∧
  cpuSecondsConsumed r = cpuSecondsConsumed re ∧ startTime r = startTime re.
Proof.
  intros Hre r.
  destruct (backed_off_spec backoffMultiplier n re Hre) as (Ha & Hrest).
  fold r in Ha, Hrest. split; [exact Ha|].
  assert ((attempts r <? 18) = negb (18 <=? attempts re + Z.of_nat n)) as Hlt.
  { rewrite Ha. destruct (18 <=? attempts re + Z.of_nat n) eqn:H18; simpl.
    - apply Z.leb_le in H18. apply Z.ltb_ge. lia.
    - apply Z.leb_gt in H18. apply Z.ltb_lt. lia. }
  split; [|split; [|split; [|exact Hrest]]].
  - unfold NextBackoff. by destruct (attempts r <? 18).
  - unfold NextBackoff. rewrite Hlt.
    by destruct (18 <=? attempts re + Z.of_nat n).
  - intros H18. unfold NextBackoff. rewrite Hlt.
    by replace (18 <=? attempts re + Z.of_nat n) with true
      by (symmetry; apply Z.leb_le; lia).
Qed.

Lemma backoff_attempts_witness :
  0 ≤ attempts (request 1) ≤ 18 ∧
  attempts (backed_off 2 20 (request 1)) = 18 ∧
  snd (snd (NextBackoff 2 (backed_off 2 17 (request 1)))) = false ∧
  snd (snd (NextBackoff 2 (backed_off 2 18 (request 1)))) = true.
Proof.
  assert (0 ≤ attempts (request 1) ≤ 18) as H by (vm_compute; split; discriminate).
  split; [exact H|]. split_and!.
  - apply (backoff_attempts 2 (request 1) 20 H).
  - apply (backoff_attempts 2 (request 1) 17 H).
  - apply (backoff_attempts 2 (request 1) 18 H).
Defined.

(** X18.  [NewRequestEntity] gives the request the number that follows
    the counter, and [Name] tells the requests apart: below the largest
    [int64], two counter values give requests of the same name only if
    they are the same value. *)
Theorem request_names_distinct (n n' : Z) :
  0 ≤ n < maxInt64 → 0 ≤ n' < maxInt64 →
  fst (NewRequestEntity n) = n + 1 ∧
  number (snd (NewRequestEntity n)) = n + 1 ∧
  (requestEntity_Name (snd (NewRequestEntity n))
   = requestEntity_Name (snd (NewRequestEntity n')) → n = n').
Proof.
  intros Hn Hn'. unfold NewRequestEntity, requestEntity_Name. simpl.
  rewrite !processing_facts.wrap64_small by (unfold minInt64, maxInt64 in *; lia).
  split_and!; [done|done|]. intros Heq.
  apply (inj (String.app "request-")) in Heq.
  apply queue_facts.FormatInt10_inj in Heq. lia.
Qed.

Lemma request_names_distinct_witness :
  requestEntity_Name (request 1) = "request-1"%string ∧
  (requestEntity_Name (snd (NewRequestEntity 0)) = requestEntity_Name (snd (NewRequestEntity 1)) →
   0 = 1).
Proof.
  split; [vm_compute; reflexivity|].
  apply (request_names_distinct 0 1); unfold maxInt64; lia.
Defined.

End request_further.

(* ================================================================== *)
(** ** Further properties of the autoscaler tick *)
(* ================================================================== *)

Module ticktock_further.
Import Go simulator model ticktock ticktock_spec ticktock_facts.
Import cache newsimulator queue_spec queue_facts further_spec queue_further.

Section tick.
Context {Plugin : Type}.
Variable Scale : Plugin → Z → Plugin * (Z + string).
Variable RecordToAutoscaler : ClusterModel → Plugin → Time → ClusterModel * Plugin.

Lemma increase_loop_frame n now : ∀ (tw : TickWorld Plugin) r,
  increase_loop n now tw = r →
  let tw' := match r with inl tw' => tw' | inr (tw', _) => tw' end in
  t_plugin tw' = t_plugin tw ∧ t_cluster tw' = t_cluster tw ∧
  autoscalerEntity (t_stock tw') = autoscalerEntity (t_stock tw) ∧
  desiredSink (t_stock tw') = desiredSink (t_stock tw) ∧
  TheTime (t_env tw') = TheTime (t_env tw) ∧
  TheHaltTime (t_env tw') = TheHaltTime (t_env tw).
Proof.
  induction n as [|n IH]; intros tw r Hr.
  - simpl in Hr. by subst r.
  - cbn [increase_loop] in Hr.
    destruct (ts_Add _ _) as [s|err]; [|by subst r].
    cbn [AddToSchedule] in Hr. apply IH in Hr. exact Hr.
Qed.

Lemma calculateCPUUtilization_frame fe cluster :
  TheTime (calculateCPUUtilization fe cluster) = TheTime fe ∧
  TheHaltTime (calculateCPUUtilization fe cluster) = TheHaltTime fe.
Proof.
  unfold calculateCPUUtilization.
  destruct (fold_left _ _ _) as [count total]. by destruct (0 <? count).
Qed.

Lemma reduce_loop_halt n now : ∀ fe,
  TheHaltTime (reduce_loop n now fe) = TheHaltTime fe.
Proof. induction n as [|n IH]; intros fe; simpl; [done|]. by rewrite IH. Qed.

Lemma tick_frame (tw tw' : TickWorld Plugin) cluster plugin plugin' desired err :
  RecordToAutoscaler (t_cluster tw) (t_plugin tw) (TheTime (t_env tw))
    = (cluster, plugin) →
  Scale plugin (Time_UnixNano (TheTime (t_env tw))) = (plugin', inl desired) →
  ticktock.Add Scale RecordToAutoscaler tw (autoscalerEntity (t_stock tw)) = TickReturned tw' err →
  t_plugin tw' = plugin' ∧ t_cluster tw' = cluster ∧
  autoscalerEntity (t_stock tw') = autoscalerEntity (t_stock tw) ∧
  desiredSink (t_stock tw') = desiredSink (t_stock tw) ∧
  TheTime (t_env tw') = TheTime (t_env tw) ∧
  TheHaltTime (t_env tw') = TheHaltTime (t_env tw).
Proof.
  intros Hrec Hscale. unfold ticktock.Add.
  rewrite decide_False by (intros H; by apply H).
  unfold CurrentMovementTime. rewrite Hrec, Hscale.
  set (delta := wrap32 (desired - wrap32 (ts_Count (cm_Desired cluster)))).
  destruct (0 <? delta); [|destruct (delta <? 0)].
  - match goal with |- context [increase_loop ?n ?t ?w] =>
      pose proof (increase_loop_frame n t w _ eq_refl) as Hf;
      destruct (increase_loop n t w) as [tw1|[tw1 e1]] end;
      cbv zeta in Hf; simpl in Hf; intros H; simplify_eq; simpl.
    + destruct (calculateCPUUtilization_frame (t_env tw1) (t_cluster tw1)) as [-> ->].
      done.
    + done.
  - intros H. simplify_eq. simpl.
    match goal with |- context [calculateCPUUtilization ?fe ?c] =>
      destruct (calculateCPUUtilization_frame fe c) as [-> ->] end.
    destruct (reduce_loop_spec (Z.to_nat (- delta)) (TheTime (t_env tw)) (t_env tw))
      as (_ & _ & ->).
    by rewrite reduce_loop_halt.
  - intros H. simplify_eq. simpl.
    by destruct (calculateCPUUtilization_frame (t_env tw) cluster) as [-> ->].
Qed.

End tick.

Lemma EnqueueMovement_pending mpq m :
  well_formed (data (heap mpq)) →
  items (data (heap mpq)) !! key_of m = None → closed (heap mpq) = false →
  pending (fst (EnqueueMovement mpq m)) ≡ₚ m :: pending mpq.
Proof.
  intros Hwf Hnone Hopen. rewrite (EnqueueMovement_pushes mpq m Hnone Hopen).
  unfold pending. simpl.
  destruct (heap_Push_spec (data (heap mpq)) (key_of m) m) as [-> Hq].
  apply pending_pushed; [|done]. destruct Hwf as (_ & Hmem & _).
  intros Hin. apply Hmem in Hin as [x Hx]. congruence.
Qed.

Lemma enqueue_all_refused t ms : ∀ mpq,
  well_formed (data (heap mpq)) →
  Forall (λ m, Time_UnixNano (mv_OccursAt m) = t) ms →
  (∃ other, other ∈ pending mpq ∧ Time_UnixNano (mv_OccursAt other) = t) →
  enqueue_all ms mpq = mpq.
Proof.
  induction ms as [|m ms IH]; intros mpq Hwf Hall Hother; [done|].
  apply Forall_cons in Hall as [Hm Hall]. cbn [enqueue_all].
  rewrite EnqueueMovement_duplicate; [by apply IH|].
  apply same_nanosecond_iff; [done|].
  destruct Hother as (other & Hin & Ht). exists other. split; [done|congruence].
Qed.

Lemma enqueue_all_same_instant t ms : ∀ mpq,
  queue_reachable mpq →
  Forall (λ m, Time_UnixNano (mv_OccursAt m) = t) ms →
  enqueue_all ms mpq = mpq ∨
  ∃ m, m ∈ ms ∧ pending (enqueue_all ms mpq) ≡ₚ m :: pending mpq.
Proof.
  induction ms as [|m ms IH]; intros mpq Hreach Hall; [by left|].
  destruct (queue_reachable_invariant mpq Hreach) as [Hwf _].
  pose proof Hall as Hall'. apply Forall_cons in Hall' as [Hm Hrest].
  destruct (items (data (heap mpq)) !! key_of m) as [m'|] eqn:Hkey.
  { left. apply (enqueue_all_refused t); [done|done|].
    destruct (proj2 (same_nanosecond_iff mpq m Hwf)) as (other & Hin & Ht);
      [by eexists|].
    exists other. split; [done|congruence]. }
  destruct (closed (heap mpq)) eqn:Hclosed.
  - cbn [enqueue_all]. rewrite (EnqueueMovement_closed mpq m Hkey Hclosed). simpl.
    destruct (IH mpq Hreach Hrest) as [Heq|(m1 & Hin & Hperm)]; [by left|].
    right. exists m1. split; [by right|done].
  - right. exists m. split; [by left|]. cbn [enqueue_all].
    pose proof (EnqueueMovement_pending mpq m Hwf Hkey Hclosed) as Hperm.
    assert (queue_reachable (fst (EnqueueMovement mpq m))) as Hreach1.
    { destruct (EnqueueMovement mpq m) as [mpq1 e1] eqn:Henq.
      by eapply reachable_enqueue. }
    destruct (queue_reachable_invariant _ Hreach1) as [Hwf1 _].
    rewrite (enqueue_all_refused t ms); [done|done|done|].
    exists m. split; [|done]. rewrite Hperm. by left.
Qed.

(** X19.  A tick that returns leaves the clock, the halt time, the entity
    the stock holds and the desired sink as they were, and consults the
    policy once: the cluster and the policy handle it leaves are the ones
    that [RecordToAutoscaler] and [Scale], asked at the current time in
    Unix nanoseconds, returned. *)
Theorem tick_consults_the_policy_once {Plugin : Type}
    (Scale : Plugin → Z → Plugin * (Z + string))
    (RecordToAutoscaler : ClusterModel → Plugin → Time → ClusterModel * Plugin)
    (tw : TickWorld Plugin) (cluster : ClusterModel) (plugin plugin' : Plugin)
    (desired : Z) :
  ts_kind (desiredSource (t_stock tw)) = "Desired"%string →
  RecordToAutoscaler (t_cluster tw) (t_plugin tw) (CurrentMovementTime (t_env tw))
    = (cluster, plugin) →
  Scale plugin (Time_UnixNano (CurrentMovementTime (t_env tw))) = (plugin', inl desired) →
  ∃ tw',
    ticktock.Add Scale RecordToAutoscaler tw (autoscalerEntity (t_stock tw))
      = TickReturned tw' None ∧
    t_plugin tw' = plugin' ∧ t_cluster tw' = cluster ∧
    autoscalerEntity (t_stock tw') = autoscalerEntity (t_stock tw) ∧
    desiredSink (t_stock tw') = desiredSink (t_stock tw) ∧
    TheTime (t_env tw') = TheTime (t_env tw) ∧
    TheHaltTime (t_env tw') = TheHaltTime (t_env tw).
Proof.
  intros Hk Hrec Hscale.
  destruct (tick_spec Scale RecordToAutoscaler tw cluster plugin plugin' desired
              Hk Hrec Hscale) as (tw' & HAdd & _).
  exists tw'. split; [exact HAdd|].
  by eapply tick_frame.
Qed.

Lemma tick_consults_the_policy_once_witness :
  ts_kind (desiredSource (t_stock (tick_world 3 [] [half_busy]))) = "Desired"%string ∧
  ∃ tw',
    fake_tick (tick_world 3 [] [half_busy]) = TickReturned tw' None ∧
    t_plugin tw' = mkFakePluginPartition [2 * Second + 1] 3 ∧
    TheTime (t_env tw') = 2 * Second + 1.
Proof.
  split; [reflexivity|].
  destruct (tick_consults_the_policy_once Fake_Scale Fake_RecordToAutoscaler
              (tick_world 3 [] [half_busy])
              (t_cluster (tick_world 3 [] [half_busy]))
              (t_plugin (tick_world 3 [] [half_busy]))
              (mkFakePluginPartition [2 * Second + 1] 3) 3
              eq_refl eq_refl eq_refl)
    as (tw' & HAdd & Hp & _ & _ & _ & Ht & _).
  exists tw'. split_and!; [exact HAdd|exact Hp|exact Ht].
Defined.

(** X20.  The movements one tick schedules all occur at the same instant,
    one nanosecond after the tick, and there are as many as the delta is
    large; handed to the movement queue in turn, at most one of them
    becomes pending, whatever the delta. *)
Theorem tick_movements_share_an_instant {Plugin : Type}
    (Scale : Plugin → Z → Plugin * (Z + string))
    (RecordToAutoscaler : ClusterModel → Plugin → Time → ClusterModel * Plugin)
    (tw : TickWorld Plugin) (cluster : ClusterModel) (plugin plugin' : Plugin)
    (desired : Z) (mpq : movementPQ) :
  ts_kind (desiredSource (t_stock tw)) = "Desired"%string →
  RecordToAutoscaler (t_cluster tw) (t_plugin tw) (CurrentMovementTime (t_env tw))
    = (cluster, plugin) →
  Scale plugin (Time_UnixNano (CurrentMovementTime (t_env tw))) = (plugin', inl desired) →
  queue_reachable mpq →
  let now := CurrentMovementTime (t_env tw) in
  let delta := wrap32 (desired - wrap32 (ts_Count (cm_Desired cluster))) in
  ∃ tw' issued,
    ticktock.Add Scale RecordToAutoscaler tw (autoscalerEntity (t_stock tw))
      = TickReturned tw' None ∧
    Movements (t_env tw') = Movements (t_env tw) ++ issued ∧
    length issued = Z.abs_nat delta ∧
    Forall (λ m, mv_OccursAt m = now + 1) issued ∧
    (enqueue_all issued mpq = mpq ∨
     ∃ m, m ∈ issued ∧ pending (enqueue_all issued mpq) ≡ₚ m :: pending mpq).
Proof.
  intros Hk Hrec Hscale Hreach now delta.
  destruct (tick_spec Scale RecordToAutoscaler tw cluster plugin plugin' desired
              Hk Hrec Hscale) as (tw' & HAdd & _ & _ & Hpos & Hneg & Hzero).
  fold now in Hpos, Hneg. fold delta in Hpos, Hneg, Hzero.
  assert (∃ issued, Movements (t_env tw') = Movements (t_env tw) ++ issued ∧
            length issued = Z.abs_nat delta ∧
            Forall (λ m, mv_OccursAt m = now + 1) issued)
    as (issued & Hm & Hlen & Hall).
  { destruct (Z.lt_trichotomy delta 0) as [Hd|[Hd|Hd]].
    - destruct (Hneg Hd) as [_ Hm]. eexists. split; [exact Hm|].
      rewrite length_replicate. split; [lia|]. by apply Forall_replicate.
    - destruct (Hzero Hd) as [_ Hm]. exists []. rewrite app_nil_r.
      split; [done|]. split; [simpl; lia|constructor].
    - destruct (Hpos Hd) as [_ Hm]. eexists. split; [exact Hm|].
      rewrite length_replicate. split; [lia|]. by apply Forall_replicate. }
  exists tw', issued. split_and!; try done.
  apply (enqueue_all_same_instant (Time_UnixNano (now + 1))); [done|].
  eapply Forall_impl; [exact Hall|]. intros m Hmt. simpl in Hmt. by rewrite Hmt.
Qed.

Lemma tick_movements_share_an_instant_witness :
  ts_kind (desiredSource (t_stock (tick_world 3 [] []))) = "Desired"%string ∧
  queue_reachable NewMovementPriorityQueue ∧
  ∃ tw' issued,
    fake_tick (tick_world 3 [] []) = TickReturned tw' None ∧
    Movements (t_env tw') = Movements (t_env (tick_world 3 [] [])) ++ issued ∧
    length issued = 3%nat ∧
    (enqueue_all issued NewMovementPriorityQueue = NewMovementPriorityQueue ∨
     ∃ m, m ∈ issued ∧
       pending (enqueue_all issued NewMovementPriorityQueue)
         ≡ₚ m :: pending NewMovementPriorityQueue).
Proof.
  split; [reflexivity|]. split; [apply reachable_queue_new|].
  destruct (tick_movements_share_an_instant Fake_Scale Fake_RecordToAutoscaler
              (tick_world 3 [] [])
              (t_cluster (tick_world 3 [] []))
              (t_plugin (tick_world 3 [] []))
              (mkFakePluginPartition [2 * Second + 1] 3) 3 NewMovementPriorityQueue
              eq_refl eq_refl eq_refl reachable_queue_new)
    as (tw' & issued & HAdd & Hm & Hlen & _ & Hq).
  exists tw', issued. split_and!; [exact HAdd|exact Hm|exact Hlen|exact Hq].
Defined.

End ticktock_further.
